(** * bookmarks-alive-exporter: the collection pipeline and its scrape handler

    The repository holds two revisions of the exporter's [main.go]:

    - the context-based revision ([src/unnamed/part_000]): the handler derives
      a 30 s context from the request, [collectMetrics] runs in the handler's
      goroutine and returns an error when the query fails, workers and feeder
      select on [ctx.Done()];
    - the done-channel revision ([src/main.go]): [collectMetrics] runs in a
      goroutine of its own and signals an unbuffered [done] channel, the
      handler selects on [done] and a 30 s timer.

    Both are embedded as interleaving transition systems: every goroutine is a
    small program-counter type, a label names the goroutine that moves and,
    where a [select] has several ready cases, the case that is taken.  The
    outside world (query result, HTTP round trips, the deadline) enters
    through the labels. *)

From Stdlib Require Import ZArith Ascii.
From stdpp Require Import gmap strings list fin_maps.

Open Scope string_scope.
Open Scope list_scope.
Open Scope nat_scope.

(** ** Data shared by both revisions *)

(** [status] is a [float64] in the source; the only values ever stored are
    [float64(resp.StatusCode)] and the literal [0], integers that [float64]
    represents exactly, so the embedding keeps them in [Z]. *)
Record metricUpdate := MetricUpdate { url : string; status : Z }.

(** One iteration of [rows.Next()] / [rows.Scan(&url)]. *)
Inductive row :=
| Scanned (u : string)
| ScanError.

(** A buffered Go channel: [make(chan A, cap)]. *)
Record chan (A : Type) := Chan { buf : list A; cap : nat; closed : bool }.
Arguments Chan {A} _ _ _.
Arguments buf {A} _.
Arguments cap {A} _.
Arguments closed {A} _.

Definition make {A} (n : nat) : chan A := Chan [] n false.

(** [c <- x]: [None] when the buffer is full (the sender blocks). *)
Definition send {A} (x : A) (c : chan A) : option (chan A) :=
  if decide (length (buf c) < cap c)
  then Some (Chan (buf c ++ [x]) (cap c) (closed c))
  else None.

(** [x, ok := <-c]: [Some (Some x, _)] is a value, [Some (None, _)] is
    [ok = false] on a closed and drained channel, [None] blocks. *)
Definition recv {A} (c : chan A) : option (option A * chan A) :=
  match buf c with
  | x :: b => Some (Some x, Chan b (cap c) (closed c))
  | [] => if closed c then Some (None, c) else None
  end.

Definition close {A} (c : chan A) : chan A := Chan (buf c) (cap c) true.

(** The HTTP client as the probe sees it. *)
Record Request := MkRequest
  { Method : string; URL : string; Header : list (string * string) }.

Record Client := MkClient { Timeout : Z }.

Record http := Http
  { NewRequest : string → bool;
      (* does http.NewRequestWithContext accept the URL *)
    Do : Client → Request → option Z
      (* client.Do / client.Get: the response's StatusCode, or an error *) }.

(** One series of the gauge vector as [promhttp] writes it. *)
Record sample := Sample { metric : string; label_url : string; value : Z }.

Inductive response :=
| MetricsText (body : list sample)
| InternalServerError.

(** [urlStatus.WithLabelValues(u)]: the series of [u], created with value 0
    when the vector has none. *)
Definition WithLabelValues (u : string) (g : gmap string Z) : gmap string Z :=
  match g !! u with
  | Some _ => g
  | None => <[u := 0%Z]> g
  end.

(** [.Set(v)] on the series of [url m]. *)
Definition Set_gauge (m : metricUpdate) (g : gmap string Z) : gmap string Z :=
  <[url m := status m]> g.

Definition exposition (name : string) (g : gmap string Z) : list sample :=
  (λ kv, Sample name kv.1 kv.2) <$> map_to_list g.

(** The command line as [flag.Parse()] reads it, one argument at a time
    ([parseOne] of package [flag]; all flags of the program are strings). *)
Inductive argument :=
| Positional        (* shorter than 2 or not starting with '-': parsing stops *)
| Terminator        (* "--": parsing stops *)
| BadSyntax         (* "bad flag syntax": "-", "---x", "-=x" *)
| Named (name : string) (value : option string).
                    (* -name, --name, -name=value, --name=value *)

(** The name up to the first '=' and what follows it. *)
Fixpoint cut_at_equals (s : string) : string * option string :=
  match s with
  | EmptyString => (EmptyString, None)
  | String c s' =>
      if Ascii.eqb c "="%char then (EmptyString, Some s')
      else (String c (cut_at_equals s').1, (cut_at_equals s').2)
  end.

(** What follows the one or two minus signs. *)
Definition flag_name (name : string) : argument :=
  match name with
  | EmptyString => BadSyntax
  | String c rest =>
      if Ascii.eqb c "-"%char || Ascii.eqb c "="%char then BadSyntax
      else Named (String c (cut_at_equals rest).1) (cut_at_equals rest).2
  end.

Definition parseOne (s : string) : argument :=
  match s with
  | String c0 (String c1 rest) =>
      if Ascii.eqb c0 "-"%char then
        if Ascii.eqb c1 "-"%char then
          match rest with
          | EmptyString => Terminator
          | _ => flag_name rest
          end
        else flag_name (String c1 rest)
      else Positional
  | _ => Positional
  end.

Definition workerCount : nat := 20.
Arguments workerCount : simpl never.

(** ** The context-based revision *)
Module Ctx.

(** *** Process configuration: the flags of [main] *)
Record flags := Flags { db : string; port : string; user_agent : string }.

Definition defaults : flags :=
  Flags "./bookmarks.db" "8000" "bookmarks-alive-exporter/1.0".

(** [flag.String] of [main]: the three flags defined, and what setting one
    does; a name that was not defined is refused. *)
Definition Set_flag (name value : string) (f : flags) : option flags :=
  if decide (name = "db") then Some (Flags value (port f) (user_agent f))
  else if decide (name = "port") then Some (Flags (db f) value (user_agent f))
  else if decide (name = "user-agent") then Some (Flags (db f) (port f) value)
  else None.

(** [flag.Parse()]: [None] is the flag package printing the usage and
    exiting (bad syntax, a flag that was not defined, a flag left without its
    value); what follows the first positional argument or ["--"] is not
    read. *)
Fixpoint Parse (args : list string) (f : flags) : option flags :=
  match args with
  | [] => Some f
  | s :: rest =>
      match parseOne s with
      | Positional | Terminator => Some f
      | BadSyntax => None
      | Named n (Some v) =>
          match Set_flag n v f with
          | Some f' => Parse rest f'
          | None => None
          end
      | Named n None =>
          match rest with
          | [] => None
          | v :: rest' =>
              match Set_flag n v f with
              | Some f' => Parse rest' f'
              | None => None
              end
          end
      end
  end.

Definition probeTimeout : Z := 5.

(** *** [checkURL] *)
Definition probe_request (userAgent u : string) : Request :=
  MkRequest "GET" u [("User-Agent", userAgent)].

Definition checkURL (userAgent : string) (net : http) (u : string) : Z :=
  if NewRequest net u then
    match Do net (MkClient probeTimeout) (probe_request userAgent u) with
    | None => 0
    | Some code => code
    end
  else 0.

(** *** Goroutines of one collection run *)

(** [urlChecker] *)
Inductive worker :=
| AtSelect                      (* the outer select *)
| Checking (u : string)         (* inside checkURL *)
| Emitting (m : metricUpdate)   (* the inner select *)
| Exited.                       (* returned, wg.Done() ran *)

Inductive wact :=
| WDone                         (* a select takes <-ctx.Done() *)
| WRecv                         (* the outer select takes <-urls *)
| WProbe (net : http)           (* checkURL returns *)
| WSend.                        (* the inner select takes updates <- ... *)

(** The feeder: the anonymous goroutine of [collectMetrics]. *)
Inductive feeder :=
| AtNext                        (* rows.Next() *)
| Offering (u : string)         (* the select around urlChan <- url *)
| Returned.                     (* returned, close(urlChan) ran *)

Inductive fact :=
| FScan                         (* rows.Next() and rows.Scan *)
| FSend                         (* the select takes urlChan <- url *)
| FDone.                        (* ctx is done: the select takes <-ctx.Done(),
                                   or rows.Next() reports the closed rows *)

(** The handler's goroutine: [metricsHandler] calling [collectMetrics] and
    [updateMetrics]. *)
Inductive handler :=
| Waiting                       (* collectMetrics: wg.Wait() *)
| Draining                      (* updateMetrics: the select *)
| Applying (m : metricUpdate)   (* updateMetrics: before WithLabelValues *)
| Setting (m : metricUpdate)    (* ... and before Set, the series exists *)
| Serving                       (* promhttp.Handler().ServeHTTP *)
| Replied (resp : response).

Inductive hact :=
| HJoin                         (* wg.Wait() returns *)
| HDone                         (* the select takes <-ctx.Done() *)
| HRecv                         (* the select takes <-metricsChan *)
| HDefault                      (* the select takes default *)
| HLabel                        (* WithLabelValues(..) returns the series *)
| HApply                        (* .Set(..) stores the status *)
| HServe.

Inductive obs :=
| Probed (i : nat) (m : metricUpdate)   (* worker i built a ProbeResult *)
| Sent (i : nat) (m : metricUpdate)     (* ... and put it on metricsChan *)
| Dropped (i : nat) (m : metricUpdate)  (* ... or left on cancellation *)
| Drained (m : metricUpdate)            (* this run's drain pass received m *)
| Applied (m : metricUpdate)            (* ... and set the gauge *)
| Responded (resp : response).

Record run := Run
  { query : list row;           (* what the query of this run returned *)
    rows : list row;            (* the rows not yet iterated *)
    feed : feeder;
    urlChan : chan string;
    workers : list worker;
    ctxDone : bool;
    hdl : handler }.

Definition is_exited (w : worker) : bool :=
  match w with Exited => true | _ => false end.

Definition urlChecker (userAgent : string) (done : bool) (a : wact) (w : worker)
    (urls : chan string) (updates : chan metricUpdate)
  : option (worker * chan string * chan metricUpdate * list (nat → obs)) :=
  match w, a with
  | AtSelect, WDone =>
      if done then Some (Exited, urls, updates, []) else None
  | AtSelect, WRecv =>
      match recv urls with
      | Some (Some u, urls') => Some (Checking u, urls', updates, [])
      | Some (None, urls') => Some (Exited, urls', updates, [])
      | None => None
      end
  | Checking u, WProbe net =>
      let m := MetricUpdate u (checkURL userAgent net u) in
      Some (Emitting m, urls, updates, [λ i, Probed i m])
  | Emitting m, WDone =>
      if done then Some (Exited, urls, updates, [λ i, Dropped i m]) else None
  | Emitting m, WSend =>
      match send m updates with
      | Some updates' => Some (AtSelect, urls, updates', [λ i, Sent i m])
      | None => None
      end
  | _, _ => None
  end.

Definition feeder_step (done : bool) (a : fact) (f : feeder)
    (rs : list row) (urls : chan string)
  : option (feeder * list row * chan string) :=
  match f, a with
  | AtNext, FScan =>
      match rs with
      | [] => Some (Returned, [], close urls)
      | Scanned u :: rs' => Some (Offering u, rs', urls)
      | ScanError :: rs' => Some (AtNext, rs', urls)
      end
  | Offering u, FSend =>
      match send u urls with
      | Some urls' => Some (AtNext, rs, urls')
      | None => None
      end
  | AtNext, FDone | Offering _, FDone =>
      if done then Some (Returned, rs, close urls) else None
  | _, _ => None
  end.

Definition metric_name : string := "bookmarks_alive_status".

(** [updateMetrics]: one turn of its loop. *)
Definition updateMetrics (done : bool) (a : hact) (h : handler)
    (updates : chan metricUpdate) (g : gmap string Z)
  : option (handler * chan metricUpdate * gmap string Z * list obs) :=
  match h, a with
  | Draining, HDone =>
      if done then Some (Serving, updates, g, []) else None
  | Draining, HRecv =>
      match recv updates with
      | Some (Some m, updates') => Some (Applying m, updates', g, [Drained m])
      | Some (None, updates') => Some (Serving, updates', g, [])
      | None => None
      end
  | Draining, HDefault =>
      if done then None
      else match recv updates with
           | None => Some (Serving, updates, g, [])
           | Some _ => None
           end
  | Applying m, HLabel =>
      Some (Setting m, updates, WithLabelValues (url m) g, [])
  | Setting m, HApply => Some (Draining, updates, Set_gauge m g, [Applied m])
  | _, _ => None
  end.

(** [collectMetrics] up to [wg.Wait()]: the query, the URL queue, the workers
    and the feeder. *)
Definition collectMetrics (q : option (list row)) : option run :=
  match q with
  | None => None
  | Some rs =>
      Some (Run rs rs AtNext (make 100) (replicate workerCount AtSelect)
                false Waiting)
  end.

(** A request whose query failed: nothing was allocated, the handler answered
    and its deferred [cancel] ran. *)
Definition failed : run :=
  Run [] [] Returned (close (make 100)) [] true (Replied InternalServerError).

Definition metricsHandler (q : option (list row)) : run * list obs :=
  match collectMetrics q with
  | Some ρ => (ρ, [])
  | None => (failed, [Responded InternalServerError])
  end.

Inductive action :=
| Deadline                      (* ctx.Done() is closed: the 30 s passed or
                                   the request's own context ended *)
| Feed (a : fact)
| Work (i : nat) (a : wact)
| Handle (a : hact).

(** One step of one run, over the process-wide [metricsChan] and [urlStatus]. *)
Definition run_step (userAgent : string) (a : action) (ρ : run)
    (mc : chan metricUpdate) (g : gmap string Z)
  : option (run * chan metricUpdate * gmap string Z * list obs) :=
  match a with
  | Deadline =>
      if ctxDone ρ then None
      else Some (Run (query ρ) (rows ρ) (feed ρ) (urlChan ρ) (workers ρ)
                     true (hdl ρ), mc, g, @nil obs)
  | Feed fa =>
      match feeder_step (ctxDone ρ) fa (feed ρ) (rows ρ) (urlChan ρ) with
      | Some (f, rs, urls) =>
          Some (Run (query ρ) rs f urls (workers ρ) (ctxDone ρ) (hdl ρ),
                mc, g, @nil obs)
      | None => None
      end
  | Work i wa =>
      match workers ρ !! i with
      | Some w =>
          match urlChecker userAgent (ctxDone ρ) wa w (urlChan ρ) mc with
          | Some (w', urls, mc', os) =>
              Some (Run (query ρ) (rows ρ) (feed ρ) urls
                        (<[i := w']> (workers ρ)) (ctxDone ρ) (hdl ρ),
                    mc', g, (λ o : nat → obs, o i) <$> os)
          | None => None
          end
      | None => None
      end
  | Handle HJoin =>
      match hdl ρ with
      | Waiting =>
          if forallb is_exited (workers ρ)
          then Some (Run (query ρ) (rows ρ) (feed ρ) (urlChan ρ) (workers ρ)
                         (ctxDone ρ) Draining, mc, g, @nil obs)
          else None
      | _ => None
      end
  | Handle HServe =>
      match hdl ρ with
      | Serving =>
          let resp := MetricsText (exposition metric_name g) in
          Some (Run (query ρ) (rows ρ) (feed ρ) (urlChan ρ) (workers ρ)
                    true (Replied resp), mc, g, [Responded resp])
      | _ => None
      end
  | Handle ha =>
      match updateMetrics (ctxDone ρ) ha (hdl ρ) mc g with
      | Some (h, mc', g', os) =>
          Some (Run (query ρ) (rows ρ) (feed ρ) (urlChan ρ) (workers ρ)
                    (ctxDone ρ) h, mc', g', os)
      | None => None
      end
  end.

(** *** The process *)
Record server := Server
  { userAgent : string;
    metricsChan : chan metricUpdate;
    urlStatus : gmap string Z;
    requests : list run }.

(** [main] up to [ListenAndServe]: [None] is a fatal start (bad flag,
    [sql.Open] or [db.Ping] failing). *)
Definition main (args : list string) (db_ok : bool) : option server :=
  match Parse args defaults with
  | Some f =>
      if db_ok then Some (Server (user_agent f) (make 1000) ∅ []) else None
  | None => None
  end.

Inductive label :=
| Scrape (q : option (list row))   (* a GET /metrics arrives; its query result *)
| Act (r : nat) (a : action).      (* a goroutine of request r moves *)

Definition event : Type := nat * obs.

Definition step (l : label) (s : server) : option (server * list event) :=
  match l with
  | Scrape q =>
      Some (Server (userAgent s) (metricsChan s) (urlStatus s)
                   (requests s ++ [(metricsHandler q).1]),
            pair (length (requests s)) <$> (metricsHandler q).2)
  | Act r a =>
      match requests s !! r with
      | Some ρ =>
          match run_step (userAgent s) a ρ (metricsChan s) (urlStatus s) with
          | Some (ρ', mc, g, os) =>
              Some (Server (userAgent s) mc g (<[r := ρ']> (requests s)),
                    pair r <$> os)
          | None => None
          end
      | None => None
      end
  end.

(** A configuration pairs the process state with the events so far. *)
Fixpoint exec (ls : list label) (c : server * list event)
  : option (server * list event) :=
  match ls with
  | [] => Some c
  | l :: ls' =>
      match step l c.1 with
      | Some (s', es) => exec ls' (s', c.2 ++ es)
      | None => None
      end
  end.

End Ctx.

(** ** The done-channel revision *)
Module Done.

Record flags := Flags { db : string; port : string }.

Definition defaults : flags := Flags "./bookmarks.db" "8000".

(** This revision defines [-db] and [-port] only. *)
Definition Set_flag (name value : string) (f : flags) : option flags :=
  if decide (name = "db") then Some (Flags value (port f))
  else if decide (name = "port") then Some (Flags (db f) value)
  else None.

Fixpoint Parse (args : list string) (f : flags) : option flags :=
  match args with
  | [] => Some f
  | s :: rest =>
      match parseOne s with
      | Positional | Terminator => Some f
      | BadSyntax => None
      | Named n (Some v) =>
          match Set_flag n v f with
          | Some f' => Parse rest f'
          | None => None
          end
      | Named n None =>
          match rest with
          | [] => None
          | v :: rest' =>
              match Set_flag n v f with
              | Some f' => Parse rest' f'
              | None => None
              end
          end
      end
  end.

(** [client.Get(url)] builds the request and sends it. *)
Definition Get (net : http) (c : Client) (u : string) : option Z :=
  if NewRequest net u then Do net c (MkRequest "GET" u []) else None.

Definition checkURL (net : http) (u : string) : Z :=
  match Get net (MkClient 5) u with
  | None => 0
  | Some code => code
  end.

(** [urlChecker]: [for url := range urls] *)
Inductive worker :=
| AtRange
| Checking (u : string)
| Emitting (m : metricUpdate)   (* updates <- metricUpdate{...} *)
| Exited.

Inductive wact :=
| WRecv
| WProbe (net : http)
| WSend.

Inductive feeder :=
| AtNext
| Offering (u : string)         (* urlChan <- url *)
| Returned.

Inductive fact :=
| FScan
| FSend.

(** The goroutine running [collectMetrics]. *)
Inductive collector :=
| Querying                      (* db.Query has not returned *)
| Joining                       (* wg.Wait() *)
| Signalling                    (* done <- true *)
| Finished.

(** The handler's goroutine. *)
Inductive handler :=
| Selecting                     (* select over the timer and done *)
| Draining                      (* updateMetrics: the select *)
| Applying (m : metricUpdate)
| Setting (m : metricUpdate)
| Serving
| Replied (resp : response).

Inductive hact :=
| HTimeout                      (* the select takes <-timeout *)
| HDone                         (* the select takes <-done *)
| HRecv
| HDefault
| HLabel
| HApply
| HServe.

Inductive obs :=
| Probed (i : nat) (m : metricUpdate)
| Sent (i : nat) (m : metricUpdate)
| QueryFailed                   (* "Error querying database" is logged *)
| TimedOut                      (* "Metric collection timed out" *)
| Completed                     (* "Metric collection completed" *)
| Drained (m : metricUpdate)
| Applied (m : metricUpdate)
| Responded (resp : response).

(** Before the query has returned, and after it failed, the run has no
    workers and no feeder: [workers = []] and [feed = Returned]. *)
Record run := Run
  { query : list row;
    rows : list row;
    coll : collector;
    feed : feeder;
    urlChan : chan string;
    workers : list worker;
    hdl : handler }.

Definition is_exited (w : worker) : bool :=
  match w with Exited => true | _ => false end.

Definition urlChecker (a : wact) (w : worker)
    (urls : chan string) (updates : chan metricUpdate)
  : option (worker * chan string * chan metricUpdate * list (nat → obs)) :=
  match w, a with
  | AtRange, WRecv =>
      match recv urls with
      | Some (Some u, urls') => Some (Checking u, urls', updates, [])
      | Some (None, urls') => Some (Exited, urls', updates, [])
      | None => None
      end
  | Checking u, WProbe net =>
      let m := MetricUpdate u (checkURL net u) in
      Some (Emitting m, urls, updates, [λ i, Probed i m])
  | Emitting m, WSend =>
      match send m updates with
      | Some updates' => Some (AtRange, urls, updates', [λ i, Sent i m])
      | None => None
      end
  | _, _ => None
  end.

Definition feeder_step (a : fact) (f : feeder) (rs : list row) (urls : chan string)
  : option (feeder * list row * chan string) :=
  match f, a with
  | AtNext, FScan =>
      match rs with
      | [] => Some (Returned, [], close urls)
      | Scanned u :: rs' => Some (Offering u, rs', urls)
      | ScanError :: rs' => Some (AtNext, rs', urls)
      end
  | Offering u, FSend =>
      match send u urls with
      | Some urls' => Some (AtNext, rs, urls')
      | None => None
      end
  | _, _ => None
  end.

Definition metric_name : string := "bookmark_alive_status".

(** [updateMetrics]: the receive has no [ok]; on a closed channel it would
    yield the zero [metricUpdate]. *)
Definition updateMetrics (a : hact) (h : handler)
    (updates : chan metricUpdate) (g : gmap string Z)
  : option (handler * chan metricUpdate * gmap string Z * list obs) :=
  match h, a with
  | Draining, HRecv =>
      match recv updates with
      | Some (Some m, updates') => Some (Applying m, updates', g, [Drained m])
      | Some (None, updates') =>
          Some (Applying (MetricUpdate "" 0), updates', g,
                [Drained (MetricUpdate "" 0)])
      | None => None
      end
  | Draining, HDefault =>
      match recv updates with
      | None => Some (Serving, updates, g, [])
      | Some _ => None
      end
  | Applying m, HLabel =>
      Some (Setting m, updates, WithLabelValues (url m) g, [])
  | Setting m, HApply => Some (Draining, updates, Set_gauge m g, [Applied m])
  | _, _ => None
  end.

(** [collectMetrics] from the return of [db.Query] to [wg.Wait()], or to
    [done <- true] when the query failed. *)
Definition collectMetrics (q : option (list row)) (ρ : run) : run * list obs :=
  match q with
  | None =>
      (Run [] [] Signalling Returned (urlChan ρ) [] (hdl ρ), [QueryFailed])
  | Some rs =>
      (Run rs rs Joining AtNext (make 100) (replicate workerCount AtRange)
           (hdl ρ), [])
  end.

(** [metricsHandler] at its start: [go collectMetrics(done)]. *)
Definition metricsHandler : run :=
  Run [] [] Querying Returned (make 100) [] Selecting.

Inductive action :=
| Query (q : option (list row))   (* db.Query returns *)
| Feed (a : fact)
| Work (i : nat) (a : wact)
| Join                            (* wg.Wait() returns *)
| Handle (a : hact).

Definition run_step (a : action) (ρ : run)
    (mc : chan metricUpdate) (g : gmap string Z)
  : option (run * chan metricUpdate * gmap string Z * list obs) :=
  match a with
  | Query q =>
      match coll ρ with
      | Querying => Some ((collectMetrics q ρ).1, mc, g, (collectMetrics q ρ).2)
      | _ => None
      end
  | Feed fa =>
      match feeder_step fa (feed ρ) (rows ρ) (urlChan ρ) with
      | Some (f, rs, urls) =>
          Some (Run (query ρ) rs (coll ρ) f urls (workers ρ) (hdl ρ),
                mc, g, @nil obs)
      | None => None
      end
  | Work i wa =>
      match workers ρ !! i with
      | Some w =>
          match urlChecker wa w (urlChan ρ) mc with
          | Some (w', urls, mc', os) =>
              Some (Run (query ρ) (rows ρ) (coll ρ) (feed ρ) urls
                        (<[i := w']> (workers ρ)) (hdl ρ),
                    mc', g, (λ o : nat → obs, o i) <$> os)
          | None => None
          end
      | None => None
      end
  | Join =>
      match coll ρ with
      | Joining =>
          if forallb is_exited (workers ρ)
          then Some (Run (query ρ) (rows ρ) Signalling (feed ρ) (urlChan ρ)
                         (workers ρ) (hdl ρ), mc, g, @nil obs)
          else None
      | _ => None
      end
  | Handle HTimeout =>
      match hdl ρ with
      | Selecting =>
          Some (Run (query ρ) (rows ρ) (coll ρ) (feed ρ) (urlChan ρ)
                    (workers ρ) Draining, mc, g, [TimedOut])
      | _ => None
      end
  | Handle HDone =>
      match hdl ρ, coll ρ with
      | Selecting, Signalling =>
          Some (Run (query ρ) (rows ρ) Finished (feed ρ) (urlChan ρ)
                    (workers ρ) Draining, mc, g, [Completed])
      | _, _ => None
      end
  | Handle HServe =>
      match hdl ρ with
      | Serving =>
          let resp := MetricsText (exposition metric_name g) in
          Some (Run (query ρ) (rows ρ) (coll ρ) (feed ρ) (urlChan ρ)
                    (workers ρ) (Replied resp), mc, g, [Responded resp])
      | _ => None
      end
  | Handle ha =>
      match updateMetrics ha (hdl ρ) mc g with
      | Some (h, mc', g', os) =>
          Some (Run (query ρ) (rows ρ) (coll ρ) (feed ρ) (urlChan ρ)
                    (workers ρ) h, mc', g', os)
      | None => None
      end
  end.

Record server := Server
  { metricsChan : chan metricUpdate;
    urlStatus : gmap string Z;
    requests : list run }.

Definition main (args : list string) (db_ok : bool) : option server :=
  match Parse args defaults with
  | Some f => if db_ok then Some (Server (make 1000) ∅ []) else None
  | None => None
  end.

Inductive label :=
| Scrape
| Act (r : nat) (a : action).

Definition event : Type := nat * obs.

Definition step (l : label) (s : server) : option (server * list event) :=
  match l with
  | Scrape =>
      Some (Server (metricsChan s) (urlStatus s) (requests s ++ [metricsHandler]),
            @nil event)
  | Act r a =>
      match requests s !! r with
      | Some ρ =>
          match run_step a ρ (metricsChan s) (urlStatus s) with
          | Some (ρ', mc, g, os) =>
              Some (Server mc g (<[r := ρ']> (requests s)), pair r <$> os)
          | None => None
          end
      | None => None
      end
  end.

Fixpoint exec (ls : list label) (c : server * list event)
  : option (server * list event) :=
  match ls with
  | [] => Some c
  | l :: ls' =>
      match step l c.1 with
      | Some (s', es) => exec ls' (s', c.2 ++ es)
      | None => None
      end
  end.

End Done.

(** ** Vocabulary of the statements *)

(** In-flight probes of a run: the workers inside [checkURL]. *)
Definition probing (w : Ctx.worker) : bool :=
  match w with Ctx.Checking _ => true | _ => false end.

Definition in_flight (ρ : Ctx.run) : nat :=
  length (List.filter probing (Ctx.workers ρ)).

Definition probing0 (w : Done.worker) : bool :=
  match w with Done.Checking _ => true | _ => false end.

Definition in_flight0 (ρ : Done.run) : nat :=
  length (List.filter probing0 (Done.workers ρ)).

(** The probes in flight in the whole process: those of all its runs. *)
Definition all_in_flight (s : Ctx.server) : nat :=
  sum_list_with in_flight (Ctx.requests s).

Definition all_in_flight0 (s : Done.server) : nat :=
  sum_list_with in_flight0 (Done.requests s).

(** The value last applied for [u] in a trace. *)
Fixpoint last_applied (u : string) (tr : list Ctx.event) : option Z :=
  match tr with
  | [] => None
  | e :: tr' =>
      match last_applied u tr' with
      | Some v => Some v
      | None =>
          match e.2 with
          | Ctx.Applied m => if decide (url m = u) then Some (status m) else None
          | _ => None
          end
      end
  end.

Fixpoint last_applied0 (u : string) (tr : list Done.event) : option Z :=
  match tr with
  | [] => None
  | e :: tr' =>
      match last_applied0 u tr' with
      | Some v => Some v
      | None =>
          match e.2 with
          | Done.Applied m => if decide (url m = u) then Some (status m) else None
          | _ => None
          end
      end
  end.

(** The settings a command line makes, in order, up to the first positional
    argument or ["--"]: [-name value] and [-name=value], with one or two minus
    signs.  There are none to speak of when an argument is malformed or the
    last flag has no value. *)
Fixpoint settings (args : list string) : option (list (string * string)) :=
  match args with
  | [] => Some []
  | s :: rest =>
      match parseOne s with
      | Positional | Terminator => Some []
      | BadSyntax => None
      | Named n (Some v) => cons (n, v) <$> settings rest
      | Named n None =>
          match rest with
          | [] => None
          | v :: rest' => cons (n, v) <$> settings rest'
          end
      end
  end.

(** A command line that makes the settings [nvs], each as [-name value]. *)
Definition command_line (nvs : list (string * string)) : list string :=
  flat_map (λ nv, ["-" +:+ nv.1; nv.2]) nvs.

(** The value a flag ends up with: that of its last setting, the default when
    there is none. *)
Definition flag_value (name : string) (nvs : list (string * string))
    (d : string) : string :=
  fold_left (λ acc nv, if decide (nv.1 = name) then nv.2 else acc) nvs d.

(** A handler between [WithLabelValues] and [Set] on the series of [u]. *)
Definition being_set (u : string) (h : Ctx.handler) : bool :=
  match h with Ctx.Setting m => bool_decide (url m = u) | _ => false end.

Definition being_set0 (u : string) (h : Done.handler) : bool :=
  match h with Done.Setting m => bool_decide (url m = u) | _ => false end.

(** Some request has created the series of [u] and not set it yet. *)
Definition created (u : string) (s : Ctx.server) : bool :=
  existsb (λ ρ, being_set u (Ctx.hdl ρ)) (Ctx.requests s).

Definition created0 (u : string) (s : Done.server) : bool :=
  existsb (λ ρ, being_set0 u (Done.hdl ρ)) (Done.requests s).

(** What the gauge store holds for a URL: the value applied last, or the 0
    of a series created and not set yet. *)
Definition held (last : option Z) (fresh : bool) : option Z :=
  match last with
  | Some v => Some v
  | None => if fresh then Some 0%Z else None
  end.


Fixpoint run_exec0 (acts : list Done.action)
    (ρ : Done.run) (mc : chan metricUpdate) (g : gmap string Z) (os : list Done.obs)
  : option (Done.run * chan metricUpdate * gmap string Z * list Done.obs) :=
  match acts with
  | [] => Some (ρ, mc, g, os)
  | a :: acts' =>
      match Done.run_step a ρ mc g with
      | Some (ρ', mc', g', os') => run_exec0 acts' ρ' mc' g' (os ++ os')
      | None => None
      end
  end.

(** Past [wg.Wait()] every worker of the run has exited. *)
Definition joined (ρ : Ctx.run) : Prop :=
  Ctx.hdl ρ ≠ Ctx.Waiting → forallb Ctx.is_exited (Ctx.workers ρ) = true.

Definition joined0 (ρ : Done.run) : Prop :=
  Done.coll ρ = Done.Signalling ∨ Done.coll ρ = Done.Finished →
  forallb Done.is_exited (Done.workers ρ) = true.

(** Counting the places where a URL of a run can be before it is probed. *)
Definition hit (u u' : string) : nat := if decide (u' = u) then 1 else 0.

Definition row_hit (u : string) (x : row) : nat :=
  match x with Scanned u' => hit u u' | ScanError => 0 end.

Definition feeder_hit (u : string) (f : Ctx.feeder) : nat :=
  match f with Ctx.Offering u' => hit u u' | _ => 0 end.

Definition worker_hit (u : string) (w : Ctx.worker) : nat :=
  match w with Ctx.Checking u' => hit u u' | _ => 0 end.

Definition obs_hit (u : string) (o : Ctx.obs) : nat :=
  match o with Ctx.Probed _ m => hit u (url m) | _ => 0 end.

(** How often the store result lists [u]. *)
Definition listed (u : string) (rs : list row) : nat :=
  sum_list_with (row_hit u) rs.

(** The ProbeResults request [r] has produced for [u]. *)
Definition probes (r : nat) (u : string) (tr : list Ctx.event) : nat :=
  sum_list_with (λ e, if decide (e.1 = r) then obs_hit u e.2 else 0) tr.

Definition pending (u : string) (ρ : Ctx.run) : nat :=
  listed u (Ctx.rows ρ) + feeder_hit u (Ctx.feed ρ)
  + sum_list_with (hit u) (buf (Ctx.urlChan ρ))
  + sum_list_with (worker_hit u) (Ctx.workers ρ).

(** Where the result for a listed URL of a run can be on its way to the
    gauge store; [A] holds of the URLs that have been set. *)
Definition covered (u : string) (ρ : Ctx.run) (mc : chan metricUpdate)
    (A : string → Prop) : Prop :=
  Scanned u ∈ Ctx.rows ρ ∨
  Ctx.feed ρ = Ctx.Offering u ∨
  u ∈ buf (Ctx.urlChan ρ) ∨
  Ctx.Checking u ∈ Ctx.workers ρ ∨
  (∃ v, Ctx.Emitting (MetricUpdate u v) ∈ Ctx.workers ρ) ∨
  (∃ v, MetricUpdate u v ∈ buf mc) ∨
  (∃ v, Ctx.hdl ρ = Ctx.Applying (MetricUpdate u v)) ∨
  (∃ v, Ctx.hdl ρ = Ctx.Setting (MetricUpdate u v)) ∨
  A u.

(** A run whose context is not done and whose handler has not answered. *)
Definition collecting (ρ : Ctx.run) (mc : chan metricUpdate)
    (A : string → Prop) : Prop :=
  Ctx.ctxDone ρ = false ∧
  (∀ resp, Ctx.hdl ρ ≠ Ctx.Replied resp) ∧
  (∀ u, Scanned u ∈ Ctx.query ρ → covered u ρ mc A) ∧
  (Ctx.feed ρ = Ctx.Returned → Ctx.rows ρ = []) ∧
  (closed (Ctx.urlChan ρ) = true → Ctx.feed ρ = Ctx.Returned) ∧
  (Ctx.Exited ∈ Ctx.workers ρ →
     closed (Ctx.urlChan ρ) = true ∧ buf (Ctx.urlChan ρ) = []) ∧
  (Ctx.hdl ρ ≠ Ctx.Waiting → forallb Ctx.is_exited (Ctx.workers ρ) = true) ∧
  (Ctx.hdl ρ = Ctx.Serving → ∀ u, Scanned u ∈ Ctx.query ρ → A u) ∧
  length (Ctx.workers ρ) = workerCount.

(** A run that has answered, with every listed URL set, and in its answer
    with a value [B] holds of. *)
Definition answered (ρ : Ctx.run) (A : string → Prop)
    (B : string → Z → Prop) : Prop :=
  (∃ body, Ctx.hdl ρ = Ctx.Replied (MetricsText body) ∧
           ∀ u, Scanned u ∈ Ctx.query ρ →
                ∃ v, Sample Ctx.metric_name u v ∈ body ∧ B u v) ∧
  Ctx.feed ρ = Ctx.Returned ∧
  forallb Ctx.is_exited (Ctx.workers ρ) = true ∧
  ∀ u, Scanned u ∈ Ctx.query ρ → A u.

Definition undisturbed (ρ : Ctx.run) (mc : chan metricUpdate)
    (A : string → Prop) (B : string → Z → Prop) : Prop :=
  collecting ρ mc A ∨ answered ρ A B.

(** The URLs set so far, and the values they were set to. *)
Definition set_in (tr : list Ctx.event) (u : string) : Prop :=
  is_Some (last_applied u tr).

Definition applied_in (tr : list Ctx.event) (u : string) (v : Z) : Prop :=
  ∃ r, (r, Ctx.Applied (MetricUpdate u v)) ∈ tr.

(** [v] is what [checkURL] returned for [u] at some probe of the schedule
    [ls]: after a prefix of [ls] a worker stood inside [checkURL] for [u], and
    the next step of the schedule is the return of that call in the world
    [net]. *)
Definition probe_result (s0 : Ctx.server) (ls : list Ctx.label)
    (u : string) (v : Z) : Prop :=
  ∃ ls1 ls2 c1 r i net ρ,
    ls = ls1 ++ Ctx.Act r (Ctx.Work i (Ctx.WProbe net)) :: ls2 ∧
    Ctx.exec ls1 (s0, []) = Some c1 ∧
    Ctx.requests c1.1 !! r = Some ρ ∧
    Ctx.workers ρ !! i = Some (Ctx.Checking u) ∧
    v = Ctx.checkURL (Ctx.userAgent s0) net u.


(** A value of the gauge store: the result of a probe of its URL, or the 0
    of a series created for a probed URL and not set yet. *)
Definition stored (Q : string → Z → Prop) (u : string) (v : Z) : Prop :=
  Q u v ∨ (v = 0%Z ∧ ∃ v', Q u v').

(** Status codes the spec calls valid, and the sentinel. *)
Definition valid_or_zero (v : Z) : Prop := (v = 0 ∨ 100 ≤ v ≤ 599)%Z.

(** A world whose responses carry valid status codes only. *)
Definition well_behaved (net : http) : Prop :=
  ∀ c rq code, Do net c rq = Some code → (100 ≤ code ≤ 599)%Z.

Definition tame (l : Ctx.label) : Prop :=
  match l with
  | Ctx.Act _ (Ctx.Work _ (Ctx.WProbe net)) => well_behaved net
  | _ => True
  end.

(** A step that leaves the run of request [r] undisturbed: the context of
    [r] does not become done, and no other request's drain pass receives from
    [metricsChan]. *)
Definition spares (r : nat) (l : Ctx.label) : Prop :=
  match l with
  | Ctx.Scrape _ => True
  | Ctx.Act r' a =>
      if decide (r' = r) then a ≠ Ctx.Deadline
      else a ≠ Ctx.Handle Ctx.HRecv
  end.

(** What the events and the runs of a configuration have in common: every
    event belongs to a request, and a request has not probed a URL more often
    than its query lists it, counting what is still on its way. *)
Definition counted (c : Ctx.server * list Ctx.event) : Prop :=
  (∀ e, e ∈ c.2 → e.1 < length (Ctx.requests c.1)) ∧
  (∀ r ρ u, Ctx.requests c.1 !! r = Some ρ →
            probes r u c.2 + pending u ρ ≤ listed u (Ctx.query ρ)).

(** ** Worlds, stores and schedules used as examples *)

Definition answers (code : Z) : http := Http (λ _, true) (λ _ _, Some code).
Definition unreachable : http := Http (λ _, true) (λ _ _, None).
Definition malformed : http := Http (λ _, false) (λ _ _, Some 200%Z).

Definition boot : Ctx.server :=
  Ctx.Server "bookmarks-alive-exporter/1.0" (make 1000) ∅ [].

Definition boot0 : Done.server := Done.Server (make 1000) ∅ [].

(** Every worker of request [r] takes the same action, in index order. *)
Definition each_worker (r : nat) (a : Ctx.wact) : list Ctx.label :=
  (λ i, Ctx.Act r (Ctx.Work i a)) <$> seq 0 workerCount.

Definition each_worker0 (r : nat) (a : Done.wact) : list Done.label :=
  (λ i, Done.Act r (Done.Work i a)) <$> seq 0 workerCount.

(** Request [r] over the one-row store: fed, probed by worker 0, sent. *)
Definition probe_one (r : nat) (net : http) : list Ctx.label :=
  [ Ctx.Act r (Ctx.Feed Ctx.FScan); Ctx.Act r (Ctx.Feed Ctx.FSend);
    Ctx.Act r (Ctx.Work 0 Ctx.WRecv); Ctx.Act r (Ctx.Work 0 (Ctx.WProbe net));
    Ctx.Act r (Ctx.Work 0 Ctx.WSend) ].

(** ... then the feeder closes the queue and every worker sees it closed. *)
Definition wind_down (r : nat) : list Ctx.label :=
  Ctx.Act r (Ctx.Feed Ctx.FScan) :: each_worker r Ctx.WRecv
  ++ [Ctx.Act r (Ctx.Handle Ctx.HJoin)].

Definition drain_one (r : nat) : list Ctx.label :=
  [ Ctx.Act r (Ctx.Handle Ctx.HRecv); Ctx.Act r (Ctx.Handle Ctx.HLabel);
    Ctx.Act r (Ctx.Handle Ctx.HApply) ].

Definition reply (r : nat) : list Ctx.label :=
  [ Ctx.Act r (Ctx.Handle Ctx.HDefault); Ctx.Act r (Ctx.Handle Ctx.HServe) ].

(** A whole scrape of the store [["a"]] answering 200, as request [r]. *)
Definition scrape_a_as (r : nat) : list Ctx.label :=
  Ctx.Scrape (Some [Scanned "a"]) :: probe_one r (answers 200)
  ++ wind_down r ++ drain_one r ++ reply r.

Definition scrape_a : list Ctx.label := scrape_a_as 0.

(** The same scrape up to [wg.Wait()] returning, and up to the call of the
    exposition handler. *)
Definition joined_a : list Ctx.label :=
  Ctx.Scrape (Some [Scanned "a"]) :: probe_one 0 (answers 200) ++ wind_down 0.


(** Request 0 has created the series of ["a"] and not yet set it when
    request 1, over an empty store, is joined, finds [metricsChan] empty and
    serves. *)
Definition served_before_set : list Ctx.label :=
  joined_a
  ++ [ Ctx.Act 0 (Ctx.Handle Ctx.HRecv); Ctx.Act 0 (Ctx.Handle Ctx.HLabel) ]
  ++ Ctx.Scrape (Some []) :: wind_down 1 ++ reply 1.

(** Two URLs in flight at once. *)
Definition two_probing : list Ctx.label :=
  [ Ctx.Scrape (Some [Scanned "a"; Scanned "b"; Scanned "c"]);
    Ctx.Act 0 (Ctx.Feed Ctx.FScan); Ctx.Act 0 (Ctx.Feed Ctx.FSend);
    Ctx.Act 0 (Ctx.Feed Ctx.FScan); Ctx.Act 0 (Ctx.Feed Ctx.FSend);
    Ctx.Act 0 (Ctx.Work 3 Ctx.WRecv); Ctx.Act 0 (Ctx.Work 7 Ctx.WRecv) ].

Definition two_probing0 : list Done.label :=
  [ Done.Scrape; Done.Act 0 (Done.Query (Some [Scanned "a"; Scanned "b"]));
    Done.Act 0 (Done.Feed Done.FScan); Done.Act 0 (Done.Feed Done.FSend);
    Done.Act 0 (Done.Feed Done.FScan); Done.Act 0 (Done.Feed Done.FSend);
    Done.Act 0 (Done.Work 3 Done.WRecv); Done.Act 0 (Done.Work 7 Done.WRecv) ].

(** A store of twenty rows, ["a"] to ["t"]. *)
Definition twenty_rows : list row :=
  (λ i, Scanned (String (ascii_of_nat (97 + i)) EmptyString)) <$> seq 0 20.

(** Request [r] feeds twenty URLs and each of its workers takes one. *)
Definition occupy (r : nat) : list Ctx.label :=
  flat_map (λ i, [ Ctx.Act r (Ctx.Feed Ctx.FScan);
                   Ctx.Act r (Ctx.Feed Ctx.FSend);
                   Ctx.Act r (Ctx.Work i Ctx.WRecv) ]) (seq 0 20).

Definition occupy0 (r : nat) : list Done.label :=
  flat_map (λ i, [ Done.Act r (Done.Feed Done.FScan);
                   Done.Act r (Done.Feed Done.FSend);
                   Done.Act r (Done.Work i Done.WRecv) ]) (seq 0 20).

(** Two overlapping scrapes, every worker of both inside [checkURL]. *)
Definition forty_probing : list Ctx.label :=
  Ctx.Scrape (Some twenty_rows) :: occupy 0
  ++ Ctx.Scrape (Some twenty_rows) :: occupy 1.

(** The same where the first request has given up after its 30 s and
    answered, its probes still pending, before the second arrives. *)
Definition forty_probing0 : list Done.label :=
  Done.Scrape :: Done.Act 0 (Done.Query (Some twenty_rows)) :: occupy0 0
  ++ [ Done.Act 0 (Done.Handle Done.HTimeout);
       Done.Act 0 (Done.Handle Done.HDefault);
       Done.Act 0 (Done.Handle Done.HServe);
       Done.Scrape; Done.Act 1 (Done.Query (Some twenty_rows)) ]
  ++ occupy0 1.

(** A run whose worker 0 is inside [checkURL] for ["a"]. *)
Definition checking_a : Ctx.run :=
  Ctx.Run [Scanned "a"] [] Ctx.AtNext (make 100)
    (Ctx.Checking "a" :: replicate 19 Ctx.AtSelect) false Ctx.Waiting.

Definition checking_a0 : Done.run :=
  Done.Run [Scanned "a"] [] Done.Joining Done.AtNext (make 100)
    (Done.Checking "a" :: replicate 19 Done.AtRange) Done.Selecting.

(** The store [["a"]] collected and joined in the done-channel revision ... *)
Definition collect_a0 : list Done.label :=
  [ Done.Scrape; Done.Act 0 (Done.Query (Some [Scanned "a"]));
    Done.Act 0 (Done.Feed Done.FScan); Done.Act 0 (Done.Feed Done.FSend);
    Done.Act 0 (Done.Work 0 Done.WRecv);
    Done.Act 0 (Done.Work 0 (Done.WProbe (answers 200)));
    Done.Act 0 (Done.Work 0 Done.WSend); Done.Act 0 (Done.Feed Done.FScan) ]
  ++ each_worker0 0 Done.WRecv ++ [ Done.Act 0 Done.Join ].

(** ... drained, up to the call of the exposition handler ... *)
Definition serving_a0 : list Done.label :=
  collect_a0
  ++ [ Done.Act 0 (Done.Handle Done.HDone);
       Done.Act 0 (Done.Handle Done.HRecv); Done.Act 0 (Done.Handle Done.HLabel);
       Done.Act 0 (Done.Handle Done.HApply);
       Done.Act 0 (Done.Handle Done.HDefault) ].

(** ... and the whole scrape. *)
Definition scrape_a0 : list Done.label :=
  serving_a0 ++ [ Done.Act 0 (Done.Handle Done.HServe) ].

(** The configuration a schedule leads to from the start of the process. *)
Definition after (ls : list Ctx.label) : Ctx.server * list Ctx.event :=
  default (boot, []) (Ctx.exec ls (boot, [])).

Definition after0 (ls : list Done.label) : Done.server * list Done.event :=
  default (boot0, []) (Done.exec ls (boot0, [])).

(** The deadline passes while ["a"] is on [metricsChan], ["b"] is being
    probed and the other workers wait. *)
Definition deadline_hits : list Ctx.label :=
  Ctx.Scrape (Some [Scanned "a"; Scanned "b"]) :: probe_one 0 (answers 200)
  ++ [ Ctx.Act 0 (Ctx.Feed Ctx.FScan); Ctx.Act 0 (Ctx.Feed Ctx.FSend);
       Ctx.Act 0 (Ctx.Work 1 Ctx.WRecv); Ctx.Act 0 Ctx.Deadline ].

(** The same moment in the done-channel revision: the handler still selects. *)
Definition still_selecting : list Done.label :=
  [ Done.Scrape; Done.Act 0 (Done.Query (Some [Scanned "a"; Scanned "b"]));
    Done.Act 0 (Done.Feed Done.FScan); Done.Act 0 (Done.Feed Done.FSend);
    Done.Act 0 (Done.Work 0 Done.WRecv);
    Done.Act 0 (Done.Work 0 (Done.WProbe (answers 200)));
    Done.Act 0 (Done.Work 0 Done.WSend);
    Done.Act 0 (Done.Feed Done.FScan); Done.Act 0 (Done.Feed Done.FSend);
    Done.Act 0 (Done.Work 1 Done.WRecv) ].

(** The query of the only request fails; the handler goes on to serve. *)
Definition query_fails0 : list Done.label :=
  [ Done.Scrape; Done.Act 0 (Done.Query None);
    Done.Act 0 (Done.Handle Done.HDone);
    Done.Act 0 (Done.Handle Done.HDefault);
    Done.Act 0 (Done.Handle Done.HServe) ].

(** The timer fires while the workers of the run are still at work. *)
Definition timer_fires0 : list Done.label :=
  still_selecting ++ [ Done.Act 0 (Done.Handle Done.HTimeout);
                       Done.Act 0 (Done.Handle Done.HRecv) ].

(** A run whose worker 0 waits at its select while the queue is closed and
    drained. *)
Definition queue_closed : Ctx.run :=
  Ctx.Run [Scanned "a"] [] Ctx.Returned (close (make 100))
    (replicate 20 Ctx.AtSelect) false Ctx.Waiting.

Definition queue_closed0 : Done.run :=
  Done.Run [Scanned "a"] [] Done.Joining Done.Returned (close (make 100))
    (replicate 20 Done.AtRange) Done.Selecting.

(** Request 0 times out with its result on [metricsChan]. *)
Definition timed_out_run : list Ctx.label :=
  Ctx.Scrape (Some [Scanned "a"]) :: probe_one 0 (answers 200)
  ++ [Ctx.Act 0 Ctx.Deadline] ++ each_worker 0 Ctx.WDone
  ++ [ Ctx.Act 0 (Ctx.Handle Ctx.HJoin); Ctx.Act 0 (Ctx.Handle Ctx.HDone);
       Ctx.Act 0 (Ctx.Handle Ctx.HServe) ].

(** ... and request 1, over an empty store, runs afterwards. *)
Definition stale_result : list Ctx.label :=
  timed_out_run
  ++ Ctx.Scrape (Some []) :: wind_down 1 ++ drain_one 1 ++ reply 1.

(** Request 1 over the store [["b"]] from its query to its answer, with the
    result of request 0 still on [metricsChan], while request 2 arrives and
    collects ["c"] alongside without draining. *)
Definition beside_b : list Ctx.label :=
  Ctx.Scrape (Some [Scanned "c"]) :: probe_one 1 (answers 404)
  ++ probe_one 2 (answers 200) ++ wind_down 1
  ++ drain_one 1 ++ drain_one 1 ++ drain_one 1 ++ reply 1.

(** Two scrapes arrive one after the other. *)
Definition two_requests : list Ctx.label :=
  [ Ctx.Scrape (Some [Scanned "a"]); Ctx.Scrape (Some [Scanned "b"]) ].

(** The store lists ["a"] twice; workers 0 and 1 probe it. *)
Definition listed_twice : list Ctx.label :=
  [ Ctx.Scrape (Some [Scanned "a"; Scanned "a"]);
    Ctx.Act 0 (Ctx.Feed Ctx.FScan); Ctx.Act 0 (Ctx.Feed Ctx.FSend);
    Ctx.Act 0 (Ctx.Feed Ctx.FScan); Ctx.Act 0 (Ctx.Feed Ctx.FSend);
    Ctx.Act 0 (Ctx.Work 0 Ctx.WRecv); Ctx.Act 0 (Ctx.Work 1 Ctx.WRecv);
    Ctx.Act 0 (Ctx.Work 0 (Ctx.WProbe (answers 200)));
    Ctx.Act 0 (Ctx.Work 1 (Ctx.WProbe (answers 503)));
    Ctx.Act 0 (Ctx.Work 0 Ctx.WSend); Ctx.Act 0 (Ctx.Work 1 Ctx.WSend) ]
  ++ wind_down 0 ++ drain_one 0 ++ drain_one 0 ++ reply 0.

(** Request 1, over an empty store, is in its drain pass while request 0
    collects: it receives the result for ["a"], and request 0 completes
    before request 1 applies it. *)
Definition overlapping : list Ctx.label :=
  [ Ctx.Scrape (Some [Scanned "a"]); Ctx.Scrape (Some []) ]
  ++ wind_down 1
  ++ probe_one 0 (answers 200)
  ++ [ Ctx.Act 1 (Ctx.Handle Ctx.HRecv) ]
  ++ wind_down 0 ++ reply 0.

(** ** Events of one request, and what is counted in them *)

(** The events of request [r], in the order they happened. *)
Definition history (r : nat) (tr : list Ctx.event) : list Ctx.obs :=
  (filter (λ e, e.1 = r) tr).*2.

Definition history0 (r : nat) (tr : list Done.event) : list Done.obs :=
  (filter (λ e, e.1 = r) tr).*2.

Definition tally (w : Ctx.obs → nat) (r : nat) (tr : list Ctx.event) : nat :=
  sum_list_with w (history r tr).

Definition tally0 (w : Done.obs → nat) (r : nat) (tr : list Done.event) : nat :=
  sum_list_with w (history0 r tr).

Definition is_probed (o : Ctx.obs) : nat :=
  match o with Ctx.Probed _ _ => 1 | _ => 0 end.

Definition is_sent (o : Ctx.obs) : nat :=
  match o with Ctx.Sent _ _ => 1 | _ => 0 end.

Definition is_dropped (o : Ctx.obs) : nat :=
  match o with Ctx.Dropped _ _ => 1 | _ => 0 end.

(** Workers holding a result they have not sent yet. *)
Definition emitting (w : Ctx.worker) : nat :=
  match w with Ctx.Emitting _ => 1 | _ => 0 end.

Definition holding (ρ : Ctx.run) : nat :=
  sum_list_with emitting (Ctx.workers ρ).

Definition is_probed0 (o : Done.obs) : nat :=
  match o with Done.Probed _ _ => 1 | _ => 0 end.

Definition is_sent0 (o : Done.obs) : nat :=
  match o with Done.Sent _ _ => 1 | _ => 0 end.

Definition emitting0 (w : Done.worker) : nat :=
  match w with Done.Emitting _ => 1 | _ => 0 end.

Definition holding0 (ρ : Done.run) : nat :=
  sum_list_with emitting0 (Done.workers ρ).

(** The URL queue of a run within its capacity. *)
Definition within (ρ : Ctx.run) : Prop :=
  length (buf (Ctx.urlChan ρ)) ≤ 100 ∧ cap (Ctx.urlChan ρ) = 100.

Definition within0 (ρ : Done.run) : Prop :=
  length (buf (Done.urlChan ρ)) ≤ 100 ∧ cap (Done.urlChan ρ) = 100.

(** The updates a drain pass received, applied, and holds between the two. *)
Definition drained (h : list Ctx.obs) : list metricUpdate :=
  omap (λ o, match o with Ctx.Drained m => Some m | _ => None end) h.

Definition applied (h : list Ctx.obs) : list metricUpdate :=
  omap (λ o, match o with Ctx.Applied m => Some m | _ => None end) h.

Definition in_hand (h : Ctx.handler) : list metricUpdate :=
  match h with Ctx.Applying m | Ctx.Setting m => [m] | _ => [] end.

Definition drained0 (h : list Done.obs) : list metricUpdate :=
  omap (λ o, match o with Done.Drained m => Some m | _ => None end) h.

Definition applied0 (h : list Done.obs) : list metricUpdate :=
  omap (λ o, match o with Done.Applied m => Some m | _ => None end) h.

Definition in_hand0 (h : Done.handler) : list metricUpdate :=
  match h with Done.Applying m | Done.Setting m => [m] | _ => [] end.

(** The responses among the events of a request. *)
Definition responses (h : list Ctx.obs) : list response :=
  omap (λ o, match o with Ctx.Responded x => Some x | _ => None end) h.

Definition responses0 (h : list Done.obs) : list response :=
  omap (λ o, match o with Done.Responded x => Some x | _ => None end) h.

(** A cancelled run drops the result worker 1 holds for ["b"]. *)
Definition drops_b : list Ctx.label :=
  deadline_hits ++ [ Ctx.Act 0 (Ctx.Work 1 (Ctx.WProbe (answers 404)));
                     Ctx.Act 0 (Ctx.Work 1 Ctx.WDone) ].

(** The timer of request 0 fires, the run goes on and is joined. *)
Definition joined_late0 : list Done.label :=
  [ Done.Scrape; Done.Act 0 (Done.Query (Some []));
    Done.Act 0 (Done.Handle Done.HTimeout); Done.Act 0 (Done.Feed Done.FScan) ]
  ++ each_worker0 0 Done.WRecv ++ [ Done.Act 0 Done.Join ].

(** What the events of a request and its handler have in common. *)
Definition reply_recorded (h : list Ctx.obs) (ρ : Ctx.run) : Prop :=
  match Ctx.hdl ρ with
  | Ctx.Replied x =>
      (∃ h', h = h' ++ [Ctx.Responded x] ∧ responses h' = []) ∧
      Ctx.ctxDone ρ = true
  | _ => responses h = []
  end.

(** The same of the done-channel revision's two log lines. *)
Definition one_outcome (h : list Done.obs) (ρ : Done.run) : Prop :=
  (Done.hdl ρ = Done.Selecting →
     (Done.TimedOut ∉ h) ∧ (Done.Completed ∉ h) ∧
     Done.coll ρ ≠ Done.Finished) ∧
  (Done.TimedOut ∈ h → Done.coll ρ ≠ Done.Finished ∧ (Done.Completed ∉ h)).

(** The updates sent on [metricsChan]. *)
Definition sent (h : list Ctx.obs) : list metricUpdate :=
  omap (λ o, match o with Ctx.Sent _ m => Some m | _ => None end) h.

Definition sent0 (h : list Done.obs) : list metricUpdate :=
  omap (λ o, match o with Done.Sent _ m => Some m | _ => None end) h.

(** Every update on its way to the gauge store satisfies [Q], and every
    entry of the store is [stored]. *)
Definition run_carries (Q : string → Z → Prop) (ρ : Ctx.run) : Prop :=
  (∀ m, Ctx.Emitting m ∈ Ctx.workers ρ → Q (url m) (status m)) ∧
  (∀ m, Ctx.hdl ρ = Ctx.Applying m ∨ Ctx.hdl ρ = Ctx.Setting m →
        Q (url m) (status m)).

Definition carries (Q : string → Z → Prop) (s : Ctx.server) : Prop :=
  Forall (run_carries Q) (Ctx.requests s) ∧
  Forall (λ m, Q (url m) (status m)) (buf (Ctx.metricsChan s)) ∧
  (∀ u v, Ctx.urlStatus s !! u = Some v → stored Q u v).



(** ** Rows on their way to a probe *)

(** Rows weighed by [k] per URL: a row that fails to scan counts for
    nothing. *)
Definition row_weight (k : string → nat) (x : row) : nat :=
  match x with Scanned u => k u | ScanError => 0 end.

(** The rows that scan. *)
Definition scanned (rs : list row) : nat := sum_list_with (row_weight (λ _, 1)) rs.

(** The URLs of a run not probed yet: in the rows still to be iterated, in
    the hand of the feeder, in the URL queue, or in a worker inside
    [checkURL]. *)
Definition awaiting (k : string → nat) (ρ : Ctx.run) : nat :=
  sum_list_with (row_weight k) (Ctx.rows ρ)
  + match Ctx.feed ρ with Ctx.Offering u => k u | _ => 0 end
  + sum_list_with k (buf (Ctx.urlChan ρ))
  + sum_list_with (λ w, match w with Ctx.Checking u => k u | _ => 0 end)
      (Ctx.workers ρ).

Definition probed_weight (k : string → nat) (o : Ctx.obs) : nat :=
  match o with Ctx.Probed _ m => k (url m) | _ => 0 end.

Definition awaiting0 (k : string → nat) (ρ : Done.run) : nat :=
  sum_list_with (row_weight k) (Done.rows ρ)
  + match Done.feed ρ with Done.Offering u => k u | _ => 0 end
  + sum_list_with k (buf (Done.urlChan ρ))
  + sum_list_with (λ w, match w with Done.Checking u => k u | _ => 0 end)
      (Done.workers ρ).

Definition probed_weight0 (k : string → nat) (o : Done.obs) : nat :=
  match o with Done.Probed _ m => k (url m) | _ => 0 end.

(** The ProbeResults request [r] has produced for [u]. *)
Definition probes0 (r : nat) (u : string) (tr : list Done.event) : nat :=
  tally0 (probed_weight0 (hit u)) r tr.

(** How the feeder, the URL queue and the workers of a run stand to each
    other as long as the run is not cancelled. *)
Definition orderly (ρ : Ctx.run) : Prop :=
  (Ctx.feed ρ = Ctx.Returned → Ctx.rows ρ = []) ∧
  (closed (Ctx.urlChan ρ) = true → Ctx.feed ρ = Ctx.Returned) ∧
  (Ctx.Exited ∈ Ctx.workers ρ →
     closed (Ctx.urlChan ρ) = true ∧ buf (Ctx.urlChan ρ) = []) ∧
  (Ctx.workers ρ = [] →
     Ctx.feed ρ = Ctx.Returned ∧ buf (Ctx.urlChan ρ) = []).

Definition orderly0 (ρ : Done.run) : Prop :=
  (Done.feed ρ = Done.Returned → Done.rows ρ = []) ∧
  (closed (Done.urlChan ρ) = true → Done.feed ρ = Done.Returned) ∧
  (Done.Exited ∈ Done.workers ρ →
     closed (Done.urlChan ρ) = true ∧ buf (Done.urlChan ρ) = []) ∧
  (Done.workers ρ = [] →
     Done.feed ρ = Done.Returned ∧ buf (Done.urlChan ρ) = []) ∧
  (Done.coll ρ = Done.Querying → Done.workers ρ = [] ∧ Done.query ρ = []).

(** A run whose context became done only by the handler's deferred
    [cancel]. *)
Definition uncancelled (ρ : Ctx.run) : Prop :=
  Ctx.ctxDone ρ = false ∨ ∃ x, Ctx.hdl ρ = Ctx.Replied x.

(** The results of a run and [b] more on their way to [metricsChan] while
    nothing is received from it: a run not yet joined has them all ahead of it
    or on the channel; a run that was joined has found room for them. *)
Definition fits (b : nat) (ρ : Ctx.run) (mc : chan metricUpdate) : Prop :=
  (Ctx.hdl ρ = Ctx.Waiting ∧ Ctx.ctxDone ρ = false ∧ orderly ρ ∧
   scanned (Ctx.query ρ) + b
     ≤ awaiting (λ _, 1) ρ + holding ρ + length (buf mc)) ∨
  (Ctx.hdl ρ ≠ Ctx.Waiting ∧ scanned (Ctx.query ρ) + b ≤ 1000).

(** The events of a run that was not cancelled account for every row of its
    query. *)
Definition accounted (k : string → nat) (h : list Ctx.obs) (ρ : Ctx.run) : Prop :=
  uncancelled ρ ∧ joined ρ ∧ orderly ρ ∧
  sum_list_with (probed_weight k) h + awaiting k ρ =
    sum_list_with (row_weight k) (Ctx.query ρ).

Definition accounted0 (k : string → nat) (h : list Done.obs) (ρ : Done.run) : Prop :=
  joined0 ρ ∧ orderly0 ρ ∧
  sum_list_with (probed_weight0 k) h + awaiting0 k ρ =
    sum_list_with (row_weight k) (Done.query ρ).

(** The flags each revision defines. *)
Definition defined : list string := ["db"; "port"; "user-agent"].

Definition defined0 : list string := ["db"; "port"].

(** The store lists ["a"] and ["b"]; request 0 probes both and is joined. *)
Definition joined_ab : list Ctx.label :=
  Ctx.Scrape (Some [Scanned "a"; Scanned "b"]) :: probe_one 0 (answers 200)
  ++ probe_one 0 (answers 404) ++ wind_down 0.

(** A schedule in which only request [r] moves, and its context is not
    cancelled: other scrapes may arrive, none of their goroutines runs. *)
Definition lone (r : nat) (l : Ctx.label) : Prop :=
  match l with
  | Ctx.Scrape _ => True
  | Ctx.Act r' a => r' = r ∧ a ≠ Ctx.Deadline
  end.

Definition lone0 (r : nat) (l : Done.label) : Prop :=
  match l with
  | Done.Scrape => True
  | Done.Act r' _ => r' = r
  end.

(** A store of 1001 URLs. *)
Definition big_store : list row := replicate 1001 (Scanned "a").

(** Request 0 alone over the big store, up to the start of its workers. *)
Definition big_lone : list Ctx.label := [ Ctx.Scrape (Some big_store) ].

Definition big_lone0 : list Done.label :=
  [ Done.Scrape; Done.Act 0 (Done.Query (Some big_store)) ].

(** * Proofs *)

(** ** Stepping *)

Lemma ctx_exec_app ls1 ls2 c :
  Ctx.exec (ls1 ++ ls2) c =
  match Ctx.exec ls1 c with Some c' => Ctx.exec ls2 c' | None => None end.
Proof.
  revert c. induction ls1 as [|l ls1 IH]; intros c; simpl; [done|].
  destruct (Ctx.step l c.1) as [[s' es]|]; [apply IH|done].
Qed.

Lemma done_exec_app ls1 ls2 c :
  Done.exec (ls1 ++ ls2) c =
  match Done.exec ls1 c with Some c' => Done.exec ls2 c' | None => None end.
Proof.
  revert c. induction ls1 as [|l ls1 IH]; intros c; simpl; [done|].
  destruct (Done.step l c.1) as [[s' es]|]; [apply IH|done].
Qed.

(** An invariant of configurations kept by every step holds along [exec]. *)
Lemma ctx_exec_inv (P : Ctx.server * list Ctx.event → Prop) :
  (∀ l c s' es, P c → Ctx.step l c.1 = Some (s', es) → P (s', c.2 ++ es)) →
  ∀ ls c c', P c → Ctx.exec ls c = Some c' → P c'.
Proof.
  intros Hstep ls. induction ls as [|l ls IH]; intros c c' Hc Hex; simpl in Hex.
  - by simplify_eq.
  - destruct (Ctx.step l c.1) as [[s' es]|] eqn:Hs; [|done].
    eapply IH; [|done]. by eapply Hstep.
Qed.

Lemma done_exec_inv (P : Done.server * list Done.event → Prop) :
  (∀ l c s' es, P c → Done.step l c.1 = Some (s', es) → P (s', c.2 ++ es)) →
  ∀ ls c c', P c → Done.exec ls c = Some c' → P c'.
Proof.
  intros Hstep ls. induction ls as [|l ls IH]; intros c c' Hc Hex; simpl in Hex.
  - by simplify_eq.
  - destruct (Done.step l c.1) as [[s' es]|] eqn:Hs; [|done].
    eapply IH; [|done]. by eapply Hstep.
Qed.

Lemma ctx_step_act r a s s' es :
  Ctx.step (Ctx.Act r a) s = Some (s', es) →
  ∃ ρ ρ' mc g os,
    Ctx.requests s !! r = Some ρ ∧
    Ctx.run_step (Ctx.userAgent s) a ρ (Ctx.metricsChan s) (Ctx.urlStatus s)
      = Some (ρ', mc, g, os) ∧
    s' = Ctx.Server (Ctx.userAgent s) mc g (<[r := ρ']> (Ctx.requests s)) ∧
    es = pair r <$> os.
Proof.
  simpl. intros H.
  destruct (Ctx.requests s !! r) as [ρ|] eqn:Hr; [|done].
  destruct (Ctx.run_step _ _ _ _ _) as [[[[ρ' mc] g] os]|] eqn:Hs; [|done].
  simplify_eq. by exists ρ, ρ', mc, g, os.
Qed.

Lemma done_step_act r a s s' es :
  Done.step (Done.Act r a) s = Some (s', es) →
  ∃ ρ ρ' mc g os,
    Done.requests s !! r = Some ρ ∧
    Done.run_step a ρ (Done.metricsChan s) (Done.urlStatus s)
      = Some (ρ', mc, g, os) ∧
    s' = Done.Server mc g (<[r := ρ']> (Done.requests s)) ∧
    es = pair r <$> os.
Proof.
  simpl. intros H.
  destruct (Done.requests s !! r) as [ρ|] eqn:Hr; [|done].
  destruct (Done.run_step _ _ _ _) as [[[[ρ' mc] g] os]|] eqn:Hs; [|done].
  simplify_eq. by exists ρ, ρ', mc, g, os.
Qed.

(** A property of single runs, true of fresh requests and kept by the steps
    of a run, holds of every request of every reachable state. *)
Lemma ctx_requests_inv (P : Ctx.run → Prop) :
  (∀ q, P (Ctx.metricsHandler q).1) →
  (∀ ua a ρ mc g ρ' mc' g' os,
     P ρ → Ctx.run_step ua a ρ mc g = Some (ρ', mc', g', os) → P ρ') →
  ∀ ls c c', Forall P (Ctx.requests c.1) → Ctx.exec ls c = Some c' →
    Forall P (Ctx.requests c'.1).
Proof.
  intros Hnew Hkeep.
  apply (ctx_exec_inv (λ c, Forall P (Ctx.requests c.1))).
  intros [|r a] [s tr] s' es HP Hs; simpl in *.
  - simplify_eq. simpl. apply Forall_app. split; [done|]. by constructor.
  - apply ctx_step_act in Hs as (ρ & ρ' & mc & g & os & Hr & Hrun & -> & _).
    simpl. apply Forall_insert; [done|].
    eapply Hkeep; [|done]. eapply Forall_lookup_1; done.
Qed.

Lemma done_requests_inv (P : Done.run → Prop) :
  P Done.metricsHandler →
  (∀ a ρ mc g ρ' mc' g' os,
     P ρ → Done.run_step a ρ mc g = Some (ρ', mc', g', os) → P ρ') →
  ∀ ls c c', Forall P (Done.requests c.1) → Done.exec ls c = Some c' →
    Forall P (Done.requests c'.1).
Proof.
  intros Hnew Hkeep.
  apply (done_exec_inv (λ c, Forall P (Done.requests c.1))).
  intros [|r a] [s tr] s' es HP Hs; simpl in *.
  - simplify_eq. simpl. apply Forall_app. split; [done|]. by constructor.
  - apply done_step_act in Hs as (ρ & ρ' & mc & g & os & Hr & Hrun & -> & _).
    simpl. apply Forall_insert; [done|].
    eapply Hkeep; [|done]. eapply Forall_lookup_1; done.
Qed.

(** Case analysis of one step of a run. *)
Ltac ctx_cases H :=
  unfold Ctx.run_step, Ctx.urlChecker, Ctx.feeder_step, Ctx.updateMetrics,
    send, recv in H;
  simpl in H; repeat case_match; simplify_eq; simpl in *.

Ltac done_cases H :=
  unfold Done.run_step, Done.collectMetrics, Done.urlChecker, Done.feeder_step,
    Done.updateMetrics, send, recv in H;
  simpl in H; repeat case_match; simplify_eq; simpl in *.

(** Membership in a list that is written out. *)
Ltac in_list H :=
  repeat match type of H with
         | _ ∈ [] => by apply elem_of_nil in H
         | _ ∈ _ :: _ => apply elem_of_cons in H as [?|H]; simplify_eq
         end.

(** ** The pool never grows *)

Lemma ctx_pool_size ua a ρ mc g ρ' mc' g' os :
  Ctx.run_step ua a ρ mc g = Some (ρ', mc', g', os) →
  length (Ctx.workers ρ') = length (Ctx.workers ρ).
Proof.
  intros H. destruct ρ; ctx_cases H; rewrite ?length_insert; done.
Qed.

Lemma done_pool_size a ρ mc g ρ' mc' g' os :
  Done.run_step a ρ mc g = Some (ρ', mc', g', os) →
  length (Done.workers ρ) ≤ workerCount →
  length (Done.workers ρ') ≤ workerCount.
Proof.
  intros H Hle. destruct ρ; done_cases H;
    rewrite ?length_insert, ?length_replicate; try done; lia.
Qed.

Lemma ctx_main_start args ok s0 :
  Ctx.main args ok = Some s0 →
  Ctx.requests s0 = [] ∧ Ctx.urlStatus s0 = ∅ ∧ Ctx.metricsChan s0 = make 1000.
Proof.
  unfold Ctx.main. intros H. repeat case_match; by simplify_eq.
Qed.

Lemma done_main_start args ok s0 :
  Done.main args ok = Some s0 → s0 = boot0.
Proof.
  unfold Done.main. intros H. repeat case_match; by simplify_eq.
Qed.

Lemma ctx_pool_bound ls s0 c :
  Ctx.requests s0 = [] → Ctx.exec ls (s0, []) = Some c →
  Forall (λ ρ, length (Ctx.workers ρ) ≤ workerCount) (Ctx.requests c.1).
Proof.
  intros H0 Hex.
  refine (ctx_requests_inv (λ ρ, length (Ctx.workers ρ) ≤ workerCount)
            _ _ ls (s0, []) c _ Hex); [| |simpl; rewrite H0; constructor].
  - intros [rs|]; simpl; unfold workerCount; lia.
  - intros ua a ρ mc g ρ' mc' g' os Hle Hs.
    by rewrite (ctx_pool_size _ _ _ _ _ _ _ _ _ Hs).
Qed.

Lemma done_pool_bound ls c :
  Done.exec ls (boot0, []) = Some c →
  Forall (λ ρ, length (Done.workers ρ) ≤ workerCount) (Done.requests c.1).
Proof.
  intros Hex.
  refine (done_requests_inv (λ ρ, length (Done.workers ρ) ≤ workerCount)
            _ _ ls (boot0, []) c _ Hex); [| |constructor].
  - simpl. unfold workerCount. lia.
  - intros a ρ mc g ρ' mc' g' os Hle Hs. by eapply done_pool_size.
Qed.

Lemma in_flight_sum {A} (f : A → nat) (ws : A → nat) (l : list A) :
  (∀ x, f x ≤ ws x) → Forall (λ x, ws x ≤ workerCount) l →
  sum_list_with f l ≤ 20 * length l.
Proof.
  intros Hf Hall. induction Hall as [|x l Hx Hall IH]; simpl; [lia|].
  specialize (Hf x). unfold workerCount in Hx. lia.
Qed.

(** C7 (as the code has it): at every reachable state of either revision,
    whatever the stores returned, no run has more than the 20 workers of its
    pool inside [checkURL] at once; in the whole process the probes in flight
    are at most 20 for every request received so far. *)
Theorem in_flight_probes_bounded :
  (∀ args ok s0 ls c r ρ,
     Ctx.main args ok = Some s0 → Ctx.exec ls (s0, []) = Some c →
     Ctx.requests c.1 !! r = Some ρ → in_flight ρ ≤ 20) ∧
  (∀ args ok s0 ls c r ρ,
     Done.main args ok = Some s0 → Done.exec ls (s0, []) = Some c →
     Done.requests c.1 !! r = Some ρ → in_flight0 ρ ≤ 20) ∧
  (∀ args ok s0 ls c,
     Ctx.main args ok = Some s0 → Ctx.exec ls (s0, []) = Some c →
     all_in_flight c.1 ≤ 20 * length (Ctx.requests c.1)) ∧
  (∀ args ok s0 ls c,
     Done.main args ok = Some s0 → Done.exec ls (s0, []) = Some c →
     all_in_flight0 c.1 ≤ 20 * length (Done.requests c.1)).
Proof.
  split_and!.
  - intros args ok s0 ls c r ρ Hm Hex Hr.
    apply ctx_main_start in Hm as (H0 & _).
    pose proof (ctx_pool_bound _ _ _ H0 Hex) as HF.
    eapply Forall_lookup_1 in HF; [|done]. simpl in HF.
    unfold in_flight.
    etrans; [apply List.filter_length_le|done].
  - intros args ok s0 ls c r ρ Hm Hex Hr.
    apply done_main_start in Hm as ->.
    pose proof (done_pool_bound _ _ Hex) as HF.
    eapply Forall_lookup_1 in HF; [|done]. simpl in HF.
    unfold in_flight0.
    etrans; [apply List.filter_length_le|done].
  - intros args ok s0 ls c Hm Hex.
    apply ctx_main_start in Hm as (H0 & _).
    apply (in_flight_sum _ (λ ρ, length (Ctx.workers ρ)));
      [|by eapply ctx_pool_bound].
    intros ρ. apply List.filter_length_le.
  - intros args ok s0 ls c Hm Hex.
    apply done_main_start in Hm as ->.
    apply (in_flight_sum _ (λ ρ, length (Done.workers ρ)));
      [|by eapply done_pool_bound].
    intros ρ. apply List.filter_length_le.
Qed.

Lemma in_flight_probes_bounded_witness :
  (∃ c ρ, Ctx.exec two_probing (boot, []) = Some c ∧
          Ctx.requests c.1 !! 0 = Some ρ ∧ in_flight ρ = 2 ∧ in_flight ρ ≤ 20) ∧
  (∃ c ρ, Done.exec two_probing0 (boot0, []) = Some c ∧
          Done.requests c.1 !! 0 = Some ρ ∧ in_flight0 ρ = 2 ∧ in_flight0 ρ ≤ 20).
Proof.
  split.
  - eexists _, _. split; [vm_compute; reflexivity|].
    split; [reflexivity|]. split; [reflexivity|].
    eapply (proj1 in_flight_probes_bounded [] true boot two_probing _ 0);
      [reflexivity|vm_compute; reflexivity|reflexivity].
  - eexists _, _. split; [vm_compute; reflexivity|].
    split; [reflexivity|]. split; [reflexivity|].
    eapply (proj1 (proj2 in_flight_probes_bounded) [] true boot0 two_probing0
              _ 0);
      [reflexivity|vm_compute; reflexivity|reflexivity].
Defined.

(** C7 as stated fails: the pool belongs to the run, not to the process.
    Two overlapping scrapes of twenty URLs have forty probes in flight at
    once; in the done-channel revision also after the first request gave up at
    its timer and answered, since its workers go on. *)
Lemma forty_probes_in_flight :
  (∃ c, Ctx.exec forty_probing (boot, []) = Some c ∧
        all_in_flight c.1 = 40 ∧ ¬ all_in_flight c.1 ≤ 20) ∧
  (∃ c ρ resp,
     Done.exec forty_probing0 (boot0, []) = Some c ∧
     Done.requests c.1 !! 0 = Some ρ ∧ Done.hdl ρ = Done.Replied resp ∧
     in_flight0 ρ = 20 ∧
     all_in_flight0 c.1 = 40 ∧ ¬ all_in_flight0 c.1 ≤ 20).
Proof.
  split.
  - eexists. split; [vm_compute; reflexivity|]. split; [reflexivity|].
    vm_compute. lia.
  - eexists _, _, _. split; [vm_compute; reflexivity|].
    split; [reflexivity|]. split; [reflexivity|]. split; [reflexivity|].
    split; [reflexivity|]. vm_compute. lia.
Qed.

(** ** The probe *)

(** C2: in both revisions a probe that fails (the URL is rejected when the
    request is built, or the round trip ends in an error, which covers network
    errors, timeouts and missing responses) returns 0; [checkURL] has no error
    result at all, and the worker's step out of [checkURL] is enabled whatever
    the outcome, changes nothing but that worker, and leaves it at the ordinary
    send of the update. *)
Theorem probe_failure_is_sentinel :
  (∀ ua net u,
     NewRequest net u = false ∨
     Do net (MkClient 5) (Ctx.probe_request ua u) = None →
     Ctx.checkURL ua net u = 0%Z) ∧
  (∀ ua net ρ mc g i u,
     Ctx.workers ρ !! i = Some (Ctx.Checking u) →
     Ctx.run_step ua (Ctx.Work i (Ctx.WProbe net)) ρ mc g =
     Some (Ctx.Run (Ctx.query ρ) (Ctx.rows ρ) (Ctx.feed ρ) (Ctx.urlChan ρ)
             (<[i := Ctx.Emitting (MetricUpdate u (Ctx.checkURL ua net u))]>
                (Ctx.workers ρ))
             (Ctx.ctxDone ρ) (Ctx.hdl ρ),
           mc, g, [Ctx.Probed i (MetricUpdate u (Ctx.checkURL ua net u))])) ∧
  (∀ net u, Done.Get net (MkClient 5) u = None → Done.checkURL net u = 0%Z) ∧
  (∀ net ρ mc g i u,
     Done.workers ρ !! i = Some (Done.Checking u) →
     Done.run_step (Done.Work i (Done.WProbe net)) ρ mc g =
     Some (Done.Run (Done.query ρ) (Done.rows ρ) (Done.coll ρ) (Done.feed ρ)
             (Done.urlChan ρ)
             (<[i := Done.Emitting (MetricUpdate u (Done.checkURL net u))]>
                (Done.workers ρ))
             (Done.hdl ρ),
           mc, g, [Done.Probed i (MetricUpdate u (Done.checkURL net u))])).
Proof.
  repeat split.
  - intros ua net u [H|H]; unfold Ctx.checkURL, Ctx.probeTimeout.
    + by rewrite H.
    + rewrite H. by destruct (NewRequest net u).
  - intros ua net ρ mc g i u Hw. unfold Ctx.run_step. by rewrite Hw.
  - intros net u H. unfold Done.checkURL. by rewrite H.
  - intros net ρ mc g i u Hw. unfold Done.run_step. by rewrite Hw.
Qed.

Lemma probe_failure_is_sentinel_witness :
  Ctx.checkURL "ua" malformed "::" = 0%Z ∧
  Ctx.checkURL "ua" unreachable "http://192.0.2.1/" = 0%Z ∧
  (∃ ρ', Ctx.run_step "ua" (Ctx.Work 0 (Ctx.WProbe unreachable)) checking_a
           (make 1000) ∅ =
         Some (ρ', make 1000, ∅, [Ctx.Probed 0 (MetricUpdate "a" 0)]) ∧
         Ctx.workers ρ' !! 0 = Some (Ctx.Emitting (MetricUpdate "a" 0))) ∧
  Done.checkURL unreachable "http://192.0.2.1/" = 0%Z ∧
  (∃ ρ', Done.run_step (Done.Work 0 (Done.WProbe unreachable)) checking_a0
           (make 1000) ∅ =
         Some (ρ', make 1000, ∅, [Done.Probed 0 (MetricUpdate "a" 0)]) ∧
         Done.workers ρ' !! 0 = Some (Done.Emitting (MetricUpdate "a" 0))).
Proof.
  destruct probe_failure_is_sentinel as (H1 & H2 & H3 & H4).
  split; [apply H1; left; reflexivity|].
  split; [apply H1; right; reflexivity|].
  split.
  { eexists. split;
      [apply (H2 "ua" unreachable checking_a (make 1000) ∅ 0 "a"); reflexivity
      |reflexivity]. }
  split; [apply H3; reflexivity|].
  eexists. split;
    [apply (H4 unreachable checking_a0 (make 1000) ∅ 0 "a"); reflexivity
    |reflexivity].
Defined.

(** ** Process configuration *)

Lemma flag_value_cons name n v nvs d :
  flag_value name ((n, v) :: nvs) d =
  flag_value name nvs (if decide (n = name) then v else d).
Proof. done. Qed.

Lemma ctx_Set_flag_defined n v f : is_Some (Ctx.Set_flag n v f) ↔ n ∈ defined.
Proof.
  unfold Ctx.Set_flag, defined. split.
  - intros [f' H]. repeat case_decide; simplify_eq; by repeat constructor.
  - intros H. repeat case_decide; try by eexists. in_list H.
Qed.

Lemma ctx_Set_flag_value n v f f' :
  Ctx.Set_flag n v f = Some f' →
  f' = Ctx.Flags (if decide (n = "db") then v else Ctx.db f)
         (if decide (n = "port") then v else Ctx.port f)
         (if decide (n = "user-agent") then v else Ctx.user_agent f).
Proof.
  unfold Ctx.Set_flag. intros H. destruct f.
  repeat case_decide; by simplify_eq.
Qed.

(** [flag.Parse()] accepts a command line when its settings are well formed
    and name defined flags, and applies them in order. *)
Lemma ctx_Parse_settings n : ∀ args f f',
  length args ≤ n → Ctx.Parse args f = Some f' →
  ∃ nvs, settings args = Some nvs ∧ Forall (λ nv, nv.1 ∈ defined) nvs ∧
    f' = Ctx.Flags (flag_value "db" nvs (Ctx.db f))
           (flag_value "port" nvs (Ctx.port f))
           (flag_value "user-agent" nvs (Ctx.user_agent f)).
Proof.
  induction n as [|n IH]; intros [|s rest] f f' Hlen H; simpl in *; try lia;
    try (simplify_eq; exists []; by destruct f').
  destruct (parseOne s) as [| | |name [v|]];
    try (simplify_eq; exists []; by destruct f'); try done.
  - destruct (Ctx.Set_flag name v f) as [f1|] eqn:Hset; [|done].
    destruct (IH rest f1 f' ltac:(lia) H) as (nvs & Hs & Hall & ->).
    exists ((name, v) :: nvs). rewrite Hs. split; [done|]. split.
    + constructor; [|done]. simpl. apply (ctx_Set_flag_defined name v f).
      by eexists.
    + rewrite !flag_value_cons. by apply ctx_Set_flag_value in Hset as ->.
  - destruct rest as [|v rest']; [done|]. simpl in Hlen.
    destruct (Ctx.Set_flag name v f) as [f1|] eqn:Hset; [|done].
    destruct (IH rest' f1 f' ltac:(lia) H) as (nvs & Hs & Hall & ->).
    exists ((name, v) :: nvs). rewrite Hs. split; [done|]. split.
    + constructor; [|done]. simpl. apply (ctx_Set_flag_defined name v f).
      by eexists.
    + rewrite !flag_value_cons. by apply ctx_Set_flag_value in Hset as ->.
Qed.

Lemma ctx_main_flags args ok s0 :
  Ctx.main args ok = Some s0 →
  ok = true ∧
  ∃ nvs, settings args = Some nvs ∧ Forall (λ nv, nv.1 ∈ defined) nvs ∧
    Ctx.userAgent s0 =
      flag_value "user-agent" nvs "bookmarks-alive-exporter/1.0".
Proof.
  unfold Ctx.main. intros H.
  destruct (Ctx.Parse args Ctx.defaults) as [f|] eqn:Hp; [|done].
  destruct ok; [|done]. simplify_eq. split; [done|].
  destruct (ctx_Parse_settings _ _ _ _ (le_n _) Hp) as (nvs & Hs & Hall & ->).
  by exists nvs.
Qed.

Lemma ctx_userAgent_kept ls s0 c :
  Ctx.exec ls (s0, []) = Some c → Ctx.userAgent c.1 = Ctx.userAgent s0.
Proof.
  intros Hex.
  refine (ctx_exec_inv (λ c, Ctx.userAgent c.1 = Ctx.userAgent s0)
            _ ls (s0, []) c eq_refl Hex).
  intros [q|r a] [s tr] s' es HI Hs; simpl in HI.
  - simpl in Hs. by simplify_eq.
  - apply ctx_step_act in Hs as (ρ & ρ' & mc & g & os & _ & _ & -> & _). done.
Qed.

(** A worker's probe step: it was inside [checkURL], and the result it
    builds is what [checkURL] returns under the process's user agent. *)
Lemma ctx_probe_step r i net s s' es :
  Ctx.step (Ctx.Act r (Ctx.Work i (Ctx.WProbe net))) s = Some (s', es) →
  ∃ ρ u, Ctx.requests s !! r = Some ρ ∧
         Ctx.workers ρ !! i = Some (Ctx.Checking u) ∧
         es = [(r, Ctx.Probed i
                     (MetricUpdate u (Ctx.checkURL (Ctx.userAgent s) net u)))].
Proof.
  intros H.
  apply ctx_step_act in H as (ρ & ρ' & mc & g & os & Hr & Hrun & -> & ->).
  simpl in Hrun. destruct (Ctx.workers ρ !! i) as [w|] eqn:Hw; [|done].
  destruct w; simpl in Hrun; try done. simplify_eq. by exists ρ, u.
Qed.

(** A request whose query failed never moves again. *)
Lemma failed_inert ua a mc g : Ctx.run_step ua a Ctx.failed mc g = None.
Proof.
  destruct a as [|[]|i []|[]]; try done; simpl; by rewrite ?lookup_nil.
Qed.

Lemma ctx_pool_exact ls s0 c :
  Ctx.requests s0 = [] → Ctx.exec ls (s0, []) = Some c →
  Forall (λ ρ, ρ = Ctx.failed ∨ length (Ctx.workers ρ) = workerCount)
    (Ctx.requests c.1).
Proof.
  intros H0 Hex.
  refine (ctx_requests_inv
            (λ ρ, ρ = Ctx.failed ∨ length (Ctx.workers ρ) = workerCount)
            _ _ ls (s0, []) c _ Hex); [| |simpl; rewrite H0; constructor].
  - intros [rs|]; simpl; [by right|by left].
  - intros ua a ρ mc g ρ' mc' g' os [->|Hlen] Hs.
    + by rewrite failed_inert in Hs.
    + right. by rewrite (ctx_pool_size _ _ _ _ _ _ _ _ _ Hs).
Qed.

(** C8 (as the code has it): the identification header is a flag of the
    process, [-user-agent], default [bookmarks-alive-exporter/1.0]: the
    process keeps the value the command line set last, and every probe, at
    every reachable state, is [checkURL] under that value, a GET carrying it
    as [User-Agent] through a client with timeout 5.  The pool size and the
    probe timeout are not options: whatever the command line, every run that
    opened its query has exactly 20 workers. *)
Theorem only_user_agent_is_configurable args ok s0 :
  Ctx.main args ok = Some s0 →
  ∃ nvs ua,
    settings args = Some nvs ∧
    ua = flag_value "user-agent" nvs "bookmarks-alive-exporter/1.0" ∧
    Ctx.userAgent s0 = ua ∧
    (∀ net u, NewRequest net u = true →
       Ctx.checkURL ua net u =
       default 0%Z (Do net (MkClient 5)
                      (MkRequest "GET" u [("User-Agent", ua)]))) ∧
    (∀ ls c, Ctx.exec ls (s0, []) = Some c →
       Ctx.userAgent c.1 = ua ∧
       ∀ r i net s' es,
         Ctx.step (Ctx.Act r (Ctx.Work i (Ctx.WProbe net))) c.1
           = Some (s', es) →
         ∃ ρ u, Ctx.requests c.1 !! r = Some ρ ∧
                Ctx.workers ρ !! i = Some (Ctx.Checking u) ∧
                es = [(r, Ctx.Probed i
                            (MetricUpdate u (Ctx.checkURL ua net u)))]) ∧
    (∀ ls c r ρ, Ctx.exec ls (s0, []) = Some c →
       Ctx.requests c.1 !! r = Some ρ →
       ρ = Ctx.failed ∨ length (Ctx.workers ρ) = 20).
Proof.
  intros Hm.
  destruct (ctx_main_flags _ _ _ Hm) as (_ & nvs & Hs & _ & Hua).
  exists nvs, (Ctx.userAgent s0). split_and!; try done.
  - intros net u Hn. unfold Ctx.checkURL, Ctx.probe_request, Ctx.probeTimeout.
    rewrite Hn. by destruct (Do net _ _).
  - intros ls c Hex. pose proof (ctx_userAgent_kept _ _ _ Hex) as Hk.
    split; [done|]. intros r i net s' es Hst. rewrite <- Hk.
    by apply (ctx_probe_step _ _ _ _ s' es).
  - intros ls c r ρ Hex Hr.
    apply ctx_main_start in Hm as (H0 & _).
    pose proof (ctx_pool_exact _ _ _ H0 Hex) as HF.
    by eapply Forall_lookup_1 in HF.
Qed.

Lemma only_user_agent_is_configurable_witness :
  ∃ s0, Ctx.main ["-port"; "9100"; "--user-agent=Mozilla/5.0"] true = Some s0 ∧
        Ctx.userAgent s0 = "Mozilla/5.0".
Proof.
  eexists. split; [reflexivity|].
  destruct (only_user_agent_is_configurable
              ["-port"; "9100"; "--user-agent=Mozilla/5.0"] true _ eq_refl)
    as (nvs & ua & Hs & -> & Hua & _).
  vm_compute in Hs. simplify_eq. exact Hua.
Defined.

(** C8 as stated fails: a pool-size or timeout flag is not defined (the flag
    package rejects the command line), and no accepted command line changes
    the 20 workers of a run. *)
Lemma pool_and_timeout_not_configurable :
  Ctx.Parse ["-workers"; "50"] Ctx.defaults = None ∧
  Ctx.Parse ["-timeout=10"] Ctx.defaults = None ∧
  ¬ (∃ args ok s0 rs ρ,
       Ctx.main args ok = Some s0 ∧
       Ctx.step (Ctx.Scrape (Some rs)) s0 =
         Some (Ctx.Server (Ctx.userAgent s0) (Ctx.metricsChan s0)
                 (Ctx.urlStatus s0) [ρ], []) ∧
       length (Ctx.workers ρ) ≠ 20).
Proof.
  split; [reflexivity|]. split; [reflexivity|].
  intros (args & ok & s0 & rs & ρ & Hm & Hs & Hne).
  apply ctx_main_start in Hm as (H0 & _).
  apply Hne. simpl in Hs. rewrite H0 in Hs. by simplify_eq.
Qed.

(** ** The gauge store *)

Lemma elem_of_exposition name g u v :
  g !! u = Some v → Sample name u v ∈ exposition name g.
Proof.
  intros H. unfold exposition. apply list_elem_of_fmap.
  exists (u, v). split; [done|]. by apply elem_of_map_to_list.
Qed.

Lemma exposition_elem_of name g x :
  x ∈ exposition name g →
  metric x = name ∧ g !! label_url x = Some (value x).
Proof.
  unfold exposition. intros H. apply list_elem_of_fmap in H as ([u v] & -> & H).
  by apply elem_of_map_to_list in H.
Qed.

Lemma last_applied_app u tr es :
  last_applied u (tr ++ es) =
  match last_applied u es with Some v => Some v | None => last_applied u tr end.
Proof.
  induction tr as [|e tr IH]; simpl.
  - by destruct (last_applied u es).
  - rewrite IH. by destruct (last_applied u es).
Qed.

Lemma last_applied0_app u tr es :
  last_applied0 u (tr ++ es) =
  match last_applied0 u es with Some v => Some v | None => last_applied0 u tr end.
Proof.
  induction tr as [|e tr IH]; simpl.
  - by destruct (last_applied0 u es).
  - rewrite IH. by destruct (last_applied0 u es).
Qed.

Lemma existsb_insert_same {A} (f : A → bool) (l : list A) i x y :
  l !! i = Some x → f y = f x → existsb f (<[i := y]> l) = existsb f l.
Proof.
  revert i. induction l as [|z l IH]; intros [|i] H Hf; simpl in *;
    simplify_eq; [by rewrite Hf|]. by rewrite (IH i).
Qed.

Lemma existsb_insert_true {A} (f : A → bool) (l : list A) i x y :
  l !! i = Some x → f y = true → existsb f (<[i := y]> l) = true.
Proof.
  revert i. induction l as [|z l IH]; intros [|i] H Hf; simpl in *;
    simplify_eq; [by rewrite Hf|]. rewrite (IH i) by done. apply orb_true_r.
Qed.

Lemma existsb_snoc {A} (f : A → bool) (l : list A) x :
  f x = false → existsb f (l ++ [x]) = existsb f l.
Proof.
  intros Hf. rewrite existsb_app. simpl. rewrite Hf. by rewrite !orb_false_r.
Qed.

(** A step of a run creates a series, sets one, or leaves the gauge store
    alone. *)
Lemma ctx_step_gauge ua a ρ mc g ρ' mc' g' os :
  Ctx.run_step ua a ρ mc g = Some (ρ', mc', g', os) →
  (∃ m, os = [Ctx.Applied m] ∧ g' = Set_gauge m g ∧
        Ctx.hdl ρ = Ctx.Setting m ∧ Ctx.hdl ρ' = Ctx.Draining) ∨
  (∃ m, os = [] ∧ g' = WithLabelValues (url m) g ∧
        Ctx.hdl ρ = Ctx.Applying m ∧ Ctx.hdl ρ' = Ctx.Setting m) ∨
  (g' = g ∧ (∀ r u, last_applied u (pair r <$> os) = None) ∧
   ∀ u, being_set u (Ctx.hdl ρ') = being_set u (Ctx.hdl ρ)).
Proof.
  intros H. destruct ρ; ctx_cases H; eauto 8.
Qed.

Lemma done_step_gauge a ρ mc g ρ' mc' g' os :
  Done.run_step a ρ mc g = Some (ρ', mc', g', os) →
  (∃ m, os = [Done.Applied m] ∧ g' = Set_gauge m g ∧
        Done.hdl ρ = Done.Setting m ∧ Done.hdl ρ' = Done.Draining) ∨
  (∃ m, os = [] ∧ g' = WithLabelValues (url m) g ∧
        Done.hdl ρ = Done.Applying m ∧ Done.hdl ρ' = Done.Setting m) ∨
  (g' = g ∧ (∀ r u, last_applied0 u (pair r <$> os) = None) ∧
   ∀ u, being_set0 u (Done.hdl ρ') = being_set0 u (Done.hdl ρ)).
Proof.
  intros H. destruct ρ; done_cases H; eauto 8.
Qed.

Lemma WithLabelValues_lookup u u' g :
  WithLabelValues u g !! u' =
  match g !! u' with
  | Some v => Some v
  | None => if decide (u = u') then Some 0%Z else None
  end.
Proof.
  unfold WithLabelValues. destruct (decide (u = u')) as [->|Hne].
  - destruct (g !! u') eqn:Hg; [by rewrite Hg|]. by rewrite lookup_insert_eq.
  - destruct (g !! u) eqn:Hg; [by destruct (g !! u')|].
    rewrite lookup_insert_ne by done. by destruct (g !! u').
Qed.

(** The gauge store is the replay of the applied updates, last writer wins,
    with 0 for the series created and not set yet. *)
Lemma ctx_gauge_step l s tr s' es :
  (∀ u, Ctx.urlStatus s !! u = held (last_applied u tr) (created u s)) →
  Ctx.step l s = Some (s', es) →
  ∀ u, Ctx.urlStatus s' !! u = held (last_applied u (tr ++ es)) (created u s').
Proof.
  intros HP Hs u. destruct l as [q|r a]; simpl in *.
  - simplify_eq. unfold created. simpl. rewrite last_applied_app, HP.
    rewrite existsb_snoc by by destruct q. by destruct q.
  - apply ctx_step_act in Hs as (ρ & ρ' & mc & g & os & Hr & Hrun & -> & ->).
    unfold created in *. simpl. rewrite last_applied_app.
    apply ctx_step_gauge in Hrun
      as [(m & -> & -> & Hh & Hh')|[(m & -> & -> & Hh & Hh')|(-> & Hno & Hb)]].
    + simpl. unfold Set_gauge. rewrite lookup_insert.
      destruct (decide (url m = u)) as [Hu|Hu]; [done|].
      rewrite HP. f_equal. symmetry. apply (existsb_insert_same _ _ _ ρ); [done|].
      rewrite Hh, Hh'. simpl. by rewrite bool_decide_eq_false_2.
    + simpl. rewrite WithLabelValues_lookup, HP.
      destruct (last_applied u tr) as [v|]; [done|]. simpl.
      destruct (decide (url m = u)) as [Hu|Hu].
      * rewrite (existsb_insert_true _ _ _ ρ); [|done|].
        -- by destruct (existsb _ _).
        -- rewrite Hh'. simpl. by rewrite bool_decide_eq_true_2.
      * rewrite (existsb_insert_same _ _ _ ρ); [by destruct (existsb _ _)|done|].
        rewrite Hh, Hh'. simpl. by rewrite bool_decide_eq_false_2.
    + rewrite Hno, HP. f_equal. symmetry.
      by apply (existsb_insert_same _ _ _ ρ).
Qed.

Lemma ctx_gauge_last ls s0 c :
  Ctx.urlStatus s0 = ∅ → Ctx.requests s0 = [] →
  Ctx.exec ls (s0, []) = Some c →
  ∀ u, Ctx.urlStatus c.1 !! u = held (last_applied u c.2) (created u c.1).
Proof.
  intros H0 Hr0 Hex.
  refine (ctx_exec_inv
            (λ c, ∀ u, Ctx.urlStatus c.1 !! u
                       = held (last_applied u c.2) (created u c.1))
            _ ls (s0, []) c _ Hex).
  - clear. intros l [s tr] s' es HP Hs. by eapply ctx_gauge_step.
  - intros u. unfold created. simpl. by rewrite H0, Hr0.
Qed.

Lemma done_gauge_step l s tr s' es :
  (∀ u, Done.urlStatus s !! u = held (last_applied0 u tr) (created0 u s)) →
  Done.step l s = Some (s', es) →
  ∀ u, Done.urlStatus s' !! u
       = held (last_applied0 u (tr ++ es)) (created0 u s').
Proof.
  intros HP Hs u. destruct l as [|r a]; simpl in *.
  - simplify_eq. unfold created0. simpl. rewrite app_nil_r, HP.
    by rewrite existsb_snoc.
  - apply done_step_act in Hs as (ρ & ρ' & mc & g & os & Hr & Hrun & -> & ->).
    unfold created0 in *. simpl. rewrite last_applied0_app.
    apply done_step_gauge in Hrun
      as [(m & -> & -> & Hh & Hh')|[(m & -> & -> & Hh & Hh')|(-> & Hno & Hb)]].
    + simpl. unfold Set_gauge. rewrite lookup_insert.
      destruct (decide (url m = u)) as [Hu|Hu]; [done|].
      rewrite HP. f_equal. symmetry. apply (existsb_insert_same _ _ _ ρ); [done|].
      rewrite Hh, Hh'. simpl. by rewrite bool_decide_eq_false_2.
    + simpl. rewrite WithLabelValues_lookup, HP.
      destruct (last_applied0 u tr) as [v|]; [done|]. simpl.
      destruct (decide (url m = u)) as [Hu|Hu].
      * rewrite (existsb_insert_true _ _ _ ρ); [|done|].
        -- by destruct (existsb _ _).
        -- rewrite Hh'. simpl. by rewrite bool_decide_eq_true_2.
      * rewrite (existsb_insert_same _ _ _ ρ); [by destruct (existsb _ _)|done|].
        rewrite Hh, Hh'. simpl. by rewrite bool_decide_eq_false_2.
    + rewrite Hno, HP. f_equal. symmetry.
      by apply (existsb_insert_same _ _ _ ρ).
Qed.

Lemma done_gauge_last ls c :
  Done.exec ls (boot0, []) = Some c →
  ∀ u, Done.urlStatus c.1 !! u = held (last_applied0 u c.2) (created0 u c.1).
Proof.
  intros Hex.
  refine (done_exec_inv
            (λ c, ∀ u, Done.urlStatus c.1 !! u
                       = held (last_applied0 u c.2) (created0 u c.1))
            _ ls (boot0, []) c _ Hex); [|done].
  clear. intros l [s tr] s' es HP Hs. by eapply done_gauge_step.
Qed.

(** The events of a configuration are never rewritten, only extended. *)
Lemma ctx_exec_extends ls c c' :
  Ctx.exec ls c = Some c' → ∃ tr', c'.2 = c.2 ++ tr'.
Proof.
  revert c. induction ls as [|l ls IH]; intros c H; simpl in H.
  - simplify_eq. exists []. by rewrite app_nil_r.
  - destruct (Ctx.step l c.1) as [[s1 es]|]; [|done].
    apply IH in H as [tr' ->]. simpl. exists (es ++ tr'). by rewrite app_assoc.
Qed.

Lemma done_exec_extends ls c c' :
  Done.exec ls c = Some c' → ∃ tr', c'.2 = c.2 ++ tr'.
Proof.
  revert c. induction ls as [|l ls IH]; intros c H; simpl in H.
  - simplify_eq. exists []. by rewrite app_nil_r.
  - destruct (Done.step l c.1) as [[s1 es]|]; [|done].
    apply IH in H as [tr' ->]. simpl. exists (es ++ tr'). by rewrite app_assoc.
Qed.

(** A metrics response lists the gauge store as it is when it is served. *)
Lemma ctx_response_body l s s' es r body :
  Ctx.step l s = Some (s', es) →
  (r, Ctx.Responded (MetricsText body)) ∈ es →
  body = exposition Ctx.metric_name (Ctx.urlStatus s) ∧
  Ctx.urlStatus s' = Ctx.urlStatus s.
Proof.
  destruct l as [q|r' a]; intros Hs Hin.
  - simpl in Hs. simplify_eq. destruct q; simpl in Hin; in_list Hin.
  - apply ctx_step_act in Hs as (ρ & ρ' & mc & g & os & Hr & Hrun & -> & ->).
    apply list_elem_of_fmap in Hin as (o & ? & Hin). simplify_eq.
    destruct ρ; ctx_cases Hrun; in_list Hin; done.
Qed.

Lemma done_response_body l s s' es r resp :
  Done.step l s = Some (s', es) →
  (r, Done.Responded resp) ∈ es →
  resp = MetricsText (exposition Done.metric_name (Done.urlStatus s)) ∧
  Done.urlStatus s' = Done.urlStatus s.
Proof.
  destruct l as [|r' a]; intros Hs Hin.
  - simpl in Hs. simplify_eq. in_list Hin.
  - apply done_step_act in Hs as (ρ & ρ' & mc & g & os & Hr & Hrun & -> & ->).
    apply list_elem_of_fmap in Hin as (o & ? & Hin). simplify_eq.
    destruct ρ; done_cases Hrun; in_list Hin; done.
Qed.

(** C10: in both revisions, once an update for a URL has been applied, the
    gauge store holds the URL with the value applied last, every metrics
    response served from then on has the line of that URL with that value,
    and the URL keeps its entry along every continuation, whatever the later
    queries return. *)
Theorem applied_series_stay :
  (∀ args ok s0 ls c u v,
     Ctx.main args ok = Some s0 → Ctx.exec ls (s0, []) = Some c →
     last_applied u c.2 = Some v →
     Ctx.urlStatus c.1 !! u = Some v ∧
     (∀ l s' es r body,
        Ctx.step l c.1 = Some (s', es) →
        (r, Ctx.Responded (MetricsText body)) ∈ es →
        Sample Ctx.metric_name u v ∈ body) ∧
     (∀ ls' c', Ctx.exec ls' c = Some c' →
        is_Some (Ctx.urlStatus c'.1 !! u))) ∧
  (∀ args ok s0 ls c u v,
     Done.main args ok = Some s0 → Done.exec ls (s0, []) = Some c →
     last_applied0 u c.2 = Some v →
     Done.urlStatus c.1 !! u = Some v ∧
     (∀ l s' es r body,
        Done.step l c.1 = Some (s', es) →
        (r, Done.Responded (MetricsText body)) ∈ es →
        Sample Done.metric_name u v ∈ body) ∧
     (∀ ls' c', Done.exec ls' c = Some c' →
        is_Some (Done.urlStatus c'.1 !! u))).
Proof.
  split.
  - intros args ok s0 ls c u v Hm Hex Hlast.
    apply ctx_main_start in Hm as (Hr0 & H0 & _).
    pose proof (ctx_gauge_last _ _ _ H0 Hr0 Hex u) as Hg. rewrite Hlast in Hg.
    split; [done|]. split.
    + intros l s' es r body Hs Hin.
      apply (ctx_response_body _ _ _ _ _ _ Hs) in Hin as [-> _].
      by apply elem_of_exposition.
    + intros ls' c' Hex'.
      assert (Ctx.exec (ls ++ ls') (s0, []) = Some c') as Hall
        by (by rewrite ctx_exec_app, Hex).
      rewrite (ctx_gauge_last _ _ _ H0 Hr0 Hall u).
      destruct (ctx_exec_extends _ _ _ Hex') as [tr' ->].
      rewrite last_applied_app, Hlast. by destruct (last_applied u tr').
  - intros args ok s0 ls c u v Hm Hex Hlast.
    apply done_main_start in Hm as ->.
    pose proof (done_gauge_last _ _ Hex u) as Hg. rewrite Hlast in Hg.
    split; [done|]. split.
    + intros l s' es r body Hs Hin.
      apply (done_response_body _ _ _ _ _ _ Hs) in Hin as [? _].
      simplify_eq. by apply elem_of_exposition.
    + intros ls' c' Hex'.
      assert (Done.exec (ls ++ ls') (boot0, []) = Some c') as Hall
        by (by rewrite done_exec_app, Hex).
      rewrite (done_gauge_last _ _ Hall u).
      destruct (done_exec_extends _ _ _ Hex') as [tr' ->].
      rewrite last_applied0_app, Hlast. by destruct (last_applied0 u tr').
Qed.

Lemma applied_series_stay_witness :
  (∃ c, Ctx.exec scrape_a (boot, []) = Some c ∧
        Ctx.urlStatus c.1 !! "a" = Some 200%Z) ∧
  (∃ c, Done.exec scrape_a0 (boot0, []) = Some c ∧
        Done.urlStatus c.1 !! "a" = Some 200%Z).
Proof.
  split.
  - eexists. split; [vm_compute; reflexivity|].
    refine (proj1 (proj1 applied_series_stay [] true boot scrape_a _
                     "a" 200%Z _ _ _));
      [reflexivity|vm_compute; reflexivity|vm_compute; reflexivity].
  - eexists. split; [vm_compute; reflexivity|].
    refine (proj1 (proj2 applied_series_stay [] true boot0 scrape_a0 _
                     "a" 200%Z _ _ _));
      [reflexivity|vm_compute; reflexivity|vm_compute; reflexivity].
Defined.

(** ** Steps of one run inside the process *)


Lemma done_run_exec_lift r acts : ∀ mc g reqs ρ os tr ρ' mc' g' os',
  reqs !! r = Some ρ →
  run_exec0 acts ρ mc g os = Some (ρ', mc', g', os') →
  ∃ os1, os' = os ++ os1 ∧
  Done.exec (Done.Act r <$> acts) (Done.Server mc g reqs, tr) =
    Some (Done.Server mc' g' (<[r := ρ']> reqs), tr ++ (pair r <$> os1)).
Proof.
  induction acts as [|a acts IH]; intros mc g reqs ρ os tr ρ' mc' g' os' Hr H;
    simpl in *.
  - simplify_eq. exists []. rewrite !app_nil_r, list_insert_id; done.
  - rewrite Hr.
    destruct (Done.run_step a ρ mc g) as [[[[ρ1 mc1] g1] os1]|]; [|done].
    eapply (IH _ _ (<[r := ρ1]> reqs) _ _ (tr ++ (pair r <$> os1))) in H
      as (os2 & -> & Hex).
    + exists (os1 ++ os2). split; [by rewrite app_assoc|].
      rewrite list_insert_insert_eq in Hex.
      rewrite fmap_app, app_assoc. exact Hex.
    + apply list_lookup_insert_eq. by eapply lookup_lt_Some.
Qed.


Lemma run_exec0_app acts1 : ∀ acts2 ρ mc g os,
  run_exec0 (acts1 ++ acts2) ρ mc g os =
  match run_exec0 acts1 ρ mc g os with
  | Some (ρ', mc', g', os') => run_exec0 acts2 ρ' mc' g' os'
  | None => None
  end.
Proof.
  induction acts1 as [|a acts1 IH]; intros acts2 ρ mc g os; simpl; [done|].
  destruct (Done.run_step a ρ mc g) as [[[[ρ1 mc1] g1] os1]|]; [apply IH|done].
Qed.

(** ** After the deadline *)






(** The done-channel handler, once at its drain pass, empties [metricsChan]
    and answers. *)
Lemma done_drain b : ∀ ρ n g os,
  Done.hdl ρ = Done.Draining →
  ∃ acts ρ' g' os',
    run_exec0 acts ρ (Chan b n false) g os = Some (ρ', Chan [] n false, g', os') ∧
    Done.hdl ρ' = Done.Replied (MetricsText (exposition Done.metric_name g')).
Proof.
  induction b as [|m b IH]; intros [q rs cl f uc ws h] n g os; simpl; intros ->.
  - exists [Done.Handle Done.HDefault; Done.Handle Done.HServe].
    eexists _, g, _. simpl. split; reflexivity.
  - destruct (IH (Done.Run q rs cl f uc ws Done.Draining) n
                (Set_gauge m (WithLabelValues (url m) g))
                (((os ++ [Done.Drained m]) ++ []) ++ [Done.Applied m]) eq_refl)
      as (acts & ρ' & g' & os' & H & Hh).
    exists (Done.Handle Done.HRecv :: Done.Handle Done.HLabel
            :: Done.Handle Done.HApply :: acts).
    exists ρ', g', os'. simpl. split; done.
Qed.


(** [metricsChan] is never closed and keeps its capacity. *)
Lemma ctx_chan_shape ua a ρ mc g ρ' mc' g' os :
  Ctx.run_step ua a ρ mc g = Some (ρ', mc', g', os) →
  cap mc' = cap mc ∧ closed mc' = closed mc.
Proof. intros H. destruct ρ, mc; ctx_cases H; done. Qed.

Lemma done_chan_shape a ρ mc g ρ' mc' g' os :
  Done.run_step a ρ mc g = Some (ρ', mc', g', os) →
  cap mc' = cap mc ∧ closed mc' = closed mc.
Proof. intros H. destruct ρ, mc; done_cases H; done. Qed.

Lemma done_chan_open ls c :
  Done.exec ls (boot0, []) = Some c → closed (Done.metricsChan c.1) = false.
Proof.
  intros Hex.
  refine (done_exec_inv (λ c, closed (Done.metricsChan c.1) = false)
            _ ls (boot0, []) c _ Hex); [|done].
  clear. intros [|r a] [s tr] s' es HP Hs; simpl in *.
  - by simplify_eq.
  - apply done_step_act in Hs as (ρ & ρ' & mc & g & os & Hr & Hrun & -> & ->).
    apply done_chan_shape in Hrun as [_ Hc]. simpl. by rewrite Hc.
Qed.

Lemma ctx_act_response r a s s' es r' resp :
  Ctx.step (Ctx.Act r a) s = Some (s', es) →
  (r', Ctx.Responded resp) ∈ es →
  resp = MetricsText (exposition Ctx.metric_name (Ctx.urlStatus s)).
Proof.
  intros Hs Hin.
  apply ctx_step_act in Hs as (ρ & ρ' & mc & g & os & Hr & Hrun & -> & ->).
  apply list_elem_of_fmap in Hin as (o & ? & Hin). simplify_eq.
  destruct ρ; ctx_cases Hrun; in_list Hin; done.
Qed.



(** ** A failing query *)

Lemma ctx_failed_stays ls : ∀ c c' r,
  Ctx.exec ls c = Some c' →
  Ctx.requests c.1 !! r = Some Ctx.failed →
  Ctx.requests c'.1 !! r = Some Ctx.failed ∧
  ∀ o, (r, o) ∈ c'.2 → (r, o) ∈ c.2.
Proof.
  induction ls as [|l ls IH]; intros [s tr] c' r Hex Hr; simpl in *.
  - by simplify_eq.
  - destruct (Ctx.step l s) as [[s1 es]|] eqn:Hs; [|done].
    destruct l as [q|r' a].
    + simpl in Hs. simplify_eq.
      destruct (IH _ _ r Hex) as [H1 H2].
      { simpl. by rewrite lookup_app_l by by eapply lookup_lt_Some. }
      split; [done|]. intros o Ho. apply H2 in Ho. simpl in Ho.
      apply elem_of_app in Ho as [Ho|Ho]; [done|].
      apply list_elem_of_fmap in Ho as (o' & ? & _). simplify_eq.
      apply lookup_lt_Some in Hr. lia.
    + apply ctx_step_act in Hs as (ρ & ρ' & mc & g & os & Hr' & Hrun & -> & ->).
      destruct (decide (r' = r)) as [->|Hne].
      { simplify_eq. by rewrite failed_inert in Hrun. }
      destruct (IH _ _ r Hex) as [H1 H2].
      { simpl. by rewrite list_lookup_insert_ne. }
      split; [done|]. intros o Ho. apply H2 in Ho. simpl in Ho.
      apply elem_of_app in Ho as [Ho|Ho]; [done|].
      apply list_elem_of_fmap in Ho as (o' & ? & _). by simplify_eq.
Qed.

Lemma ctx_error_only_from_query l s s' es r :
  Ctx.step l s = Some (s', es) →
  (r, Ctx.Responded InternalServerError) ∈ es → l = Ctx.Scrape None.
Proof.
  destruct l as [[rs|]|r' a]; intros Hs Hin; [|done|].
  - simpl in Hs. simplify_eq. simpl in Hin. in_list Hin.
  - by apply (ctx_act_response _ _ _ _ _ _ _ Hs) in Hin.
Qed.

Lemma done_query_fails ρ b n g os :
  Done.coll ρ = Done.Querying → Done.hdl ρ = Done.Selecting →
  ∃ acts ρ' g' os',
    run_exec0 (Done.Query None :: Done.Handle Done.HDone :: acts) ρ
      (Chan b n false) g os = Some (ρ', Chan [] n false, g', os') ∧
    Done.hdl ρ' = Done.Replied (MetricsText (exposition Done.metric_name g')).
Proof.
  destruct ρ as [q rs cl f uc ws h]. simpl. intros -> ->.
  destruct (done_drain b
              (Done.Run [] [] Done.Finished Done.Returned uc [] Done.Draining)
              n g ((os ++ [Done.QueryFailed]) ++ [Done.Completed]) eq_refl)
    as (acts & ρ' & g' & os' & H & Hh).
  exists acts, ρ', g', os'. simpl. split; done.
Qed.

(** C4 (as the code has it): in the context-based revision a scrape whose
    query fails is answered with the server error at once, the request never
    moves or emits anything again (so no metrics body is ever produced for
    it), and a server error has no other origin.  In the done-channel revision
    no scrape is ever answered with an error: after a failing query the
    collector signals [done] and the handler drains and serves the exposition
    of the gauge store. *)
Theorem query_failure_outcome :
  (∀ s, Ctx.step (Ctx.Scrape None) s =
        Some (Ctx.Server (Ctx.userAgent s) (Ctx.metricsChan s) (Ctx.urlStatus s)
                (Ctx.requests s ++ [Ctx.failed]),
              [(length (Ctx.requests s), Ctx.Responded InternalServerError)])) ∧
  (∀ ua a mc g, Ctx.run_step ua a Ctx.failed mc g = None) ∧
  (∀ ls c c' r,
     Ctx.exec ls c = Some c' → Ctx.requests c.1 !! r = Some Ctx.failed →
     Ctx.requests c'.1 !! r = Some Ctx.failed ∧
     ∀ o, (r, o) ∈ c'.2 → (r, o) ∈ c.2) ∧
  (∀ l s s' es r,
     Ctx.step l s = Some (s', es) →
     (r, Ctx.Responded InternalServerError) ∈ es → l = Ctx.Scrape None) ∧
  (∀ l s s' es r resp,
     Done.step l s = Some (s', es) → (r, Done.Responded resp) ∈ es →
     resp ≠ InternalServerError) ∧
  (∀ ls c r ρ,
     Done.exec ls (boot0, []) = Some c → Done.requests c.1 !! r = Some ρ →
     Done.coll ρ = Done.Querying → Done.hdl ρ = Done.Selecting →
     ∃ acts s' tr' ρ',
       Done.exec (Done.Act r <$>
                    (Done.Query None :: Done.Handle Done.HDone :: acts)) c
         = Some (s', tr') ∧
       Done.requests s' !! r = Some ρ' ∧
       Done.hdl ρ' = Done.Replied
         (MetricsText (exposition Done.metric_name (Done.urlStatus s')))).
Proof.
  split; [done|]. split; [apply failed_inert|].
  split; [intros ls c c' r; apply ctx_failed_stays|].
  split; [apply ctx_error_only_from_query|]. split.
  - intros l s s' es r resp Hs Hin.
    by apply (done_response_body _ _ _ _ _ _ Hs) in Hin as [-> _].
  - intros ls [[mc g reqs] tr] r ρ Hex Hr Hc Hh. simpl in Hr.
    pose proof (done_chan_open _ _ Hex) as Hopen. simpl in Hopen.
    destruct mc as [b n cl]. simpl in Hopen. subst cl.
    destruct (done_query_fails ρ b n g [] Hc Hh)
      as (acts & ρ' & g' & os' & H & Hh').
    destruct (done_run_exec_lift r _ _ g reqs ρ [] tr _ _ _ _ Hr H)
      as (os1 & _ & Hex').
    exists acts. eexists _, _, ρ'. split; [exact Hex'|]. simpl. split; [|done].
    apply list_lookup_insert_eq. by eapply lookup_lt_Some.
Qed.

Lemma query_failure_outcome_witness :
  (∀ o, (0, o) ∈ (after (Ctx.Scrape None :: scrape_a_as 1)).2 →
        (0, o) ∈ [(0, Ctx.Responded InternalServerError)]) ∧
  Ctx.Scrape None = Ctx.Scrape None ∧
  MetricsText [Sample "bookmark_alive_status" "a" 200] ≠ InternalServerError ∧
  (∃ acts s' tr' ρ',
     Done.exec (Done.Act 0 <$>
                  (Done.Query None :: Done.Handle Done.HDone :: acts))
       (after0 [Done.Scrape]) = Some (s', tr') ∧
     Done.requests s' !! 0 = Some ρ' ∧
     Done.hdl ρ' = Done.Replied
       (MetricsText (exposition Done.metric_name (Done.urlStatus s')))).
Proof.
  destruct query_failure_outcome as (_ & _ & H3 & H4 & H5 & H6).
  split; [|split; [|split]].
  - refine (proj2 (H3 (scrape_a_as 1) (after [Ctx.Scrape None])
                     (after (Ctx.Scrape None :: scrape_a_as 1)) 0 _ _)).
    + vm_compute. reflexivity.
    + reflexivity.
  - refine (H4 (Ctx.Scrape None) boot _ _ 0 _ _);
      [vm_compute; reflexivity|by left].
  - refine (H5 (Done.Act 0 (Done.Handle Done.HServe)) (after0 serving_a0).1
              _ _ 0 _ _ _); [vm_compute; reflexivity|by left].
  - refine (H6 [Done.Scrape] (after0 [Done.Scrape]) 0 _ _ _ _ _);
      [reflexivity|reflexivity|reflexivity|reflexivity].
Defined.

(** C4 as stated fails in the done-channel revision: the query of the only
    request fails and the request is answered with metrics text. *)
Lemma failed_query_served_anyway :
  ∃ s, Done.exec query_fails0 (boot0, []) =
       Some (s, [ (0, Done.QueryFailed); (0, Done.Completed);
                  (0, Done.Responded (MetricsText [])) ]).
Proof. eexists. vm_compute. reflexivity. Qed.

(** ** Workers leave, then the pool is joined *)

Lemma ctx_all_exited ws i w :
  forallb Ctx.is_exited ws = true → ws !! i = Some w → w = Ctx.Exited.
Proof.
  revert i. induction ws as [|w' ws IH]; intros i Hall Hw; [done|].
  simpl in Hall. apply andb_true_iff in Hall as [H1 H2].
  destruct i; simpl in Hw.
  - simplify_eq. by destruct w.
  - by eapply IH.
Qed.

Lemma done_all_exited ws i w :
  forallb Done.is_exited ws = true → ws !! i = Some w → w = Done.Exited.
Proof.
  revert i. induction ws as [|w' ws IH]; intros i Hall Hw; [done|].
  simpl in Hall. apply andb_true_iff in Hall as [H1 H2].
  destruct i; simpl in Hw.
  - simplify_eq. by destruct w.
  - by eapply IH.
Qed.

Lemma ctx_joined_step ua a ρ mc g ρ' mc' g' os :
  joined ρ → Ctx.run_step ua a ρ mc g = Some (ρ', mc', g', os) → joined ρ'.
Proof.
  unfold joined. intros HJ H. destruct ρ as [q rs f uc ws d h].
  destruct a as [|fa|i wa|ha]; simpl in *.
  - ctx_cases H; auto.
  - ctx_cases H; auto.
  - destruct (ws !! i) as [w|] eqn:Hw; [|done].
    destruct (Ctx.urlChecker ua d wa w uc mc) as [[[[w' uc'] mc1] os1]|] eqn:Hu;
      [|done].
    simplify_eq. simpl. intros Hh.
    rewrite (ctx_all_exited _ _ _ (HJ Hh) Hw) in Hu. by destruct wa.
  - ctx_cases H; auto; intros; by apply HJ.
Qed.

Lemma done_joined_step a ρ mc g ρ' mc' g' os :
  joined0 ρ → Done.run_step a ρ mc g = Some (ρ', mc', g', os) → joined0 ρ'.
Proof.
  unfold joined0. intros HJ H. destruct ρ as [q rs cl f uc ws h].
  destruct a as [qr|fa|i wa| |ha]; simpl in *.
  - done_cases H; auto. intros [|]; done.
  - done_cases H; auto.
  - destruct (ws !! i) as [w|] eqn:Hw; [|done].
    destruct (Done.urlChecker wa w uc mc) as [[[[w' uc'] mc1] os1]|] eqn:Hu;
      [|done].
    simplify_eq. simpl. intros Hh.
    rewrite (done_all_exited _ _ _ (HJ Hh) Hw) in Hu. by destruct wa.
  - done_cases H; auto.
  - done_cases H; auto; intros [|]; try done; apply HJ; auto.
Qed.

Lemma ctx_joined ls s0 c :
  Ctx.requests s0 = [] → Ctx.exec ls (s0, []) = Some c →
  Forall joined (Ctx.requests c.1).
Proof.
  intros H0 Hex.
  refine (ctx_requests_inv joined _ _ ls (s0, []) c _ Hex);
    [| |simpl; rewrite H0; constructor].
  - intros [rs|]; unfold joined; simpl; [by intros []|done].
  - intros ua a ρ mc g ρ' mc' g' os. apply ctx_joined_step.
Qed.

Lemma done_joined ls c :
  Done.exec ls (boot0, []) = Some c → Forall joined0 (Done.requests c.1).
Proof.
  intros Hex.
  refine (done_requests_inv joined0 _ _ ls (boot0, []) c _ Hex); [| |constructor].
  - by intros [|].
  - intros a ρ mc g ρ' mc' g' os. apply done_joined_step.
Qed.

Lemma ctx_exit_cause ua i a ρ mc g ρ' mc' g' os :
  Ctx.run_step ua (Ctx.Work i a) ρ mc g = Some (ρ', mc', g', os) →
  Ctx.workers ρ' !! i = Some Ctx.Exited →
  Ctx.ctxDone ρ = true ∨
  (closed (Ctx.urlChan ρ) = true ∧ buf (Ctx.urlChan ρ) = []).
Proof.
  intros H Hw. destruct ρ as [q rs f uc ws d h]. simpl in *.
  destruct (ws !! i) as [w|] eqn:Hi; [|done].
  pose proof (lookup_lt_Some _ _ _ Hi) as Hlt.
  destruct (Ctx.urlChecker ua d a w uc mc) as [[[[w' uc'] mc1] os1]|] eqn:Hu;
    [|done].
  simplify_eq. simpl in Hw. rewrite list_lookup_insert_eq in Hw by done.
  simplify_eq. destruct uc as [b n cl].
  unfold Ctx.urlChecker, send, recv in Hu. simpl in *.
  repeat case_match; simplify_eq; auto.
Qed.

Lemma done_exit_cause i a ρ mc g ρ' mc' g' os :
  Done.run_step (Done.Work i a) ρ mc g = Some (ρ', mc', g', os) →
  Done.workers ρ' !! i = Some Done.Exited →
  closed (Done.urlChan ρ) = true ∧ buf (Done.urlChan ρ) = [].
Proof.
  intros H Hw. destruct ρ as [q rs cl0 f uc ws h]. simpl in *.
  destruct (ws !! i) as [w|] eqn:Hi; [|done].
  pose proof (lookup_lt_Some _ _ _ Hi) as Hlt.
  destruct (Done.urlChecker a w uc mc) as [[[[w' uc'] mc1] os1]|] eqn:Hu;
    [|done].
  simplify_eq. simpl in Hw. rewrite list_lookup_insert_eq in Hw by done.
  simplify_eq. destruct uc as [b n cl].
  unfold Done.urlChecker, send, recv in Hu. simpl in *.
  repeat case_match; simplify_eq; auto.
Qed.

Lemma ctx_exit_enabled ua ρ mc g i :
  Ctx.workers ρ !! i = Some Ctx.AtSelect →
  Ctx.ctxDone ρ = true ∨
  (closed (Ctx.urlChan ρ) = true ∧ buf (Ctx.urlChan ρ) = []) →
  ∃ a ρ', Ctx.run_step ua (Ctx.Work i a) ρ mc g = Some (ρ', mc, g, []) ∧
          Ctx.workers ρ' !! i = Some Ctx.Exited.
Proof.
  intros Hi Hc. pose proof (lookup_lt_Some _ _ _ Hi) as Hlt.
  destruct ρ as [q rs f [b n cl] ws d h]. simpl in *. destruct Hc as [->|[-> ->]].
  - exists Ctx.WDone. eexists. simpl. rewrite Hi. simpl. split; [done|].
    simpl. by apply list_lookup_insert_eq.
  - exists Ctx.WRecv. eexists. simpl. rewrite Hi. simpl. split; [done|].
    simpl. by apply list_lookup_insert_eq.
Qed.

Lemma ctx_drain_after_join l s s' es r m :
  Forall joined (Ctx.requests s) →
  Ctx.step l s = Some (s', es) → (r, Ctx.Drained m) ∈ es →
  ∃ ρ, Ctx.requests s !! r = Some ρ ∧
       forallb Ctx.is_exited (Ctx.workers ρ) = true.
Proof.
  intros HJ Hs Hin. destruct l as [q|r' a].
  - simpl in Hs. simplify_eq. destruct q; simpl in Hin; in_list Hin.
  - apply ctx_step_act in Hs as (ρ & ρ' & mc & g & os & Hr & Hrun & -> & ->).
    apply list_elem_of_fmap in Hin as (o & ? & Hin). simplify_eq.
    exists ρ. split; [done|]. eapply Forall_lookup_1 in HJ; [|done].
    apply HJ. destruct ρ; ctx_cases Hrun; in_list Hin; done.
Qed.

Lemma done_complete_after_join l s s' es r :
  Forall joined0 (Done.requests s) →
  Done.step l s = Some (s', es) → (r, Done.Completed) ∈ es →
  ∃ ρ, Done.requests s !! r = Some ρ ∧
       forallb Done.is_exited (Done.workers ρ) = true.
Proof.
  intros HJ Hs Hin. destruct l as [|r' a].
  - simpl in Hs. simplify_eq. in_list Hin.
  - apply done_step_act in Hs as (ρ & ρ' & mc & g & os & Hr & Hrun & -> & ->).
    apply list_elem_of_fmap in Hin as (o & ? & Hin). simplify_eq.
    exists ρ. split; [done|]. eapply Forall_lookup_1 in HJ; [|done].
    apply HJ. destruct ρ; done_cases Hrun; in_list Hin; auto.
Qed.

(** C6 (as the code has it).  Context-based revision: a worker's step ends in
    [Exited] only when the context is done or the URL queue is closed and
    drained, and a worker at its select can take that step as soon as either
    holds; at every reachable state a handler past [wg.Wait()] has all its
    workers exited, and its drain pass receives only then.  Done-channel
    revision: a worker exits only on the closed and drained queue, and
    completion is signalled only with all workers exited; its handler's
    drain pass is not tied to the join. *)
Theorem workers_exit_then_join :
  (∀ ua i a ρ mc g ρ' mc' g' os,
     Ctx.run_step ua (Ctx.Work i a) ρ mc g = Some (ρ', mc', g', os) →
     Ctx.workers ρ' !! i = Some Ctx.Exited →
     Ctx.ctxDone ρ = true ∨
     (closed (Ctx.urlChan ρ) = true ∧ buf (Ctx.urlChan ρ) = [])) ∧
  (∀ ua ρ mc g i,
     Ctx.workers ρ !! i = Some Ctx.AtSelect →
     Ctx.ctxDone ρ = true ∨
     (closed (Ctx.urlChan ρ) = true ∧ buf (Ctx.urlChan ρ) = []) →
     ∃ a ρ', Ctx.run_step ua (Ctx.Work i a) ρ mc g = Some (ρ', mc, g, []) ∧
             Ctx.workers ρ' !! i = Some Ctx.Exited) ∧
  (∀ args ok s0 ls c,
     Ctx.main args ok = Some s0 → Ctx.exec ls (s0, []) = Some c →
     (∀ r ρ, Ctx.requests c.1 !! r = Some ρ → Ctx.hdl ρ ≠ Ctx.Waiting →
             forallb Ctx.is_exited (Ctx.workers ρ) = true) ∧
     (∀ l s' es r m, Ctx.step l c.1 = Some (s', es) →
        (r, Ctx.Drained m) ∈ es →
        ∃ ρ, Ctx.requests c.1 !! r = Some ρ ∧
             forallb Ctx.is_exited (Ctx.workers ρ) = true)) ∧
  (∀ i a ρ mc g ρ' mc' g' os,
     Done.run_step (Done.Work i a) ρ mc g = Some (ρ', mc', g', os) →
     Done.workers ρ' !! i = Some Done.Exited →
     closed (Done.urlChan ρ) = true ∧ buf (Done.urlChan ρ) = []) ∧
  (∀ args ok s0 ls c,
     Done.main args ok = Some s0 → Done.exec ls (s0, []) = Some c →
     (∀ r ρ, Done.requests c.1 !! r = Some ρ →
             Done.coll ρ = Done.Signalling ∨ Done.coll ρ = Done.Finished →
             forallb Done.is_exited (Done.workers ρ) = true) ∧
     (∀ l s' es r, Done.step l c.1 = Some (s', es) →
        (r, Done.Completed) ∈ es →
        ∃ ρ, Done.requests c.1 !! r = Some ρ ∧
             forallb Done.is_exited (Done.workers ρ) = true)).
Proof.
  split; [apply ctx_exit_cause|]. split; [apply ctx_exit_enabled|].
  split; [|split; [apply done_exit_cause|]].
  - intros args ok s0 ls c Hm Hex.
    apply ctx_main_start in Hm as (H0 & _).
    pose proof (ctx_joined _ _ _ H0 Hex) as HJ. split.
    + intros r ρ Hr. eapply Forall_lookup_1 in HJ; [|done]. apply HJ.
    + intros l s' es r m. by apply ctx_drain_after_join.
  - intros args ok s0 ls c Hm Hex.
    apply done_main_start in Hm as ->.
    pose proof (done_joined _ _ Hex) as HJ. split.
    + intros r ρ Hr. eapply Forall_lookup_1 in HJ; [|done]. apply HJ.
    + intros l s' es r. by apply done_complete_after_join.
Qed.

Lemma workers_exit_then_join_witness :
  (Ctx.ctxDone queue_closed = true ∨
   closed (Ctx.urlChan queue_closed) = true ∧
   buf (Ctx.urlChan queue_closed) = []) ∧
  (∃ a ρ', Ctx.run_step "ua" (Ctx.Work 0 a) queue_closed (make 1000) ∅ =
             Some (ρ', make 1000, ∅, []) ∧
           Ctx.workers ρ' !! 0 = Some Ctx.Exited) ∧
  (∀ r ρ, Ctx.requests (after scrape_a).1 !! r = Some ρ →
          Ctx.hdl ρ ≠ Ctx.Waiting →
          forallb Ctx.is_exited (Ctx.workers ρ) = true) ∧
  (∃ ρ, Ctx.requests (after joined_a).1 !! 0 = Some ρ ∧
        forallb Ctx.is_exited (Ctx.workers ρ) = true) ∧
  (closed (Done.urlChan queue_closed0) = true ∧
   buf (Done.urlChan queue_closed0) = []) ∧
  (∀ r ρ, Done.requests (after0 scrape_a0).1 !! r = Some ρ →
          Done.coll ρ = Done.Signalling ∨ Done.coll ρ = Done.Finished →
          forallb Done.is_exited (Done.workers ρ) = true) ∧
  (∃ ρ, Done.requests (after0 collect_a0).1 !! 0 = Some ρ ∧
        forallb Done.is_exited (Done.workers ρ) = true).
Proof.
  destruct workers_exit_then_join as (H1 & H2 & H3 & H4 & H5).
  refine (conj _ (conj _ (conj _ (conj _ (conj _ (conj _ _)))))).
  - refine (H1 "ua" 0 Ctx.WRecv queue_closed (make 1000) ∅ _ _ _ _ _ _);
      [vm_compute; reflexivity|reflexivity].
  - apply (H2 "ua" queue_closed (make 1000) ∅ 0); [reflexivity|].
    right. split; reflexivity.
  - refine (proj1 (H3 [] true boot scrape_a (after scrape_a) _ _));
      [reflexivity|vm_compute; reflexivity].
  - refine (proj2 (H3 [] true boot joined_a (after joined_a) _ _)
              (Ctx.Act 0 (Ctx.Handle Ctx.HRecv)) _ _ 0
              (MetricUpdate "a" 200) _ _);
      [reflexivity|vm_compute; reflexivity|vm_compute; reflexivity|by left].
  - refine (H4 0 Done.WRecv queue_closed0 (make 1000) ∅ _ _ _ _ _ _);
      [vm_compute; reflexivity|reflexivity].
  - refine (proj1 (H5 [] true boot0 scrape_a0 (after0 scrape_a0) _ _));
      [reflexivity|vm_compute; reflexivity].
  - refine (proj2 (H5 [] true boot0 collect_a0 (after0 collect_a0) _ _)
              (Done.Act 0 (Done.Handle Done.HDone)) _ _ 0 _ _);
      [reflexivity|vm_compute; reflexivity|vm_compute; reflexivity|by left].
Defined.

(** C6 as stated fails in the done-channel revision: the timer fires and the
    drain pass receives while worker 1 of the same run is inside [checkURL]. *)
Lemma drain_before_join :
  ∃ s ρ, Done.exec timer_fires0 (boot0, []) =
           Some (s, [ (0, Done.Probed 0 (MetricUpdate "a" 200));
                      (0, Done.Sent 0 (MetricUpdate "a" 200));
                      (0, Done.TimedOut);
                      (0, Done.Drained (MetricUpdate "a" 200)) ]) ∧
         Done.requests s !! 0 = Some ρ ∧
         Done.workers ρ !! 1 = Some (Done.Checking "b") ∧
         Done.hdl ρ = Done.Applying (MetricUpdate "a" 200).
Proof. eexists _, _. split; [vm_compute; reflexivity|]. done. Qed.

(** ** What a run owns *)

Lemma ctx_frame r a s s' es r' :
  Ctx.step (Ctx.Act r a) s = Some (s', es) → r' ≠ r →
  Ctx.requests s' !! r' = Ctx.requests s !! r'.
Proof.
  intros Hs Hne.
  apply ctx_step_act in Hs as (ρ & ρ' & mc & g & os & Hr & Hrun & -> & ->).
  simpl. by apply list_lookup_insert_ne.
Qed.

Lemma ctx_chan_fixed ls s0 c :
  Ctx.metricsChan s0 = make 1000 → Ctx.exec ls (s0, []) = Some c →
  cap (Ctx.metricsChan c.1) = 1000 ∧ closed (Ctx.metricsChan c.1) = false.
Proof.
  intros H0 Hex.
  refine (ctx_exec_inv (λ c, cap (Ctx.metricsChan c.1) = 1000 ∧
                             closed (Ctx.metricsChan c.1) = false)
            _ ls (s0, []) c _ Hex); [|by simpl; rewrite H0].
  clear. intros [q|r a] [s tr] s' es HP Hs; simpl in *.
  - by simplify_eq.
  - apply ctx_step_act in Hs as (ρ & ρ' & mc & g & os & Hr & Hrun & -> & ->).
    apply ctx_chan_shape in Hrun as [Hc1 Hc2]. simpl. by rewrite Hc1, Hc2.
Qed.

Lemma ctx_shared_chan r a s s' es :
  Ctx.step (Ctx.Act r a) s = Some (s', es) →
  (∀ i m, (r, Ctx.Sent i m) ∈ es →
     buf (Ctx.metricsChan s') = buf (Ctx.metricsChan s) ++ [m]) ∧
  (∀ m, (r, Ctx.Drained m) ∈ es →
     buf (Ctx.metricsChan s) = m :: buf (Ctx.metricsChan s')).
Proof.
  intros Hs.
  apply ctx_step_act in Hs as (ρ & ρ' & mc & g & os & Hr & Hrun & -> & ->).
  split.
  - intros i m Hin. apply list_elem_of_fmap in Hin as (o & ? & Hin).
    simplify_eq. destruct ρ; ctx_cases Hrun; in_list Hin; done.
  - intros m Hin. apply list_elem_of_fmap in Hin as (o & ? & Hin).
    simplify_eq. destruct ρ; ctx_cases Hrun; in_list Hin; done.
Qed.

(** C9 (as the code has it): every scrape allocates its own URL queue
    (capacity 100, empty, open) and its own 20 workers and leaves the result
    channel alone; a step of one request never changes another request; the
    result channel is the one [metricsChan] made by [main], capacity 1000 and
    never closed, into which the workers of every request send and from which
    the drain pass of every request receives. *)
Theorem queue_per_run_channel_shared :
  (∀ s rs,
     Ctx.step (Ctx.Scrape (Some rs)) s =
     Some (Ctx.Server (Ctx.userAgent s) (Ctx.metricsChan s) (Ctx.urlStatus s)
             (Ctx.requests s ++
                [Ctx.Run rs rs Ctx.AtNext (make 100)
                   (replicate 20 Ctx.AtSelect) false Ctx.Waiting]), [])) ∧
  (∀ r a s s' es r',
     Ctx.step (Ctx.Act r a) s = Some (s', es) → r' ≠ r →
     Ctx.requests s' !! r' = Ctx.requests s !! r') ∧
  (∀ args ok s0 ls c,
     Ctx.main args ok = Some s0 → Ctx.exec ls (s0, []) = Some c →
     cap (Ctx.metricsChan c.1) = 1000 ∧ closed (Ctx.metricsChan c.1) = false) ∧
  (∀ r a s s' es,
     Ctx.step (Ctx.Act r a) s = Some (s', es) →
     (∀ i m, (r, Ctx.Sent i m) ∈ es →
        buf (Ctx.metricsChan s') = buf (Ctx.metricsChan s) ++ [m]) ∧
     (∀ m, (r, Ctx.Drained m) ∈ es →
        buf (Ctx.metricsChan s) = m :: buf (Ctx.metricsChan s'))).
Proof.
  split; [done|]. split; [apply ctx_frame|]. split; [|apply ctx_shared_chan].
  intros args ok s0 ls c Hm Hex. apply ctx_main_start in Hm as (_ & _ & Hc).
  by eapply ctx_chan_fixed.
Qed.

Lemma queue_per_run_channel_shared_witness :
  Ctx.requests
    (after (two_requests ++ [Ctx.Act 1 (Ctx.Feed Ctx.FScan)])).1 !! 0 =
    Ctx.requests (after two_requests).1 !! 0 ∧
  (cap (Ctx.metricsChan (after stale_result).1) = 1000 ∧
   closed (Ctx.metricsChan (after stale_result).1) = false) ∧
  buf (Ctx.metricsChan
         (after (timed_out_run ++ Ctx.Scrape (Some []) :: wind_down 1)).1) =
    MetricUpdate "a" 200
    :: buf (Ctx.metricsChan
              (after (timed_out_run
                      ++ Ctx.Scrape (Some []) :: wind_down 1
                      ++ [Ctx.Act 1 (Ctx.Handle Ctx.HRecv)])).1).
Proof.
  destruct queue_per_run_channel_shared as (_ & H2 & H3 & H4).
  refine (conj _ (conj _ _)).
  - refine (H2 1 (Ctx.Feed Ctx.FScan) (after two_requests).1
              (after (two_requests ++ [Ctx.Act 1 (Ctx.Feed Ctx.FScan)])).1
              [] 0 _ _); [vm_compute; reflexivity|lia].
  - refine (H3 [] true boot stale_result (after stale_result) _ _);
      [reflexivity|vm_compute; reflexivity].
  - refine (proj2 (H4 1 (Ctx.Handle Ctx.HRecv)
                     (after (timed_out_run
                             ++ Ctx.Scrape (Some []) :: wind_down 1)).1
                     (after (timed_out_run
                             ++ Ctx.Scrape (Some []) :: wind_down 1
                             ++ [Ctx.Act 1 (Ctx.Handle Ctx.HRecv)])).1
                     [(1, Ctx.Drained (MetricUpdate "a" 200))] _)
              (MetricUpdate "a" 200) _);
      [vm_compute; reflexivity|by left].
Defined.

(** C9 as stated fails: request 0 sends its result and times out; request 1,
    whose store is empty, receives that result in its drain pass and applies
    it. *)
Lemma result_drained_by_other_run :
  ∃ s, Ctx.exec stale_result (boot, []) =
       Some (s, [ (0, Ctx.Probed 0 (MetricUpdate "a" 200));
                  (0, Ctx.Sent 0 (MetricUpdate "a" 200));
                  (0, Ctx.Responded (MetricsText []));
                  (1, Ctx.Drained (MetricUpdate "a" 200));
                  (1, Ctx.Applied (MetricUpdate "a" 200));
                  (1, Ctx.Responded
                        (MetricsText
                           [Sample "bookmarks_alive_status" "a" 200])) ]).
Proof. eexists. vm_compute. reflexivity. Qed.

(** ** One probe per listed row *)

Lemma sum_list_with_insert {A} (f : A → nat) (l : list A) i x y :
  l !! i = Some x →
  sum_list_with f (<[i := y]> l) + f x = sum_list_with f l + f y.
Proof.
  revert i. induction l as [|z l IH]; intros [|i] H; simpl in *; simplify_eq.
  - lia.
  - specialize (IH i H). lia.
Qed.

Lemma sum_hit_replicate u n :
  sum_list_with (worker_hit u) (replicate n Ctx.AtSelect) = 0.
Proof. induction n; simpl; [done|]. by rewrite IHn. Qed.

Lemma probes_app r u tr es : probes r u (tr ++ es) = probes r u tr + probes r u es.
Proof. unfold probes. by rewrite sum_list_with_app. Qed.

Lemma probes_of_run r r' u os :
  probes r u (pair r' <$> os) =
  if decide (r' = r) then sum_list_with (obs_hit u) os else 0.
Proof.
  induction os as [|o os IH].
  - unfold probes. simpl. by case_decide.
  - change (probes r u (pair r' <$> o :: os)) with
      ((if decide (r' = r) then obs_hit u o else 0)
       + probes r u (pair r' <$> os)).
    rewrite IH. simpl. repeat case_decide; simplify_eq; lia.
Qed.

Lemma probes_none r u tr :
  (∀ e, e ∈ tr → e.1 ≠ r) → probes r u tr = 0.
Proof.
  induction tr as [|e tr IH]; intros H; [done|].
  change (probes r u (e :: tr)) with
    ((if decide (e.1 = r) then obs_hit u e.2 else 0) + probes r u tr).
  rewrite IH by (intros e' He'; apply H; by right).
  case_decide as Heq; [|done]. exfalso. eapply H; [by left|done].
Qed.

(** A step moves a listed URL towards its probe or drops it; it never adds
    one. *)
Lemma ctx_pending_step ua a ρ mc g ρ' mc' g' os u :
  Ctx.run_step ua a ρ mc g = Some (ρ', mc', g', os) →
  Ctx.query ρ' = Ctx.query ρ ∧
  pending u ρ' + sum_list_with (obs_hit u) os ≤ pending u ρ.
Proof.
  intros H. destruct ρ as [q rs f [b n cl] ws d h].
  unfold pending, listed. simpl.
  destruct a as [|fa|i wa|ha].
  - ctx_cases H. split; [done|lia].
  - ctx_cases H; (split; [done|]);
      rewrite ?sum_list_with_app; simpl; unfold hit; repeat case_decide; lia.
  - simpl in H. destruct (ws !! i) as [w|] eqn:Hw; [|done].
    destruct (Ctx.urlChecker ua d wa w _ mc) as [[[[w' uc'] mc1] os1]|] eqn:Hu;
      [|done].
    simplify_eq. simpl. split; [done|].
    pose proof (sum_list_with_insert (worker_hit u) ws i w w' Hw) as Hsum.
    unfold Ctx.urlChecker, send, recv in Hu. simpl in Hu.
    repeat case_match; simplify_eq; simpl in *;
      unfold hit in *; repeat case_decide; simplify_eq; lia.
  - ctx_cases H; (split; [done|]); simpl; lia.
Qed.

Lemma ctx_counted ls s0 c :
  Ctx.requests s0 = [] → Ctx.exec ls (s0, []) = Some c → counted c.
Proof.
  intros H0 Hex.
  refine (ctx_exec_inv counted _ ls (s0, []) c _ Hex).
  2:{ split; simpl; [intros e He; by apply elem_of_nil in He|].
      intros r ρ u. by rewrite H0. }
  clear. intros [q|r a] [s tr] s' es [HP1 HP2] Hs; simpl in *.
  - simplify_eq. split; simpl.
    + intros e He. rewrite length_app. simpl.
      apply elem_of_app in He as [He|He]; [apply HP1 in He; lia|].
      apply list_elem_of_fmap in He as (o & -> & _). simpl. lia.
    + intros r ρ u Hr. rewrite probes_app, probes_of_run.
      assert (sum_list_with (obs_hit u) (Ctx.metricsHandler q).2 = 0) as ->
        by by destruct q.
      apply lookup_app_Some in Hr as [Hr|[Hlen Hr]].
      * specialize (HP2 r ρ u Hr). case_decide; lia.
      * apply list_lookup_singleton_Some in Hr as [Hr <-].
        rewrite probes_none.
        2:{ intros e He. apply HP1 in He. lia. }
        destruct q as [rs|]; simpl.
        -- unfold pending. simpl. rewrite ?sum_hit_replicate.
           case_decide; lia.
        -- case_decide; unfold pending; simpl; lia.
  - apply ctx_step_act in Hs as (ρ & ρ' & mc & g & os & Hr & Hrun & -> & ->).
    split; simpl.
    + intros e He. rewrite length_insert.
      apply elem_of_app in He as [He|He]; [by apply HP1|].
      apply list_elem_of_fmap in He as (o & -> & _). simpl.
      by eapply lookup_lt_Some.
    + intros r' ρ1 u Hr1. rewrite probes_app, probes_of_run.
      destruct (decide (r = r')) as [->|Hne].
      * rewrite list_lookup_insert_eq in Hr1 by by eapply lookup_lt_Some.
        simplify_eq.
        destruct (ctx_pending_step _ _ _ _ _ _ _ _ _ u Hrun) as [-> Hle].
        specialize (HP2 r' ρ u Hr). lia.
      * rewrite list_lookup_insert_ne in Hr1 by done.
        specialize (HP2 r' ρ1 u Hr1). lia.
Qed.

Lemma exposition_NoDup name g : NoDup (label_url <$> exposition name g).
Proof.
  unfold exposition. rewrite <- list_fmap_compose.
  apply (NoDup_fst_map_to_list g).
Qed.

(** C5 (as the code has it): at every reachable state, a request has produced
    at most as many ProbeResults for a URL as the result of its query lists
    that URL, hence at most one where the URL is listed once; the gauge store
    holds for each URL the value applied last, or, where none was applied
    yet, the 0 of a series that some drain pass has created with
    [WithLabelValues] and not set yet, and nothing otherwise; its exposition
    has at most one line per URL. *)
Theorem one_probe_per_listed_row args ok s0 ls c :
  Ctx.main args ok = Some s0 → Ctx.exec ls (s0, []) = Some c →
  (∀ r ρ u, Ctx.requests c.1 !! r = Some ρ →
     probes r u c.2 ≤ listed u (Ctx.query ρ) ∧
     (listed u (Ctx.query ρ) ≤ 1 → probes r u c.2 ≤ 1)) ∧
  (∀ u, Ctx.urlStatus c.1 !! u = held (last_applied u c.2) (created u c.1)) ∧
  NoDup (label_url <$> exposition Ctx.metric_name (Ctx.urlStatus c.1)).
Proof.
  intros Hm Hex. apply ctx_main_start in Hm as (H0 & Hg & _).
  split; [|split].
  - intros r ρ u Hr.
    destruct (ctx_counted _ _ _ H0 Hex) as [_ HP].
    specialize (HP r ρ u Hr). lia.
  - apply (ctx_gauge_last ls s0 c Hg H0 Hex).
  - apply exposition_NoDup.
Qed.

Lemma one_probe_per_listed_row_witness :
  probes 0 "a" (after scrape_a).2 ≤ 1 ∧
  Ctx.urlStatus (after scrape_a).1 !! "a" = Some 200%Z.
Proof.
  destruct (one_probe_per_listed_row [] true boot scrape_a (after scrape_a))
    as (H1 & H2 & _); [reflexivity|vm_compute; reflexivity|].
  split.
  - refine (proj2 (H1 0 _ "a" _) _); [vm_compute; reflexivity|].
    vm_compute. lia.
  - rewrite H2. vm_compute. reflexivity.
Defined.

(** C5 as stated fails where the store lists a URL twice: request 0 produces
    two ProbeResults for ["a"]. *)
Lemma two_results_for_one_url :
  ∃ s tr, Ctx.exec listed_twice (boot, []) = Some (s, tr) ∧
          probes 0 "a" tr = 2 ∧
          (0, Ctx.Probed 0 (MetricUpdate "a" 200)) ∈ tr ∧
          (0, Ctx.Probed 1 (MetricUpdate "a" 503)) ∈ tr ∧
          Ctx.urlStatus s !! "a" = Some 503%Z.
Proof.
  eexists _, _. split; [vm_compute; reflexivity|].
  split; [reflexivity|]. split; [by left|]. split; [by right; left|].
  vm_compute. reflexivity.
Qed.

(** Between [WithLabelValues] and [Set] the new series stands at 0, and a
    body served then lists it so, whatever the probe received. *)
Lemma series_served_before_set :
  ∃ c, Ctx.exec served_before_set (boot, []) = Some c ∧
       (0, Ctx.Probed 0 (MetricUpdate "a" 200)) ∈ c.2 ∧
       last_applied "a" c.2 = None ∧ created "a" c.1 = true ∧
       Ctx.urlStatus c.1 !! "a" = Some 0%Z ∧
       (1, Ctx.Responded (MetricsText [Sample Ctx.metric_name "a" 0])) ∈ c.2.
Proof.
  eexists. split; [vm_compute; reflexivity|].
  split; [by left|]. split; [reflexivity|]. split; [reflexivity|].
  split; [vm_compute; reflexivity|]. vm_compute. do 3 right. by left.
Qed.

(** ** Membership after an update, and small tactics *)

Lemma elem_of_insert_inv {A} (l : list A) i x y :
  x ∈ <[i := y]> l → x = y ∨ x ∈ l.
Proof.
  intros H. apply list_elem_of_lookup in H as [j Hj].
  apply list_lookup_insert_Some in Hj as [(-> & -> & _)|[_ Hj]]; [by left|].
  right. apply list_elem_of_lookup. eauto.
Qed.

Lemma elem_of_insert_cases {A} (l : list A) i x z :
  x ∈ l → l !! i = Some x ∨ x ∈ <[i := z]> l.
Proof.
  intros H. apply list_elem_of_lookup in H as [j Hj].
  destruct (decide (i = j)) as [->|Hne]; [by left|].
  right. apply list_elem_of_lookup. exists j. by rewrite list_lookup_insert_ne.
Qed.

(** Choose the disjunct that holds. *)
Ltac pick := solve [ repeat (first [ left; solve [eauto] | right ]); eauto ].

Ltac split_hyp H :=
  repeat match type of H with
         | _ ∨ _ => destruct H as [H|H]
         | ∃ _, _ => destruct H as [? H]
         | False => destruct H
         end.

(** Forward chaining over the premises at hand. *)
Ltac chain :=
  intros;
  repeat match goal with
         | H : ?P → _, H' : ?P |- _ => specialize (H H')
         | H : ?x = ?x → _ |- _ => specialize (H eq_refl)
         | H : _ ∧ _ |- _ => destruct H
         end;
  simplify_eq; try done; auto.

Ltac cov_feed Hcov :=
  let u := fresh "u" in let Hu := fresh "Hu" in
  intros u Hu; specialize (Hcov u Hu); set_unfold; split_hyp Hcov;
  simplify_eq; pick.

(** ** Where the values come from *)

Lemma ctx_exec_snoc ls l c c' :
  Ctx.exec (ls ++ [l]) c = Some c' →
  ∃ c1 es, Ctx.exec ls c = Some c1 ∧
           Ctx.step l c1.1 = Some (c'.1, es) ∧ c'.2 = c1.2 ++ es.
Proof.
  rewrite ctx_exec_app. destruct (Ctx.exec ls c) as [c1|] eqn:H1; [|done].
  simpl. destruct (Ctx.step l c1.1) as [[s' es]|] eqn:H2; [|done].
  intros ?. simplify_eq. by exists c1, es.
Qed.

Lemma done_exec_snoc ls l c c' :
  Done.exec (ls ++ [l]) c = Some c' →
  ∃ c1 es, Done.exec ls c = Some c1 ∧
           Done.step l c1.1 = Some (c'.1, es) ∧ c'.2 = c1.2 ++ es.
Proof.
  rewrite done_exec_app. destruct (Done.exec ls c) as [c1|] eqn:H1; [|done].
  simpl. destruct (Done.step l c1.1) as [[s' es]|] eqn:H2; [|done].
  intros ?. simplify_eq. by exists c1, es.
Qed.

(** An invariant of a configuration together with the schedule that led to
    it. *)
Lemma ctx_exec_prefix_inv
    (P : list Ctx.label → Ctx.server * list Ctx.event → Prop) c0 :
  P [] c0 →
  (∀ ls l c s' es, Ctx.exec ls c0 = Some c → P ls c →
     Ctx.step l c.1 = Some (s', es) → P (ls ++ [l]) (s', c.2 ++ es)) →
  ∀ ls c, Ctx.exec ls c0 = Some c → P ls c.
Proof.
  intros H0 Hstep ls. induction ls as [|l ls IH] using rev_ind; intros c Hex.
  - simpl in Hex. by simplify_eq.
  - apply ctx_exec_snoc in Hex as (c1 & es & Hex1 & Hs & Htr).
    destruct c as [s tr]. simpl in *. subst tr. eapply Hstep; eauto.
Qed.


Lemma probe_result_snoc s0 ls l u v :
  probe_result s0 ls u v → probe_result s0 (ls ++ [l]) u v.
Proof.
  intros (ls1 & ls2 & c1 & r & i & net & ρ & -> & H).
  exists ls1, (ls2 ++ [l]), c1, r, i, net, ρ.
  split; [by rewrite <- app_assoc|done].
Qed.


Lemma stored_mono (Q Q' : string → Z → Prop) u v :
  (∀ u v, Q u v → Q' u v) → stored Q u v → stored Q' u v.
Proof. intros HQ [H|[-> [v' H]]]; [left|right]; eauto. Qed.

(** A ProbeResult is built by the step that leaves [checkURL], and by no
    other. *)
Lemma ctx_probe_event ua a ρ mc g ρ' mc' g' os i m :
  Ctx.run_step ua a ρ mc g = Some (ρ', mc', g', os) →
  Ctx.Probed i m ∈ os →
  ∃ net, a = Ctx.Work i (Ctx.WProbe net) ∧
         Ctx.workers ρ !! i = Some (Ctx.Checking (url m)) ∧
         status m = Ctx.checkURL ua net (url m).
Proof.
  intros H Hin. destruct ρ as [q rs f uc ws d h].
  destruct a as [|fa|j wa|ha].
  - ctx_cases H. in_list Hin.
  - ctx_cases H; in_list Hin.
  - simpl in H. destruct (ws !! j) as [w|] eqn:Hw; [|done].
    destruct (Ctx.urlChecker ua d wa w uc mc) as [[[[w' uc'] mc1] os1]|] eqn:Hu;
      [|done].
    simplify_eq. unfold Ctx.urlChecker, send, recv in Hu.
    destruct w, wa; simpl in Hu; try done; repeat case_match; simplify_eq;
      simpl in Hin; in_list Hin.
    by exists net.
  - ctx_cases H; in_list Hin.
Qed.


Lemma stored_label (Q : string → Z → Prop) m g u v :
  (∀ u v, g !! u = Some v → stored Q u v) → Q (url m) (status m) →
  WithLabelValues (url m) g !! u = Some v → stored Q u v.
Proof.
  intros Hg Hm. rewrite WithLabelValues_lookup.
  destruct (g !! u) as [x|] eqn:Hx.
  - intros ?. simplify_eq. by apply Hg.
  - case_decide; [|done]. intros ?. simplify_eq. right. split; [done|]. eauto.
Qed.

Lemma stored_set (Q : string → Z → Prop) m g u v :
  (∀ u v, g !! u = Some v → stored Q u v) → Q (url m) (status m) →
  Set_gauge m g !! u = Some v → stored Q u v.
Proof.
  intros Hg Hm. unfold Set_gauge. rewrite lookup_insert.
  case_decide; [|by apply Hg]. intros ?. simplify_eq. by left.
Qed.

Lemma ctx_carries_step (Q : string → Z → Prop) ua a ρ mc g ρ' mc' g' os :
  run_carries Q ρ → Forall (λ m, Q (url m) (status m)) (buf mc) →
  (∀ u v, g !! u = Some v → stored Q u v) →
  (∀ i m, Ctx.Probed i m ∈ os → Q (url m) (status m)) →
  Ctx.run_step ua a ρ mc g = Some (ρ', mc', g', os) →
  run_carries Q ρ' ∧ Forall (λ m, Q (url m) (status m)) (buf mc') ∧
  (∀ u v, g' !! u = Some v → stored Q u v) ∧
  (∀ m, Ctx.Applied m ∈ os → Q (url m) (status m)).
Proof.
  unfold run_carries. intros [Hws Hh] Hmc Hg Hnew H.
  destruct ρ as [q rs f uc ws d h]. simpl in *.
  destruct a as [|fa|i wa|ha].
  - ctx_cases H. split_and!; try done. intros m Hm. in_list Hm.
  - ctx_cases H; (split_and!; try done); intros m Hm; in_list Hm.
  - simpl in H. destruct (ws !! i) as [w|] eqn:Hw; [|done].
    destruct (Ctx.urlChecker ua d wa w uc mc) as [[[[w' uc'] mc1] os1]|] eqn:Hu;
      [|done].
    simplify_eq. simpl.
    apply list_elem_of_lookup_2 in Hw.
    unfold Ctx.urlChecker, send, recv in Hu. destruct mc as [bm nm clm].
    destruct w, wa; simpl in Hu; try done; repeat case_match; simplify_eq;
      simpl in *; (split_and!; [|done|try done..]);
      try (solve [intros m' Hm'; apply elem_of_insert_inv in Hm' as [?|?];
                  simplify_eq; auto]);
      try (solve [intros m' Hm'; in_list Hm']).
    + intros m' Hm'. apply elem_of_insert_inv in Hm' as [?|?]; simplify_eq;
        [|by auto]. eapply Hnew. by left.
    + apply Forall_app. split; [done|]. constructor; [|done]. by apply Hws.
  - destruct mc as [bm nm clm]. destruct ha, h; simpl in H; try done;
      unfold recv in H; simpl in H; repeat case_match; simplify_eq; simpl in *.
    all: try (apply Forall_cons in Hmc as [Hm Hmc]).
    all: split_and!; try done.
    all: try (solve [intros m' Hm'; in_list Hm'; apply Hh; auto]).
    all: try (solve [intros m' [?|?]; simplify_eq; auto]).
    + intros u v. apply stored_label; [done|]. apply Hh. auto.
    + intros u v. apply stored_set; [done|]. apply Hh. auto.
Qed.


Lemma run_carries_mono (Q Q' : string → Z → Prop) ρ :
  (∀ u v, Q u v → Q' u v) → run_carries Q ρ → run_carries Q' ρ.
Proof. intros HQ [H1 H2]. split; intros m Hm; apply HQ; auto. Qed.


Lemma ctx_carries_fresh Q q : run_carries Q (Ctx.metricsHandler q).1.
Proof.
  destruct q as [rs|]; split; simpl;
    first [solve [intros m Hm; in_list Hm] | intros m [?|?]; done].
Qed.

(** Every update on its way, every update applied, and every line served
    goes back to a probe of the schedule. *)
Lemma ctx_sourced ls s0 c :
  Ctx.requests s0 = [] → Ctx.urlStatus s0 = ∅ →
  Ctx.metricsChan s0 = make 1000 →
  Ctx.exec ls (s0, []) = Some c →
  Ctx.userAgent c.1 = Ctx.userAgent s0 ∧
  carries (probe_result s0 ls) c.1 ∧
  (∀ r m, (r, Ctx.Applied m) ∈ c.2 → probe_result s0 ls (url m) (status m)) ∧
  (∀ r body x, (r, Ctx.Responded (MetricsText body)) ∈ c.2 → x ∈ body →
     metric x = Ctx.metric_name ∧
     stored (probe_result s0 ls) (label_url x) (value x)).
Proof.
  intros H0 Hg Hc Hex.
  refine (ctx_exec_prefix_inv
    (λ ls c, Ctx.userAgent c.1 = Ctx.userAgent s0 ∧
       carries (probe_result s0 ls) c.1 ∧
       (∀ r m, (r, Ctx.Applied m) ∈ c.2 →
               probe_result s0 ls (url m) (status m)) ∧
       (∀ r body x, (r, Ctx.Responded (MetricsText body)) ∈ c.2 → x ∈ body →
          metric x = Ctx.metric_name ∧
          stored (probe_result s0 ls) (label_url x) (value x)))
    (s0, []) _ _ ls c Hex).
  { unfold carries. simpl. rewrite H0, Hg, Hc. split_and!; try done.
    - intros r m Hin. in_list Hin.
    - intros r body x Hin. in_list Hin. }
  clear. intros ls l [s tr] s' es Hex (Hua & (Hrs & Hmc & Hg) & Happ & Hresp) Hs.
  simpl in *.
  assert (∀ u v, probe_result s0 ls u v → probe_result s0 (ls ++ [l]) u v)
    as Hmono by (intros u v; apply probe_result_snoc).
  assert (∀ u v, Ctx.urlStatus s !! u = Some v →
                 stored (probe_result s0 (ls ++ [l])) u v) as Hg1.
  { intros u v Huv. eapply stored_mono; [exact Hmono|]. by apply Hg. }
  assert (∀ r body x, (r, Ctx.Responded (MetricsText body)) ∈ tr ++ es →
            x ∈ body → metric x = Ctx.metric_name ∧
            stored (probe_result s0 (ls ++ [l])) (label_url x) (value x))
    as Hresp'.
  { intros r body x Hin Hx. apply elem_of_app in Hin as [Hin|Hin].
    - destruct (Hresp r body x Hin Hx) as [Hn Hp]. split; [done|].
      by eapply stored_mono.
    - destruct (ctx_response_body _ _ _ _ _ _ Hs Hin) as [-> _].
      apply exposition_elem_of in Hx as [Hn Hx]. split; [done|]. by apply Hg1. }
  destruct l as [q|r a].
  - simpl in Hs. simplify_eq. unfold carries. simpl. split_and!; try done.
    + apply Forall_app. split; [|constructor; [apply ctx_carries_fresh|done]].
      eapply Forall_impl; [done|]. intros ρ. by apply run_carries_mono.
    + eapply Forall_impl; [done|]. intros m. apply Hmono.
    + intros r m Hin. apply elem_of_app in Hin as [Hin|Hin]; [eauto|].
      destruct q; simpl in Hin; in_list Hin.
  - apply ctx_step_act in Hs as (ρ & ρ' & mc & g & os & Hr & Hrun & -> & ->).
    unfold carries. simpl.
    pose proof (Forall_lookup_1 _ _ _ _ Hrs Hr) as Hρ.
    assert (∀ i m, Ctx.Probed i m ∈ os →
              probe_result s0 (ls ++ [Ctx.Act r a]) (url m) (status m)) as Hnew.
    { intros i m Hin.
      destruct (ctx_probe_event _ _ _ _ _ _ _ _ _ _ _ Hrun Hin)
        as (net & -> & Hw & Hv).
      exists ls, [], (s, tr), r, i, net, ρ. rewrite Hv, Hua. done. }
    destruct (ctx_carries_step _ _ _ _ _ _ _ _ _ _
                (run_carries_mono _ _ _ Hmono Hρ)
                (Forall_impl _ _ _ Hmc (λ m, Hmono (url m) (status m)))
                Hg1 Hnew Hrun)
      as (Hρ' & Hmc' & Hg' & Happ').
    split_and!; try done.
    + apply Forall_insert; [|done].
      eapply Forall_impl; [done|]. intros ρ1. by apply run_carries_mono.
    + intros r' m Hin. apply elem_of_app in Hin as [Hin|Hin]; [eauto|].
      apply list_elem_of_fmap in Hin as (o & ? & Hin). simplify_eq.
      by apply Happ'.
Qed.


(** A probe in a world that answers with valid status codes returns a valid
    status code or 0. *)
Lemma checkURL_valid ua net u :
  well_behaved net → valid_or_zero (Ctx.checkURL ua net u).
Proof.
  intros Hnet. unfold Ctx.checkURL, valid_or_zero.
  destruct (NewRequest net u); [|by left].
  destruct (Do net _ _) as [code|] eqn:Hdo; [|by left].
  right. by eapply Hnet.
Qed.

Lemma probe_result_valid s0 ls u v :
  Forall tame ls → probe_result s0 ls u v → valid_or_zero v.
Proof.
  intros Ht (ls1 & ls2 & c1 & r & i & net & ρ & -> & _ & _ & _ & ->).
  apply Forall_app in Ht as [_ Ht]. apply Forall_cons in Ht as [Ht _].
  by apply checkURL_valid.
Qed.

Lemma ctx_query_fixed ua a ρ mc g ρ' mc' g' os :
  Ctx.run_step ua a ρ mc g = Some (ρ', mc', g', os) → Ctx.query ρ' = Ctx.query ρ.
Proof. intros H. by destruct (ctx_pending_step _ _ _ _ _ _ _ _ _ "" H). Qed.

(** * Further properties of the code *)

(** ** Channel capacities *)

Lemma ctx_chan_room ua a ρ mc g ρ' mc' g' os :
  Ctx.run_step ua a ρ mc g = Some (ρ', mc', g', os) →
  length (buf mc) ≤ cap mc → length (buf mc') ≤ cap mc'.
Proof.
  intros H Hle. destruct ρ, mc as [bm nm clm]; ctx_cases H;
    rewrite ?length_app; simpl; lia.
Qed.

Lemma done_chan_room a ρ mc g ρ' mc' g' os :
  Done.run_step a ρ mc g = Some (ρ', mc', g', os) →
  length (buf mc) ≤ cap mc → length (buf mc') ≤ cap mc'.
Proof.
  intros H Hle. destruct ρ, mc as [bm nm clm]; done_cases H;
    rewrite ?length_app; simpl; lia.
Qed.

Lemma ctx_within_step ua a ρ mc g ρ' mc' g' os :
  within ρ → Ctx.run_step ua a ρ mc g = Some (ρ', mc', g', os) → within ρ'.
Proof.
  unfold within. intros [Hle Hcap] H.
  destruct ρ as [q rs f [b n cl] ws d h]; simpl in *; subst n.
  ctx_cases H; rewrite ?length_app; simpl; split; try done; lia.
Qed.

Lemma done_within_step a ρ mc g ρ' mc' g' os :
  within0 ρ → Done.run_step a ρ mc g = Some (ρ', mc', g', os) → within0 ρ'.
Proof.
  unfold within0. intros [Hle Hcap] H.
  destruct ρ as [q rs k f [b n cl] ws h]; simpl in *; subst n.
  done_cases H; rewrite ?length_app; simpl; split; try done; lia.
Qed.

Lemma ctx_results_room ls s0 c :
  Ctx.metricsChan s0 = make 1000 → Ctx.exec ls (s0, []) = Some c →
  length (buf (Ctx.metricsChan c.1)) ≤ cap (Ctx.metricsChan c.1).
Proof.
  intros H0 Hex.
  refine (ctx_exec_inv
            (λ c, length (buf (Ctx.metricsChan c.1)) ≤ cap (Ctx.metricsChan c.1))
            _ ls (s0, []) c _ Hex); [|simpl; rewrite H0; simpl; lia].
  clear. intros [q|r a] [s tr] s' es HP Hs; simpl in *.
  - by simplify_eq.
  - apply ctx_step_act in Hs as (ρ & ρ' & mc & g & os & Hr & Hrun & -> & ->).
    simpl. by eapply ctx_chan_room.
Qed.

Lemma done_results_room ls c :
  Done.exec ls (boot0, []) = Some c →
  length (buf (Done.metricsChan c.1)) ≤ 1000 ∧ cap (Done.metricsChan c.1) = 1000.
Proof.
  intros Hex.
  refine (done_exec_inv
            (λ c, length (buf (Done.metricsChan c.1)) ≤ 1000 ∧
                  cap (Done.metricsChan c.1) = 1000)
            _ ls (boot0, []) c _ Hex); [|simpl; split; [lia|done]].
  clear. intros [|r a] [s tr] s' es [HP1 HP2] Hs; simpl in *.
  - by simplify_eq.
  - apply done_step_act in Hs as (ρ & ρ' & mc & g & os & Hr & Hrun & -> & ->).
    simpl. pose proof (done_chan_shape _ _ _ _ _ _ _ _ Hrun) as [Hc _].
    pose proof (done_chan_room _ _ _ _ _ _ _ _ Hrun) as Hroom.
    rewrite Hc in *. split; [|done]. rewrite HP2 in Hroom. by apply Hroom.
Qed.

(** X1: in both revisions, at every reachable state [metricsChan] holds at
    most 1000 updates and the URL queue of every request at most 100 URLs:
    a send beyond the capacity is never taken. *)
Theorem channels_within_capacity :
  (∀ args ok s0 ls c,
     Ctx.main args ok = Some s0 → Ctx.exec ls (s0, []) = Some c →
     length (buf (Ctx.metricsChan c.1)) ≤ 1000 ∧
     ∀ r ρ, Ctx.requests c.1 !! r = Some ρ →
            length (buf (Ctx.urlChan ρ)) ≤ 100) ∧
  (∀ args ok s0 ls c,
     Done.main args ok = Some s0 → Done.exec ls (s0, []) = Some c →
     length (buf (Done.metricsChan c.1)) ≤ 1000 ∧
     ∀ r ρ, Done.requests c.1 !! r = Some ρ →
            length (buf (Done.urlChan ρ)) ≤ 100).
Proof.
  split.
  - intros args ok s0 ls c Hm Hex.
    apply ctx_main_start in Hm as (H0 & _ & Hc). split.
    + pose proof (ctx_results_room _ _ _ Hc Hex) as Hroom.
      destruct (ctx_chan_fixed _ _ _ Hc Hex) as [Hcap _]. by rewrite Hcap in Hroom.
    + intros r ρ Hr.
      refine (proj1 (Forall_lookup_1 _ _ _ _
                (ctx_requests_inv within _ _ ls (s0, []) c _ Hex) Hr)).
      * intros [rs|]; unfold within; simpl; split; (lia || done).
      * intros ua a ρ1 mc g ρ' mc' g' os. apply ctx_within_step.
      * simpl. rewrite H0. constructor.
  - intros args ok s0 ls c Hm Hex.
    apply done_main_start in Hm as ->. split.
    + by destruct (done_results_room _ _ Hex).
    + intros r ρ Hr.
      refine (proj1 (Forall_lookup_1 _ _ _ _
                (done_requests_inv within0 _ _ ls (boot0, []) c _ Hex) Hr)).
      * unfold within0; simpl; split; (lia || done).
      * intros a ρ1 mc g ρ' mc' g' os. apply done_within_step.
      * constructor.
Qed.


Lemma channels_within_capacity_witness :
  length (buf (Ctx.metricsChan (after two_probing).1)) ≤ 1000 ∧
  ∀ r ρ, Ctx.requests (after two_probing).1 !! r = Some ρ →
         length (buf (Ctx.urlChan ρ)) ≤ 100.
Proof.
  apply (proj1 channels_within_capacity [] true boot two_probing);
    vm_compute; reflexivity.
Defined.

(** ** The events of one request *)

Lemma history_app r tr es : history r (tr ++ es) = history r tr ++ history r es.
Proof. unfold history. by rewrite filter_app, fmap_app. Qed.

Lemma history_of_run r r' os :
  history r (pair r' <$> os) = if decide (r' = r) then os else [].
Proof.
  unfold history. induction os as [|o os IH]; [by case_decide|].
  rewrite fmap_cons, filter_cons. simpl.
  repeat case_decide; simplify_eq; try done.
  rewrite fmap_cons. simpl. by f_equal.
Qed.

Lemma history_none r tr : (∀ e, e ∈ tr → e.1 < r) → history r tr = [].
Proof.
  unfold history. induction tr as [|e tr IH]; intros H; [done|].
  rewrite filter_cons. case_decide as Heq.
  - exfalso. specialize (H e (list_elem_of_here _ _)). lia.
  - apply IH. intros e' He'. apply H. by right.
Qed.

Lemma history0_app r tr es :
  history0 r (tr ++ es) = history0 r tr ++ history0 r es.
Proof. unfold history0. by rewrite filter_app, fmap_app. Qed.

Lemma history0_of_run r r' os :
  history0 r (pair r' <$> os) = if decide (r' = r) then os else [].
Proof.
  unfold history0. induction os as [|o os IH]; [by case_decide|].
  rewrite fmap_cons, filter_cons. simpl.
  repeat case_decide; simplify_eq; try done.
  rewrite fmap_cons. simpl. by f_equal.
Qed.

Lemma history0_none r tr : (∀ e, e ∈ tr → e.1 < r) → history0 r tr = [].
Proof.
  unfold history0. induction tr as [|e tr IH]; intros H; [done|].
  rewrite filter_cons. case_decide as Heq.
  - exfalso. specialize (H e (list_elem_of_here _ _)). lia.
  - apply IH. intros e' He'. apply H. by right.
Qed.

(** An invariant kept by the steps whose labels satisfy [L]. *)
Lemma ctx_exec_inv_on (L : Ctx.label → Prop)
    (P : Ctx.server * list Ctx.event → Prop) :
  (∀ l c s' es, L l → P c → Ctx.step l c.1 = Some (s', es) → P (s', c.2 ++ es)) →
  ∀ ls c c', Forall L ls → P c → Ctx.exec ls c = Some c' → P c'.
Proof.
  intros Hstep ls. induction ls as [|l ls IH]; intros c c' HL Hc Hex;
    simpl in Hex.
  - by simplify_eq.
  - destruct (Ctx.step l c.1) as [[s' es]|] eqn:Hs; [|done].
    apply Forall_cons in HL as [Hl HL].
    eapply IH; [done| |done]. by eapply Hstep.
Qed.

Lemma done_exec_inv_on (L : Done.label → Prop)
    (P : Done.server * list Done.event → Prop) :
  (∀ l c s' es, L l → P c → Done.step l c.1 = Some (s', es) → P (s', c.2 ++ es)) →
  ∀ ls c c', Forall L ls → P c → Done.exec ls c = Some c' → P c'.
Proof.
  intros Hstep ls. induction ls as [|l ls IH]; intros c c' HL Hc Hex;
    simpl in Hex.
  - by simplify_eq.
  - destruct (Done.step l c.1) as [[s' es]|] eqn:Hs; [|done].
    apply Forall_cons in HL as [Hl HL].
    eapply IH; [done| |done]. by eapply Hstep.
Qed.

(** A relation between the events of a request and its run, true when the
    request arrives and kept by the steps of the run that satisfy [L], holds
    at every state reached by such steps. *)
Lemma ctx_history_inv_on (L : Ctx.action → Prop)
    (I : list Ctx.obs → Ctx.run → Prop) r :
  (∀ q, I (Ctx.metricsHandler q).2 (Ctx.metricsHandler q).1) →
  (∀ ua a ρ mc g ρ' mc' g' os h, L a → I h ρ →
     Ctx.run_step ua a ρ mc g = Some (ρ', mc', g', os) → I (h ++ os) ρ') →
  ∀ ls s0 c, Ctx.requests s0 = [] →
    Forall (λ l, ∀ a, l = Ctx.Act r a → L a) ls →
    Ctx.exec ls (s0, []) = Some c →
    ∀ ρ, Ctx.requests c.1 !! r = Some ρ → I (history r c.2) ρ.
Proof.
  intros Hnew Hkeep ls s0 c H0 HL Hex.
  refine (proj2 (ctx_exec_inv_on _
    (λ c, (∀ e, e ∈ c.2 → e.1 < length (Ctx.requests c.1)) ∧
          ∀ ρ, Ctx.requests c.1 !! r = Some ρ → I (history r c.2) ρ)
    _ ls (s0, []) c HL _ Hex)).
  2:{ split; simpl; [intros e He; by apply elem_of_nil in He|].
      intros ρ. by rewrite H0. }
  clear -Hnew Hkeep. intros [q|r' a] [s tr] s' es Hl [HP1 HP2] Hs; simpl in *.
  - simplify_eq. split; simpl.
    + intros e He. rewrite length_app. simpl.
      apply elem_of_app in He as [He|He]; [apply HP1 in He; lia|].
      apply list_elem_of_fmap in He as (o & -> & _). simpl. lia.
    + intros ρ Hr. rewrite history_app, history_of_run.
      apply lookup_app_Some in Hr as [Hr|[Hlen Hr]].
      * case_decide as Heq; [|rewrite app_nil_r; by apply HP2].
        apply lookup_lt_Some in Hr. lia.
      * apply list_lookup_singleton_Some in Hr as [Hr <-].
        assert (r = length (Ctx.requests s)) as -> by lia.
        rewrite history_none by done. rewrite decide_True by done. apply Hnew.
  - apply ctx_step_act in Hs as (ρ & ρ' & mc & g & os & Hr & Hrun & -> & ->).
    split; simpl.
    + intros e He. rewrite length_insert.
      apply elem_of_app in He as [He|He]; [by apply HP1|].
      apply list_elem_of_fmap in He as (o & -> & _). simpl.
      by eapply lookup_lt_Some.
    + intros ρ1 Hr1. rewrite history_app, history_of_run.
      destruct (decide (r' = r)) as [->|Hne].
      * rewrite list_lookup_insert_eq in Hr1 by by eapply lookup_lt_Some.
        simplify_eq. eapply Hkeep; [by apply Hl|by apply HP2|done].
      * rewrite list_lookup_insert_ne in Hr1 by done.
        rewrite app_nil_r. by apply HP2.
Qed.

Lemma ctx_history_inv (I : list Ctx.obs → Ctx.run → Prop) :
  (∀ q, I (Ctx.metricsHandler q).2 (Ctx.metricsHandler q).1) →
  (∀ ua a ρ mc g ρ' mc' g' os h, I h ρ →
     Ctx.run_step ua a ρ mc g = Some (ρ', mc', g', os) → I (h ++ os) ρ') →
  ∀ ls s0 c, Ctx.requests s0 = [] → Ctx.exec ls (s0, []) = Some c →
    ∀ r ρ, Ctx.requests c.1 !! r = Some ρ → I (history r c.2) ρ.
Proof.
  intros Hnew Hkeep ls s0 c H0 Hex r.
  refine (ctx_history_inv_on (λ _, True) I r Hnew _ ls s0 c H0 _ Hex).
  - intros ua a ρ mc g ρ' mc' g' os h _. apply Hkeep.
  - by apply Forall_forall.
Qed.

Lemma done_history_inv_on (L : Done.action → Prop)
    (I : list Done.obs → Done.run → Prop) r :
  I [] Done.metricsHandler →
  (∀ a ρ mc g ρ' mc' g' os h, L a → I h ρ →
     Done.run_step a ρ mc g = Some (ρ', mc', g', os) → I (h ++ os) ρ') →
  ∀ ls c,
    Forall (λ l, ∀ a, l = Done.Act r a → L a) ls →
    Done.exec ls (boot0, []) = Some c →
    ∀ ρ, Done.requests c.1 !! r = Some ρ → I (history0 r c.2) ρ.
Proof.
  intros Hnew Hkeep ls c HL Hex.
  refine (proj2 (done_exec_inv_on _
    (λ c, (∀ e, e ∈ c.2 → e.1 < length (Done.requests c.1)) ∧
          ∀ ρ, Done.requests c.1 !! r = Some ρ → I (history0 r c.2) ρ)
    _ ls (boot0, []) c HL _ Hex)).
  2:{ split; simpl; [intros e He; by apply elem_of_nil in He|done]. }
  clear -Hnew Hkeep. intros [|r' a] [s tr] s' es Hl [HP1 HP2] Hs; simpl in *.
  - simplify_eq. split; simpl.
    + intros e He. rewrite length_app. simpl. rewrite app_nil_r in He.
      apply HP1 in He; lia.
    + intros ρ Hr. rewrite app_nil_r.
      apply lookup_app_Some in Hr as [Hr|[Hlen Hr]]; [by apply HP2|].
      apply list_lookup_singleton_Some in Hr as [Hr <-].
      assert (r = length (Done.requests s)) as -> by lia.
      rewrite history0_none by done. apply Hnew.
  - apply done_step_act in Hs as (ρ & ρ' & mc & g & os & Hr & Hrun & -> & ->).
    split; simpl.
    + intros e He. rewrite length_insert.
      apply elem_of_app in He as [He|He]; [by apply HP1|].
      apply list_elem_of_fmap in He as (o & -> & _). simpl.
      by eapply lookup_lt_Some.
    + intros ρ1 Hr1. rewrite history0_app, history0_of_run.
      destruct (decide (r' = r)) as [->|Hne].
      * rewrite list_lookup_insert_eq in Hr1 by by eapply lookup_lt_Some.
        simplify_eq. eapply Hkeep; [by apply Hl|by apply HP2|done].
      * rewrite list_lookup_insert_ne in Hr1 by done.
        rewrite app_nil_r. by apply HP2.
Qed.

Lemma done_history_inv (I : list Done.obs → Done.run → Prop) :
  I [] Done.metricsHandler →
  (∀ a ρ mc g ρ' mc' g' os h, I h ρ →
     Done.run_step a ρ mc g = Some (ρ', mc', g', os) → I (h ++ os) ρ') →
  ∀ ls c, Done.exec ls (boot0, []) = Some c →
    ∀ r ρ, Done.requests c.1 !! r = Some ρ → I (history0 r c.2) ρ.
Proof.
  intros Hnew Hkeep ls c Hex r.
  refine (done_history_inv_on (λ _, True) I r Hnew _ ls c _ Hex).
  - intros a ρ mc g ρ' mc' g' os h _. apply Hkeep.
  - by apply Forall_forall.
Qed.

(** ** Results are sent, dropped on cancellation, or still held *)

Lemma sum_replicate_0 {A} (f : A → nat) n x :
  f x = 0 → sum_list_with f (replicate n x) = 0.
Proof. intros H. induction n; simpl; [done|]. by rewrite H, IHn. Qed.

Lemma ctx_results_step ua a ρ mc g ρ' mc' g' os :
  Ctx.run_step ua a ρ mc g = Some (ρ', mc', g', os) →
  sum_list_with is_probed os + holding ρ =
    sum_list_with is_sent os + sum_list_with is_dropped os + holding ρ' ∧
  (0 < sum_list_with is_dropped os → Ctx.ctxDone ρ = true) ∧
  (Ctx.ctxDone ρ = true → Ctx.ctxDone ρ' = true).
Proof.
  intros H. destruct ρ as [q rs f uc ws d h]. unfold holding. simpl.
  destruct a as [|fa|i wa|ha].
  - ctx_cases H. split; [done|]. split; [lia|done].
  - ctx_cases H; (split; [done|]); (split; [lia|done]).
  - simpl in H. destruct (ws !! i) as [w|] eqn:Hw; [|done].
    destruct (Ctx.urlChecker ua d wa w uc mc) as [[[[w' uc'] mc1] os1]|] eqn:Hu;
      [|done].
    simplify_eq. simpl.
    pose proof (sum_list_with_insert emitting ws i w w' Hw) as Hsum.
    unfold Ctx.urlChecker, send, recv in Hu. simpl in Hu.
    repeat case_match; simplify_eq; simpl in *;
      (split; [lia|]); (split; [try done; lia|done]).
  - ctx_cases H; (split; [done|]); (split; [lia|done]).
Qed.

Lemma ctx_results_balance ls s0 c r ρ :
  Ctx.requests s0 = [] → Ctx.exec ls (s0, []) = Some c →
  Ctx.requests c.1 !! r = Some ρ →
  tally is_probed r c.2 =
    tally is_sent r c.2 + tally is_dropped r c.2 + holding ρ ∧
  (0 < tally is_dropped r c.2 → Ctx.ctxDone ρ = true).
Proof.
  intros H0 Hex Hr.
  refine (ctx_history_inv
    (λ h ρ, sum_list_with is_probed h =
              sum_list_with is_sent h + sum_list_with is_dropped h + holding ρ ∧
            (0 < sum_list_with is_dropped h → Ctx.ctxDone ρ = true))
    _ _ ls s0 c H0 Hex r ρ Hr).
  - intros [rs|]; (split; [reflexivity|simpl; lia]).
  - clear. intros ua a ρ mc g ρ' mc' g' os h [HI1 HI2] Hrun.
    destruct (ctx_results_step _ _ _ _ _ _ _ _ _ Hrun) as (H1 & H2 & H3).
    rewrite !sum_list_with_app. split; [lia|].
    intros Hd. apply H3.
    destruct (decide (0 < sum_list_with is_dropped h)); [auto|].
    apply H2. lia.
Qed.

(** X2: in the context-based revision, at every reachable state and for every
    request, each ProbeResult built so far was sent on [metricsChan], or was
    dropped, or is still held by the worker that built it; and a result is
    dropped only in a run whose context is done. *)
Theorem results_sent_dropped_or_held args ok s0 ls c r ρ :
  Ctx.main args ok = Some s0 → Ctx.exec ls (s0, []) = Some c →
  Ctx.requests c.1 !! r = Some ρ →
  tally is_probed r c.2 =
    tally is_sent r c.2 + tally is_dropped r c.2 + holding ρ ∧
  (0 < tally is_dropped r c.2 → Ctx.ctxDone ρ = true).
Proof.
  intros Hm Hex Hr. apply ctx_main_start in Hm as (H0 & _).
  by apply (ctx_results_balance ls s0).
Qed.

Lemma results_sent_dropped_or_held_witness :
  tally is_probed 0 (after drops_b).2 =
    tally is_sent 0 (after drops_b).2 + tally is_dropped 0 (after drops_b).2
    + holding (Ctx.Run [Scanned "a"; Scanned "b"] [] Ctx.AtNext (make 100)
                 (Ctx.AtSelect :: Ctx.Exited :: replicate 18 Ctx.AtSelect)
                 true Ctx.Waiting) ∧
  (0 < tally is_dropped 0 (after drops_b).2 → true = true).
Proof.
  apply (results_sent_dropped_or_held [] true boot drops_b (after drops_b) 0
           (Ctx.Run [Scanned "a"; Scanned "b"] [] Ctx.AtNext (make 100)
              (Ctx.AtSelect :: Ctx.Exited :: replicate 18 Ctx.AtSelect)
              true Ctx.Waiting));
    vm_compute; reflexivity.
Defined.

(** ** No result is dropped in the done-channel revision *)

Lemma done_results_step a ρ mc g ρ' mc' g' os :
  Done.run_step a ρ mc g = Some (ρ', mc', g', os) →
  (Done.coll ρ = Done.Querying → Done.workers ρ = []) →
  sum_list_with is_probed0 os + holding0 ρ =
    sum_list_with is_sent0 os + holding0 ρ' ∧
  (Done.coll ρ' = Done.Querying → Done.workers ρ' = []).
Proof.
  intros H HQ. destruct ρ as [q rs k f uc ws h]. unfold holding0. simpl in *.
  destruct a as [qr|fa|i wa| |ha].
  - done_cases H; rewrite ?HQ by done; simpl; rewrite ?sum_replicate_0 by done;
      done.
  - done_cases H; done.
  - simpl in H. destruct (ws !! i) as [w|] eqn:Hw; [|done].
    destruct (Done.urlChecker wa w uc mc) as [[[[w' uc'] mc1] os1]|] eqn:Hu;
      [|done].
    simplify_eq. simpl.
    pose proof (sum_list_with_insert emitting0 ws i w w' Hw) as Hsum.
    split.
    + unfold Done.urlChecker, send, recv in Hu. simpl in Hu.
      repeat case_match; simplify_eq; simpl in *; lia.
    + intros Hk. rewrite HQ in Hw by done. done.
  - done_cases H; done.
  - done_cases H; done.
Qed.

Lemma done_results_balance ls c r ρ :
  Done.exec ls (boot0, []) = Some c → Done.requests c.1 !! r = Some ρ →
  tally0 is_probed0 r c.2 = tally0 is_sent0 r c.2 + holding0 ρ.
Proof.
  intros Hex Hr.
  refine (proj1 (done_history_inv
    (λ h ρ, sum_list_with is_probed0 h = sum_list_with is_sent0 h + holding0 ρ ∧
            (Done.coll ρ = Done.Querying → Done.workers ρ = []))
    _ _ ls c Hex r ρ Hr)).
  - done.
  - clear. intros a ρ mc g ρ' mc' g' os h [HI1 HI2] Hrun.
    destruct (done_results_step _ _ _ _ _ _ _ _ Hrun HI2) as (H1 & H2).
    rewrite !sum_list_with_app. split; [lia|done].
Qed.

(** X3: in the done-channel revision a worker has no way out of its send: at
    every reachable state and for every request, each ProbeResult built so far
    was sent on [metricsChan] or is still held by the worker that built it. *)
Theorem no_result_dropped args ok s0 ls c r ρ :
  Done.main args ok = Some s0 → Done.exec ls (s0, []) = Some c →
  Done.requests c.1 !! r = Some ρ →
  tally0 is_probed0 r c.2 = tally0 is_sent0 r c.2 + holding0 ρ.
Proof.
  intros Hm Hex Hr. apply done_main_start in Hm as ->.
  by apply (done_results_balance ls).
Qed.

Lemma no_result_dropped_witness :
  tally0 is_probed0 0 (after0 still_selecting).2 =
  tally0 is_sent0 0 (after0 still_selecting).2 +
  holding0 (Done.Run [Scanned "a"; Scanned "b"] [] Done.Joining Done.AtNext
              (make 100)
              (Done.AtRange :: Done.Checking "b" :: replicate 18 Done.AtRange)
              Done.Selecting).
Proof.
  apply (no_result_dropped [] true boot0 still_selecting
           (after0 still_selecting) 0); vm_compute; reflexivity.
Defined.

(** ** The drain pass *)

Lemma ctx_drain_step ua a ρ mc g ρ' mc' g' os :
  Ctx.run_step ua a ρ mc g = Some (ρ', mc', g', os) →
  in_hand (Ctx.hdl ρ) ++ drained os = applied os ++ in_hand (Ctx.hdl ρ').
Proof. intros H. destruct ρ; ctx_cases H; rewrite ?app_nil_r; done. Qed.

Lemma done_drain_step a ρ mc g ρ' mc' g' os :
  Done.run_step a ρ mc g = Some (ρ', mc', g', os) →
  in_hand0 (Done.hdl ρ) ++ drained0 os = applied0 os ++ in_hand0 (Done.hdl ρ').
Proof. intros H. destruct ρ; done_cases H; rewrite ?app_nil_r; done. Qed.

(** X4: in both revisions, at every reachable state the updates the drain
    pass of a request has received are, in the order received, the updates it
    has applied to the gauge store, followed by the one it holds when it stands
    between the receive and the [Set]: each received update is applied once,
    none is skipped or reordered. *)
Theorem drained_updates_applied_in_order :
  (∀ args ok s0 ls c r ρ,
     Ctx.main args ok = Some s0 → Ctx.exec ls (s0, []) = Some c →
     Ctx.requests c.1 !! r = Some ρ →
     drained (history r c.2) = applied (history r c.2) ++ in_hand (Ctx.hdl ρ)) ∧
  (∀ args ok s0 ls c r ρ,
     Done.main args ok = Some s0 → Done.exec ls (s0, []) = Some c →
     Done.requests c.1 !! r = Some ρ →
     drained0 (history0 r c.2) =
       applied0 (history0 r c.2) ++ in_hand0 (Done.hdl ρ)).
Proof.
  split.
  - intros args ok s0 ls c r ρ Hm Hex Hr.
    apply ctx_main_start in Hm as (H0 & _).
    refine (ctx_history_inv
      (λ h ρ, drained h = applied h ++ in_hand (Ctx.hdl ρ))
      _ _ ls s0 c H0 Hex r ρ Hr).
    + by intros [rs|].
    + clear. intros ua a ρ mc g ρ' mc' g' os h HI Hrun.
      apply ctx_drain_step in Hrun. unfold drained, applied in *.
      rewrite !omap_app, HI, <- !app_assoc. by f_equal.
  - intros args ok s0 ls c r ρ Hm Hex Hr.
    apply done_main_start in Hm as ->.
    refine (done_history_inv
      (λ h ρ, drained0 h = applied0 h ++ in_hand0 (Done.hdl ρ))
      _ _ ls c Hex r ρ Hr).
    + done.
    + clear. intros a ρ mc g ρ' mc' g' os h HI Hrun.
      apply done_drain_step in Hrun. unfold drained0, applied0 in *.
      rewrite !omap_app, HI, <- !app_assoc. by f_equal.
Qed.

Lemma drained_updates_applied_in_order_witness :
  drained (history 0 (after scrape_a).2) =
  applied (history 0 (after scrape_a).2) ++
  in_hand (Ctx.Replied (MetricsText [Sample Ctx.metric_name "a" 200])).
Proof.
  apply (proj1 drained_updates_applied_in_order [] true boot scrape_a
           (after scrape_a) 0
           (Ctx.Run [Scanned "a"] [] Ctx.Returned (close (make 100))
              (replicate 20 Ctx.Exited) true
              (Ctx.Replied (MetricsText [Sample Ctx.metric_name "a" 200]))));
    vm_compute; reflexivity.
Defined.

(** ** One answer per request *)

Lemma responses_app h os : responses (h ++ os) = responses h ++ responses os.
Proof. apply omap_app. Qed.

Lemma responses0_app h os : responses0 (h ++ os) = responses0 h ++ responses0 os.
Proof. apply omap_app. Qed.

Lemma ctx_reply_step ua a ρ mc g ρ' mc' g' os h :
  joined ρ → reply_recorded h ρ →
  Ctx.run_step ua a ρ mc g = Some (ρ', mc', g', os) →
  reply_recorded (h ++ os) ρ'.
Proof.
  unfold joined, reply_recorded. intros HJ HI H.
  destruct ρ as [q rs f uc ws d hd]. simpl in *.
  destruct a as [|fa|i wa|ha].
  - ctx_cases H; rewrite ?app_nil_r; simplify_eq; try done. by destruct HI.
  - ctx_cases H; rewrite ?app_nil_r; simplify_eq; done.
  - simpl in H. destruct (ws !! i) as [w|] eqn:Hw; [|done].
    destruct (Ctx.urlChecker ua d wa w uc mc) as [[[[w' uc'] mc1] os1]|] eqn:Hu;
      [|done].
    simplify_eq. simpl.
    assert (hd = Ctx.Waiting ∨ w = Ctx.Exited) as [-> | ->].
    { destruct hd; [by left|..]; right;
        (eapply ctx_all_exited; [by apply HJ|done]). }
    + rewrite responses_app, HI.
      unfold Ctx.urlChecker, send, recv in Hu. simpl in Hu.
      repeat case_match; by simplify_eq.
    + done.
  - ctx_cases H; rewrite ?responses_app; simplify_eq; try (by rewrite HI).
    split; [|done]. by exists h.
Qed.

Lemma ctx_reply_recorded ls s0 c r ρ :
  Ctx.requests s0 = [] → Ctx.exec ls (s0, []) = Some c →
  Ctx.requests c.1 !! r = Some ρ →
  joined ρ ∧ reply_recorded (history r c.2) ρ.
Proof.
  intros H0 Hex Hr.
  refine (ctx_history_inv (λ h ρ, joined ρ ∧ reply_recorded h ρ)
            _ _ ls s0 c H0 Hex r ρ Hr).
  - intros [rs|]; unfold joined, reply_recorded; simpl.
    + split; [by intros []|done].
    + split; [done|]. split; [|done]. by exists [].
  - clear. intros ua a ρ mc g ρ' mc' g' os h [HJ HI] Hrun.
    split; [by eapply ctx_joined_step|by eapply ctx_reply_step].
Qed.

(** X5: in the context-based revision a request is answered at most once,
    and the answer is the last thing that happens on its behalf: when its
    handler has replied, the events of the request end with that response and
    hold no other, its context is done and all its workers have exited; until
    then its events hold no response. *)
Theorem reply_is_last_event args ok s0 ls c r ρ :
  Ctx.main args ok = Some s0 → Ctx.exec ls (s0, []) = Some c →
  Ctx.requests c.1 !! r = Some ρ →
  (∀ x, Ctx.hdl ρ = Ctx.Replied x →
     (∃ h, history r c.2 = h ++ [Ctx.Responded x] ∧ responses h = []) ∧
     Ctx.ctxDone ρ = true ∧ forallb Ctx.is_exited (Ctx.workers ρ) = true) ∧
  ((∀ x, Ctx.hdl ρ ≠ Ctx.Replied x) → responses (history r c.2) = []).
Proof.
  intros Hm Hex Hr. apply ctx_main_start in Hm as (H0 & _).
  destruct (ctx_reply_recorded ls s0 c r ρ H0 Hex Hr) as [HJ HI].
  unfold joined, reply_recorded in *. split.
  - intros x Hx. rewrite Hx in HI, HJ. destruct HI as [HI ->].
    split; [done|]. split; [done|]. by apply HJ.
  - intros Hno. destruct (Ctx.hdl ρ); try done. by destruct (Hno resp).
Qed.

Lemma reply_is_last_event_witness :
  (∀ x, Ctx.Replied (MetricsText [Sample Ctx.metric_name "a" 200]) =
        Ctx.Replied x →
     (∃ h, history 0 (after scrape_a).2 = h ++ [Ctx.Responded x] ∧
           responses h = []) ∧
     true = true ∧ forallb Ctx.is_exited (replicate 20 Ctx.Exited) = true) ∧
  ((∀ x, Ctx.Replied (MetricsText [Sample Ctx.metric_name "a" 200]) ≠
         Ctx.Replied x) → responses (history 0 (after scrape_a).2) = []).
Proof.
  apply (reply_is_last_event [] true boot scrape_a (after scrape_a) 0
           (Ctx.Run [Scanned "a"] [] Ctx.Returned (close (make 100))
              (replicate 20 Ctx.Exited) true
              (Ctx.Replied (MetricsText [Sample Ctx.metric_name "a" 200]))));
    vm_compute; reflexivity.
Defined.

(** ** After the timer, the collector never gets rid of its signal *)

Lemma elem_of_history r o tr : o ∈ history r tr ↔ (r, o) ∈ tr.
Proof.
  unfold history. rewrite list_elem_of_fmap. split.
  - intros ([r' o'] & -> & H). apply list_elem_of_filter in H as [Heq H].
    simpl in *. by subst.
  - intros H. exists (r, o). split; [done|]. by apply list_elem_of_filter.
Qed.

Lemma elem_of_history0 r o tr : o ∈ history0 r tr ↔ (r, o) ∈ tr.
Proof.
  unfold history0. rewrite list_elem_of_fmap. split.
  - intros ([r' o'] & -> & H). apply list_elem_of_filter in H as [Heq H].
    simpl in *. by subst.
  - intros H. exists (r, o). split; [done|]. by apply list_elem_of_filter.
Qed.

Lemma done_outcome_facts a ρ mc g ρ' mc' g' os :
  Done.run_step a ρ mc g = Some (ρ', mc', g', os) →
  (os = [Done.TimedOut] ∧ Done.hdl ρ = Done.Selecting ∧
   Done.hdl ρ' = Done.Draining ∧ Done.coll ρ' = Done.coll ρ) ∨
  (os = [Done.Completed] ∧ Done.hdl ρ = Done.Selecting ∧
   Done.hdl ρ' = Done.Draining) ∨
  ((Done.TimedOut ∉ os) ∧ (Done.Completed ∉ os) ∧
   (Done.hdl ρ' = Done.Selecting → Done.hdl ρ = Done.Selecting) ∧
   (Done.coll ρ' = Done.Finished → Done.coll ρ = Done.Finished)).
Proof.
  intros H. destruct ρ as [q rs k f uc ws hd].
  done_cases H;
    first [ by left | by right; left
          | right; right; split_and!; try done;
            let Hx := fresh in intros Hx; in_list Hx ].
Qed.

Lemma done_outcome_step a ρ mc g ρ' mc' g' os h :
  one_outcome h ρ → Done.run_step a ρ mc g = Some (ρ', mc', g', os) →
  one_outcome (h ++ os) ρ'.
Proof.
  unfold one_outcome. intros [H1 H2] H.
  apply done_outcome_facts in H
    as [(-> & Hs & Hd & Hk)|[(-> & Hs & Hd)|(Hn1 & Hn2 & Hs & Hk)]].
  - destruct (H1 Hs) as (Ht & Hc & Hf). split; [by rewrite Hd|].
    intros _. split; [by rewrite Hk|].
    intros Hx. apply elem_of_app in Hx as [Hx|Hx]; [done|in_list Hx].
  - destruct (H1 Hs) as (Ht & Hc & Hf). split; [by rewrite Hd|].
    intros Hx. apply elem_of_app in Hx as [Hx|Hx]; [done|in_list Hx].
  - split.
    + intros Hs'. destruct (H1 (Hs Hs')) as (Ht & Hc & Hf).
      split_and!; try (intros Hx; apply elem_of_app in Hx as [Hx|Hx]; done).
      intros Hf'. by apply Hf, Hk.
    + intros Hx. apply elem_of_app in Hx as [Hx|Hx]; [|done].
      destruct (H2 Hx) as [Hf Hc]. split.
      * intros Hf'. by apply Hf, Hk.
      * intros Hy. apply elem_of_app in Hy as [Hy|Hy]; done.
Qed.

(** X6: in the done-channel revision, once the handler of a request has
    taken the timer, [collectMetrics] of that request never gets past its
    [done <- true]: at every later state its collector has not finished and
    no completion is logged for the request. *)
Theorem collector_stuck_after_timeout args ok s0 ls c r ρ :
  Done.main args ok = Some s0 → Done.exec ls (s0, []) = Some c →
  Done.requests c.1 !! r = Some ρ →
  (r, Done.TimedOut) ∈ c.2 →
  Done.coll ρ ≠ Done.Finished ∧ ((r, Done.Completed) ∉ c.2).
Proof.
  intros Hm Hex Hr Hin. apply done_main_start in Hm as ->.
  rewrite <- elem_of_history0 in Hin. rewrite <- elem_of_history0.
  refine (proj2 (done_history_inv one_outcome _ _ ls c Hex r ρ Hr) Hin).
  - unfold one_outcome. simpl. split.
    + intros _. split_and!; try done; intros Hx; in_list Hx.
    + intros Hx. in_list Hx.
  - clear. intros a ρ mc g ρ' mc' g' os h. apply done_outcome_step.
Qed.

Lemma collector_stuck_after_timeout_witness :
  Done.Signalling ≠ Done.Finished ∧
  ((0, Done.Completed) ∉ (after0 joined_late0).2).
Proof.
  apply (collector_stuck_after_timeout [] true boot0 joined_late0
           (after0 joined_late0) 0
           (Done.Run [] [] Done.Signalling Done.Returned (close (make 100))
              (replicate 20 Done.Exited) Done.Draining)).
  - reflexivity.
  - vm_compute. reflexivity.
  - vm_compute. reflexivity.
  - vm_compute. by left.
Defined.

(** ** [metricsChan] between the workers and the drain passes *)

Lemma snd_of_run {A} (r : nat) (os : list A) : (pair r <$> os).*2 = os.
Proof. induction os as [|o os IH]; [done|]. rewrite !fmap_cons. by f_equal. Qed.

Lemma ctx_fifo_step ua a ρ mc g ρ' mc' g' os :
  Ctx.run_step ua a ρ mc g = Some (ρ', mc', g', os) →
  drained os ++ buf mc' = buf mc ++ sent os.
Proof.
  intros H. destruct ρ, mc as [bm nm clm];
    ctx_cases H; rewrite ?app_nil_r; done.
Qed.

Lemma done_fifo_step a ρ mc g ρ' mc' g' os :
  closed mc = false →
  Done.run_step a ρ mc g = Some (ρ', mc', g', os) →
  drained0 os ++ buf mc' = buf mc ++ sent0 os.
Proof.
  intros Hc H. destruct ρ, mc as [bm nm clm];
    done_cases H; rewrite ?app_nil_r; done.
Qed.

Lemma ctx_fifo ls s0 c :
  Ctx.metricsChan s0 = make 1000 → Ctx.exec ls (s0, []) = Some c →
  sent c.2.*2 = drained c.2.*2 ++ buf (Ctx.metricsChan c.1).
Proof.
  intros Hc Hex.
  refine (ctx_exec_inv
    (λ c, sent c.2.*2 = drained c.2.*2 ++ buf (Ctx.metricsChan c.1))
    _ ls (s0, []) c _ Hex); [|by simpl; rewrite Hc].
  clear. intros [q|r a] [s tr] s' es HP Hs; simpl in *.
  - simplify_eq. simpl. rewrite fmap_app, snd_of_run.
    unfold sent, drained in *. rewrite !omap_app, HP.
    destruct q; simpl; by rewrite !app_nil_r.
  - apply ctx_step_act in Hs as (ρ & ρ' & mc & g & os & Hr & Hrun & -> & ->).
    simpl. rewrite fmap_app, snd_of_run.
    apply ctx_fifo_step in Hrun. unfold sent, drained in *.
    rewrite !omap_app, HP, <- !app_assoc. by f_equal.
Qed.

Lemma done_fifo ls c :
  Done.exec ls (boot0, []) = Some c →
  sent0 c.2.*2 = drained0 c.2.*2 ++ buf (Done.metricsChan c.1).
Proof.
  intros Hex.
  refine (proj2 (done_exec_inv
    (λ c, closed (Done.metricsChan c.1) = false ∧
          sent0 c.2.*2 = drained0 c.2.*2 ++ buf (Done.metricsChan c.1))
    _ ls (boot0, []) c _ Hex)); [|done].
  clear. intros [|r a] [s tr] s' es [Hop HP] Hs; simpl in *.
  - simplify_eq. simpl. by rewrite app_nil_r.
  - apply done_step_act in Hs as (ρ & ρ' & mc & g & os & Hr & Hrun & -> & ->).
    simpl. rewrite fmap_app, snd_of_run.
    pose proof (done_chan_shape _ _ _ _ _ _ _ _ Hrun) as [_ Hcl].
    apply done_fifo_step in Hrun; [|done]. split; [by rewrite Hcl|].
    unfold sent0, drained0 in *.
    rewrite !omap_app, HP, <- !app_assoc. by f_equal.
Qed.

(** X7: in both revisions [metricsChan] carries the updates from the workers
    to the drain passes in order and without loss: at every reachable state
    the updates sent so far, by the workers of all requests, are the updates
    received so far, by the drain passes of all requests, followed by the
    content of the channel. *)
Theorem sent_is_received_then_buffered :
  (∀ args ok s0 ls c,
     Ctx.main args ok = Some s0 → Ctx.exec ls (s0, []) = Some c →
     sent c.2.*2 = drained c.2.*2 ++ buf (Ctx.metricsChan c.1)) ∧
  (∀ args ok s0 ls c,
     Done.main args ok = Some s0 → Done.exec ls (s0, []) = Some c →
     sent0 c.2.*2 = drained0 c.2.*2 ++ buf (Done.metricsChan c.1)).
Proof.
  split.
  - intros args ok s0 ls c Hm Hex.
    apply ctx_main_start in Hm as (_ & _ & Hc). by apply (ctx_fifo ls s0).
  - intros args ok s0 ls c Hm Hex.
    apply done_main_start in Hm as ->. by apply (done_fifo ls).
Qed.

Lemma sent_is_received_then_buffered_witness :
  sent (after overlapping).2.*2 =
  drained (after overlapping).2.*2 ++ buf (Ctx.metricsChan (after overlapping).1).
Proof.
  apply (proj1 sent_is_received_then_buffered [] true boot overlapping);
    vm_compute; reflexivity.
Defined.

(** ** Where the served values come from *)





(** ** Every listed row is probed *)

Lemma probes_history r u tr : probes r u tr = tally (obs_hit u) r tr.
Proof.
  unfold probes, tally, history. induction tr as [|e tr IH]; [done|].
  rewrite filter_cons. simpl. case_decide; simpl; by rewrite IH.
Qed.

Lemma sum_exited k ws :
  forallb Ctx.is_exited ws = true →
  sum_list_with (λ w, match w with Ctx.Checking u => k u | _ => 0 end) ws = 0.
Proof.
  induction ws as [|w ws IH]; [done|]. simpl. intros H.
  apply andb_true_iff in H as [H1 H2]. rewrite IH by done. by destruct w.
Qed.

Lemma exited_nonempty ws :
  forallb Ctx.is_exited ws = true → ws = [] ∨ Ctx.Exited ∈ ws.
Proof.
  destruct ws as [|w ws]; [by left|]. simpl. intros H.
  apply andb_true_iff in H as [H1 H2]. right. destruct w; try done. by left.
Qed.

(** Joined and not cancelled, a run has nothing left to probe. *)
Lemma ctx_settled k ρ :
  orderly ρ → forallb Ctx.is_exited (Ctx.workers ρ) = true → awaiting k ρ = 0.
Proof.
  intros (Ha & Hb & Hc & Hd) Hall. unfold awaiting.
  rewrite sum_exited by done.
  assert (Ctx.feed ρ = Ctx.Returned ∧ buf (Ctx.urlChan ρ) = []) as [Hf Hbuf].
  { destruct (exited_nonempty _ Hall) as [Hnil|Hex]; [by apply Hd|].
    destruct (Hc Hex) as [Hcl Hbuf]. split; [by apply Hb|done]. }
  by rewrite (Ha Hf), Hf, Hbuf.
Qed.

Lemma ctx_replied_inert ua a ρ mc g x :
  joined ρ → orderly ρ → Ctx.hdl ρ = Ctx.Replied x → a ≠ Ctx.Deadline →
  Ctx.run_step ua a ρ mc g = None.
Proof.
  unfold joined. intros HJ (Ha & Hb & Hc & Hd) Hx Hne.
  assert (forallb Ctx.is_exited (Ctx.workers ρ) = true) as Hall
    by (apply HJ; by rewrite Hx).
  assert (Ctx.feed ρ = Ctx.Returned) as Hf.
  { destruct (exited_nonempty _ Hall) as [Hnil|Hex]; [by apply Hd|].
    destruct (Hc Hex) as [Hcl Hbuf]. by apply Hb. }
  destruct ρ as [q rs f uc ws d h]. simpl in *. subst.
  destruct a as [|fa|i wa|ha]; [done|by destruct fa| |by destruct ha].
  simpl. destruct (ws !! i) as [w|] eqn:Hw; [|done].
  rewrite (ctx_all_exited _ _ _ Hall Hw). by destruct wa.
Qed.

Lemma ctx_orderly_step ua a ρ mc g ρ' mc' g' os :
  orderly ρ → Ctx.ctxDone ρ = false →
  Ctx.run_step ua a ρ mc g = Some (ρ', mc', g', os) → orderly ρ'.
Proof.
  unfold orderly. intros (Ha & Hb & Hc & Hd) Hnd H.
  destruct ρ as [q rs f [b n cl] ws d h]. simpl in *. subst d.
  destruct a as [|fa|i wa|ha].
  - ctx_cases H. done.
  - ctx_cases H; split_and!; chain.
    all: try (intros Hx; destruct (Hc Hx) as [? ?]; chain).
    all: try (intros ->; destruct Hd as [? ?]; chain).
  - simpl in H. destruct (ws !! i) as [w|] eqn:Hw; [|done].
    destruct (Ctx.urlChecker ua false wa w _ mc) as [[[[w' uc'] mc1] os1]|] eqn:Hu;
      [|done].
    simplify_eq. simpl.
    assert (<[i := w']> ws ≠ []) as Hne.
    { intros Hnil. apply (f_equal length) in Hnil.
      rewrite length_insert in Hnil. apply lookup_lt_Some in Hw.
      simpl in Hnil. lia. }
    unfold Ctx.urlChecker, recv, send in Hu. simpl in Hu.
    repeat case_match; simplify_eq; simpl in *; split_and!; try done;
      try (intros Hx; apply elem_of_insert_inv in Hx as [Hx|Hx]; [done|];
           by destruct (Hc Hx)).
  - ctx_cases H; split_and!; chain.
Qed.

Lemma ctx_awaiting_step k ua a ρ mc g ρ' mc' g' os :
  Ctx.ctxDone ρ = false →
  Ctx.run_step ua a ρ mc g = Some (ρ', mc', g', os) →
  Ctx.query ρ' = Ctx.query ρ ∧
  awaiting k ρ' + sum_list_with (probed_weight k) os = awaiting k ρ.
Proof.
  intros Hnd H. destruct ρ as [q rs f [b n cl] ws d h].
  unfold awaiting. simpl in *. subst d.
  destruct a as [|fa|i wa|ha].
  - ctx_cases H; simplify_eq; (split; [done|lia]).
  - ctx_cases H; simplify_eq; (split; [done|]);
      rewrite ?sum_list_with_app; simpl; lia.
  - simpl in H. destruct (ws !! i) as [w|] eqn:Hw; [|done].
    destruct (Ctx.urlChecker ua false wa w _ mc) as [[[[w' uc'] mc1] os1]|] eqn:Hu;
      [|done].
    simplify_eq. simpl. split; [done|].
    pose proof (sum_list_with_insert
                  (λ w, match w with Ctx.Checking u => k u | _ => 0 end)
                  ws i w w' Hw) as Hsum.
    unfold Ctx.urlChecker, send, recv in Hu. simpl in Hu.
    repeat case_match; simplify_eq; simpl in *; lia.
  - ctx_cases H; simplify_eq; (split; [done|]); simpl; lia.
Qed.

Lemma ctx_uncancelled_step ua a ρ mc g ρ' mc' g' os :
  Ctx.ctxDone ρ = false → a ≠ Ctx.Deadline →
  Ctx.run_step ua a ρ mc g = Some (ρ', mc', g', os) → uncancelled ρ'.
Proof.
  unfold uncancelled. intros Hnd Hne H. destruct ρ as [q rs f uc ws d h].
  simpl in *. subst d. destruct a as [|fa|i wa|ha]; [done|..].
  - ctx_cases H; by left.
  - simpl in H. destruct (ws !! i) as [w|]; [|done].
    destruct (Ctx.urlChecker _ _ _ _ _ _) as [[[[w' uc'] mc1] os1]|]; [|done].
    simplify_eq. by left.
  - ctx_cases H; first [by left | right; by eexists].
Qed.

(** What relates a run that was not cancelled to its events. *)
Lemma ctx_accounted_step k ua a ρ mc g ρ' mc' g' os h :
  a ≠ Ctx.Deadline → accounted k h ρ →
  Ctx.run_step ua a ρ mc g = Some (ρ', mc', g', os) → accounted k (h ++ os) ρ'.
Proof.
  unfold accounted. intros Hne (Hu & HJ & Ho & Hbal) H.
  destruct Hu as [Hnd|[x Hx]].
  2:{ by rewrite (ctx_replied_inert _ _ _ _ _ _ HJ Ho Hx Hne) in H. }
  split_and!.
  - by eapply ctx_uncancelled_step.
  - by eapply ctx_joined_step.
  - by eapply ctx_orderly_step.
  - destruct (ctx_awaiting_step k _ _ _ _ _ _ _ _ _ Hnd H) as [-> Hw].
    rewrite sum_list_with_app. lia.
Qed.

Lemma ctx_accounted k r ls s0 c ρ :
  Ctx.requests s0 = [] →
  Forall (λ l, l ≠ Ctx.Act r Ctx.Deadline) ls →
  Ctx.exec ls (s0, []) = Some c →
  Ctx.requests c.1 !! r = Some ρ →
  accounted k (history r c.2) ρ ∧ tally is_dropped r c.2 = 0.
Proof.
  intros H0 HL Hex Hr.
  refine (ctx_history_inv_on (λ a, a ≠ Ctx.Deadline)
            (λ h ρ, accounted k h ρ ∧ sum_list_with is_dropped h = 0) r
            _ _ ls s0 c H0 _ Hex ρ Hr).
  - intros [rs|]; unfold accounted, uncancelled, joined, orderly, awaiting; simpl.
    + split_and!; try done; try (by left); try (by intros []).
      * intros Hx. in_list Hx.
      * lia.
    + split_and!; try done. right. by eexists.
  - intros ua a ρ1 mc g ρ' mc' g' os h Hne [He Hd] Hrun.
    split; [by eapply ctx_accounted_step|].
    rewrite sum_list_with_app, Hd. simpl.
    destruct He as ([Hnd|[x Hx]] & HJ & Ho & _).
    + destruct (ctx_results_step _ _ _ _ _ _ _ _ _ Hrun) as (_ & H2 & _).
      destruct (sum_list_with is_dropped os); [done|].
      rewrite Hnd in H2. discriminate H2. lia.
    + by rewrite (ctx_replied_inert _ _ _ _ _ _ HJ Ho Hx Hne) in Hrun.
  - eapply Forall_impl; [done|]. intros l Hl a ->. by intros ->.
Qed.

(** X10: in the context-based revision, as long as the context of a request
    is not cancelled before its reply, every URL its query lists has been
    probed, or is still on its way to a probe, exactly as often as it is
    listed; once [wg.Wait()] has returned the request has produced exactly one
    ProbeResult per listed row. *)
Theorem uncancelled_run_probes_every_row args ok s0 ls c r ρ u :
  Ctx.main args ok = Some s0 → Ctx.exec ls (s0, []) = Some c →
  Forall (λ l, l ≠ Ctx.Act r Ctx.Deadline) ls →
  Ctx.requests c.1 !! r = Some ρ →
  probes r u c.2 + pending u ρ = listed u (Ctx.query ρ) ∧
  (Ctx.hdl ρ ≠ Ctx.Waiting → probes r u c.2 = listed u (Ctx.query ρ)).
Proof.
  intros Hm Hex HL Hr. apply ctx_main_start in Hm as (H0 & _).
  destruct (ctx_accounted (hit u) r ls s0 c ρ H0 HL Hex Hr)
    as [(_ & HJ & Ho & Hbal) _].
  rewrite probes_history. split; [exact Hbal|].
  intros Hw. rewrite (ctx_settled _ _ Ho (HJ Hw)) in Hbal.
  unfold tally. unfold listed. 
  change (sum_list_with (row_hit u) (Ctx.query ρ))
    with (sum_list_with (row_weight (hit u)) (Ctx.query ρ)).
  change (obs_hit u) with (probed_weight (hit u)). lia.
Qed.

Lemma uncancelled_run_probes_every_row_witness :
  probes 0 "a" (after scrape_a).2 +
  pending "a" (Ctx.Run [Scanned "a"] [] Ctx.Returned (close (make 100))
                 (replicate 20 Ctx.Exited) true
                 (Ctx.Replied (MetricsText [Sample Ctx.metric_name "a" 200])))
  = listed "a" [Scanned "a"] ∧
  (Ctx.Replied (MetricsText [Sample Ctx.metric_name "a" 200]) ≠ Ctx.Waiting →
   probes 0 "a" (after scrape_a).2 = listed "a" [Scanned "a"]).
Proof.
  apply (uncancelled_run_probes_every_row [] true boot scrape_a
           (after scrape_a) 0
           (Ctx.Run [Scanned "a"] [] Ctx.Returned (close (make 100))
              (replicate 20 Ctx.Exited) true
              (Ctx.Replied (MetricsText [Sample Ctx.metric_name "a" 200])))
           "a").
  - reflexivity.
  - vm_compute. reflexivity.
  - unfold scrape_a, scrape_a_as, probe_one, wind_down, drain_one, reply,
      each_worker. simpl. repeat constructor; discriminate.
  - vm_compute. reflexivity.
Defined.

Lemma sum_exited0 k ws :
  forallb Done.is_exited ws = true →
  sum_list_with (λ w, match w with Done.Checking u => k u | _ => 0 end) ws = 0.
Proof.
  induction ws as [|w ws IH]; [done|]. simpl. intros H.
  apply andb_true_iff in H as [H1 H2]. rewrite IH by done. by destruct w.
Qed.

Lemma exited_nonempty0 ws :
  forallb Done.is_exited ws = true → ws = [] ∨ Done.Exited ∈ ws.
Proof.
  destruct ws as [|w ws]; [by left|]. simpl. intros H.
  apply andb_true_iff in H as [H1 H2]. right. destruct w; try done. by left.
Qed.

Lemma done_settled k ρ :
  orderly0 ρ → forallb Done.is_exited (Done.workers ρ) = true →
  awaiting0 k ρ = 0.
Proof.
  intros (Ha & Hb & Hc & Hd & _) Hall. unfold awaiting0.
  rewrite sum_exited0 by done.
  assert (Done.feed ρ = Done.Returned ∧ buf (Done.urlChan ρ) = []) as [Hf Hbuf].
  { destruct (exited_nonempty0 _ Hall) as [Hnil|Hex]; [by apply Hd|].
    destruct (Hc Hex) as [Hcl Hbuf]. split; [by apply Hb|done]. }
  by rewrite (Ha Hf), Hf, Hbuf.
Qed.

Lemma done_orderly_step a ρ mc g ρ' mc' g' os :
  orderly0 ρ → Done.run_step a ρ mc g = Some (ρ', mc', g', os) → orderly0 ρ'.
Proof.
  unfold orderly0. intros (Ha & Hb & Hc & Hd & He) H.
  destruct ρ as [q rs k f [b n cl] ws h]. simpl in *.
  destruct a as [qr|fa|i wa| |ha].
  - done_cases H; split_and!; try done; try (intros Hx; in_list Hx);
      chain; chain.
  - done_cases H; split_and!; chain.
    all: try (intros Hx; destruct (Hc Hx) as [? ?]; chain).
    all: try (intros ->; destruct Hd as [? ?]; chain).
  - simpl in H. destruct (ws !! i) as [w|] eqn:Hw; [|done].
    destruct (Done.urlChecker wa w _ mc) as [[[[w' uc'] mc1] os1]|] eqn:Hu;
      [|done].
    simplify_eq. simpl.
    assert (<[i := w']> ws ≠ []) as Hne.
    { intros Hnil. apply (f_equal length) in Hnil.
      rewrite length_insert in Hnil. apply lookup_lt_Some in Hw.
      simpl in Hnil. lia. }
    assert (k ≠ Done.Querying) as Hk.
    { intros Hk. destruct (He Hk) as [-> _]. done. }
    unfold Done.urlChecker, recv, send in Hu. simpl in Hu.
    repeat case_match; simplify_eq; simpl in *; split_and!; try done;
      try (intros Hx; apply elem_of_insert_inv in Hx as [Hx|Hx]; [done|];
           by destruct (Hc Hx)).
  - done_cases H; split_and!; chain.
  - done_cases H; split_and!; chain.
Qed.

Lemma done_awaiting_step k a ρ mc g ρ' mc' g' os :
  orderly0 ρ →
  Done.run_step a ρ mc g = Some (ρ', mc', g', os) →
  sum_list_with (row_weight k) (Done.query ρ) + awaiting0 k ρ'
    + sum_list_with (probed_weight0 k) os =
  sum_list_with (row_weight k) (Done.query ρ') + awaiting0 k ρ.
Proof.
  intros (Ha & Hb & Hc & Hd & He) H. destruct ρ as [q rs c f [b n cl] ws h].
  unfold awaiting0. simpl in *.
  destruct a as [qr|fa|i wa| |ha].
  - simpl in H. destruct c; try done. destruct (He eq_refl) as [-> ->].
    destruct (Hd eq_refl) as [-> ->]. rewrite (Ha eq_refl).
    destruct qr as [rs'|]; simpl in H; simplify_eq; simpl.
    + lia.
    + lia.
  - done_cases H; simplify_eq; rewrite ?sum_list_with_app; simpl; lia.
  - simpl in H. destruct (ws !! i) as [w|] eqn:Hw; [|done].
    destruct (Done.urlChecker wa w _ mc) as [[[[w' uc'] mc1] os1]|] eqn:Hu;
      [|done].
    simplify_eq. simpl.
    pose proof (sum_list_with_insert
                  (λ w, match w with Done.Checking u => k u | _ => 0 end)
                  ws i w w' Hw) as Hsum.
    unfold Done.urlChecker, send, recv in Hu. simpl in Hu.
    repeat case_match; simplify_eq; simpl in *; lia.
  - done_cases H; simplify_eq; simpl; lia.
  - done_cases H; simplify_eq; simpl; lia.
Qed.

Lemma done_accounted k ls c r ρ :
  Done.exec ls (boot0, []) = Some c →
  Done.requests c.1 !! r = Some ρ → accounted0 k (history0 r c.2) ρ.
Proof.
  intros Hex Hr.
  refine (done_history_inv (accounted0 k) _ _ ls c Hex r ρ Hr).
  - unfold accounted0, joined0, orderly0, awaiting0. simpl.
    split_and!; try done. intros Hx. in_list Hx.
  - clear. intros a ρ mc g ρ' mc' g' os h (HJ & Ho & Hbal) H.
    split_and!.
    + by eapply done_joined_step.
    + by eapply done_orderly_step.
    + pose proof (done_awaiting_step k _ _ _ _ _ _ _ _ Ho H) as Hw.
      rewrite sum_list_with_app. lia.
Qed.

(** X11: the done-channel revision has no cancellation: at every reachable
    state, every URL the query of a request lists has been probed by that
    request, or is still on its way to a probe, exactly as often as it is
    listed; once [wg.Wait()] has returned the request has produced exactly one
    ProbeResult per listed row, a row that failed to scan apart. *)
Theorem joined_run_probed_every_row args ok s0 ls c r ρ u :
  Done.main args ok = Some s0 → Done.exec ls (s0, []) = Some c →
  Done.requests c.1 !! r = Some ρ →
  probes0 r u c.2 + awaiting0 (hit u) ρ = listed u (Done.query ρ) ∧
  (Done.coll ρ = Done.Signalling ∨ Done.coll ρ = Done.Finished →
   probes0 r u c.2 = listed u (Done.query ρ)).
Proof.
  intros Hm Hex Hr. apply done_main_start in Hm as ->.
  destruct (done_accounted (hit u) ls c r ρ Hex Hr) as (HJ & Ho & Hbal).
  split; [exact Hbal|].
  intros Hk. rewrite (done_settled _ _ Ho (HJ Hk)) in Hbal.
  unfold probes0, tally0, listed.
  change (sum_list_with (row_hit u) (Done.query ρ))
    with (sum_list_with (row_weight (hit u)) (Done.query ρ)). lia.
Qed.

Lemma joined_run_probed_every_row_witness :
  probes0 0 "a" (after0 collect_a0).2 +
  awaiting0 (hit "a")
    (Done.Run [Scanned "a"] [] Done.Signalling Done.Returned
       (close (make 100)) (replicate 20 Done.Exited) Done.Selecting)
  = listed "a" [Scanned "a"] ∧
  (Done.Signalling = Done.Signalling ∨ Done.Signalling = Done.Finished →
   probes0 0 "a" (after0 collect_a0).2 = listed "a" [Scanned "a"]).
Proof.
  apply (joined_run_probed_every_row [] true boot0 collect_a0
           (after0 collect_a0) 0
           (Done.Run [Scanned "a"] [] Done.Signalling Done.Returned
              (close (make 100)) (replicate 20 Done.Exited) Done.Selecting)
           "a"); vm_compute; reflexivity.
Defined.

(** ** A run is joined only if its results found room *)

Lemma tally_sent_le r tr : tally is_sent r tr ≤ length (sent tr.*2).
Proof.
  unfold tally, history, sent. induction tr as [|[r' o] tr IH]; [done|].
  rewrite filter_cons, fmap_cons. csimpl.
  case_decide; csimpl; destruct o; csimpl; unfold Ctx.event in *; lia.
Qed.

Lemma tally0_sent_le r tr : tally0 is_sent0 r tr ≤ length (sent0 tr.*2).
Proof.
  unfold tally0, history0, sent0. induction tr as [|[r' o] tr IH]; [done|].
  rewrite filter_cons, fmap_cons. csimpl.
  case_decide; csimpl; destruct o; csimpl; unfold Done.event in *; lia.
Qed.

Lemma holding_exited ρ :
  forallb Ctx.is_exited (Ctx.workers ρ) = true → holding ρ = 0.
Proof.
  unfold holding. induction (Ctx.workers ρ) as [|w ws IH]; [done|]. simpl.
  intros H. apply andb_true_iff in H as [H1 H2]. rewrite IH by done.
  by destruct w.
Qed.

Lemma holding0_exited ρ :
  forallb Done.is_exited (Done.workers ρ) = true → holding0 ρ = 0.
Proof.
  unfold holding0. induction (Done.workers ρ) as [|w ws IH]; [done|]. simpl.
  intros H. apply andb_true_iff in H as [H1 H2]. rewrite IH by done.
  by destruct w.
Qed.

Lemma ctx_join_bound ls s0 c r ρ :
  Ctx.requests s0 = [] → Ctx.metricsChan s0 = make 1000 →
  Ctx.exec ls (s0, []) = Some c →
  Forall (λ l, l ≠ Ctx.Act r Ctx.Deadline) ls →
  Ctx.requests c.1 !! r = Some ρ → Ctx.hdl ρ ≠ Ctx.Waiting →
  scanned (Ctx.query ρ) ≤ length (drained c.2.*2) + 1000.
Proof.
  intros H0 Hc Hex HL Hr Hw.
  destruct (ctx_accounted (λ _, 1) r ls s0 c ρ H0 HL Hex Hr)
    as [(_ & HJ & Ho & Hbal) Hnd].
  rewrite (ctx_settled _ _ Ho (HJ Hw)) in Hbal.
  destruct (ctx_results_balance ls s0 c r ρ H0 Hex Hr) as [Hres _].
  rewrite Hnd, (holding_exited _ (HJ Hw)) in Hres.
  pose proof (tally_sent_le r c.2) as Hle.
  rewrite (ctx_fifo ls s0 c Hc Hex), length_app in Hle.
  pose proof (ctx_results_room _ _ _ Hc Hex) as Hroom.
  destruct (ctx_chan_fixed _ _ _ Hc Hex) as [Hcap _]. rewrite Hcap in Hroom.
  unfold scanned.
  change (sum_list_with (probed_weight (λ _, 1)) (history r c.2))
    with (tally is_probed r c.2) in Hbal.
  lia.
Qed.

(** X12: in the context-based revision the workers of a run send into
    [metricsChan], which holds 1000 updates and is received from by drain
    passes only: a run that is not cancelled gets past [wg.Wait()] only if
    the rows of its query that scan are at most 1000 more than the updates
    the drain passes of all requests have received so far. *)
Theorem uncancelled_join_needs_room args ok s0 ls c r ρ :
  Ctx.main args ok = Some s0 → Ctx.exec ls (s0, []) = Some c →
  Forall (λ l, l ≠ Ctx.Act r Ctx.Deadline) ls →
  Ctx.requests c.1 !! r = Some ρ → Ctx.hdl ρ ≠ Ctx.Waiting →
  scanned (Ctx.query ρ) ≤ length (drained c.2.*2) + 1000.
Proof.
  intros Hm Hex HL Hr Hw. apply ctx_main_start in Hm as (H0 & _ & Hc).
  by apply (ctx_join_bound ls s0 c r).
Qed.

Lemma uncancelled_join_needs_room_witness :
  scanned [Scanned "a"; Scanned "b"] ≤ length (drained (after joined_ab).2.*2) + 1000.
Proof.
  apply (uncancelled_join_needs_room [] true boot joined_ab (after joined_ab) 0
           (Ctx.Run [Scanned "a"; Scanned "b"] [] Ctx.Returned
              (close (make 100)) (replicate 20 Ctx.Exited) false Ctx.Draining)).
  - reflexivity.
  - vm_compute. reflexivity.
  - unfold joined_ab, probe_one, wind_down, each_worker. simpl.
    repeat constructor; discriminate.
  - vm_compute. reflexivity.
  - discriminate.
Defined.

Lemma done_join_bound ls c r ρ :
  Done.exec ls (boot0, []) = Some c →
  Done.requests c.1 !! r = Some ρ →
  Done.coll ρ = Done.Signalling ∨ Done.coll ρ = Done.Finished →
  scanned (Done.query ρ) ≤ length (drained0 c.2.*2) + 1000.
Proof.
  intros Hex Hr Hk.
  destruct (done_accounted (λ _, 1) ls c r ρ Hex Hr) as (HJ & Ho & Hbal).
  rewrite (done_settled _ _ Ho (HJ Hk)) in Hbal.
  pose proof (done_results_balance ls c r ρ Hex Hr) as Hres.
  rewrite (holding0_exited _ (HJ Hk)) in Hres.
  pose proof (tally0_sent_le r c.2) as Hle.
  rewrite (done_fifo ls c Hex), length_app in Hle.
  destruct (done_results_room _ _ Hex) as [Hroom _].
  unfold scanned.
  change (sum_list_with (probed_weight0 (λ _, 1)) (history0 r c.2))
    with (tally0 is_probed0 r c.2) in Hbal.
  lia.
Qed.

(** X13: the same bound in the done-channel revision, where it holds of
    every run: [collectMetrics] reaches its [done <- true] after a query that
    succeeded only if the rows that scan are at most 1000 more than the
    updates the drain passes of all requests have received so far. *)
Theorem join_needs_room0 args ok s0 ls c r ρ :
  Done.main args ok = Some s0 → Done.exec ls (s0, []) = Some c →
  Done.requests c.1 !! r = Some ρ →
  Done.coll ρ = Done.Signalling ∨ Done.coll ρ = Done.Finished →
  scanned (Done.query ρ) ≤ length (drained0 c.2.*2) + 1000.
Proof.
  intros Hm Hex Hr Hk. apply done_main_start in Hm as ->.
  by apply (done_join_bound ls c r).
Qed.

Lemma join_needs_room0_witness :
  scanned [Scanned "a"] ≤ length (drained0 (after0 collect_a0).2.*2) + 1000.
Proof.
  apply (join_needs_room0 [] true boot0 collect_a0 (after0 collect_a0) 0
           (Done.Run [Scanned "a"] [] Done.Signalling Done.Returned
              (close (make 100)) (replicate 20 Done.Exited) Done.Selecting)).
  - reflexivity.
  - vm_compute. reflexivity.
  - vm_compute. reflexivity.
  - by left.
Defined.

(** ** The command line *)

Lemma done_Set_flag_defined n v f : is_Some (Done.Set_flag n v f) ↔ n ∈ defined0.
Proof.
  unfold Done.Set_flag, defined0. split.
  - intros [f' H]. repeat case_decide; simplify_eq; by repeat constructor.
  - intros H. repeat case_decide; try by eexists. in_list H.
Qed.

Lemma done_Set_flag_value n v f f' :
  Done.Set_flag n v f = Some f' →
  f' = Done.Flags (if decide (n = "db") then v else Done.db f)
         (if decide (n = "port") then v else Done.port f).
Proof.
  unfold Done.Set_flag. intros H. destruct f.
  repeat case_decide; by simplify_eq.
Qed.

Lemma done_Parse_settings n : ∀ args f f',
  length args ≤ n → Done.Parse args f = Some f' →
  ∃ nvs, settings args = Some nvs ∧ Forall (λ nv, nv.1 ∈ defined0) nvs ∧
    f' = Done.Flags (flag_value "db" nvs (Done.db f))
           (flag_value "port" nvs (Done.port f)).
Proof.
  induction n as [|n IH]; intros [|s rest] f f' Hlen H; simpl in *; try lia;
    try (simplify_eq; exists []; by destruct f').
  destruct (parseOne s) as [| | |name [v|]];
    try (simplify_eq; exists []; by destruct f'); try done.
  - destruct (Done.Set_flag name v f) as [f1|] eqn:Hset; [|done].
    destruct (IH rest f1 f' ltac:(lia) H) as (nvs & Hs & Hall & ->).
    exists ((name, v) :: nvs). rewrite Hs. split; [done|]. split.
    + constructor; [|done]. simpl. apply (done_Set_flag_defined name v f).
      by eexists.
    + rewrite !flag_value_cons. by apply done_Set_flag_value in Hset as ->.
  - destruct rest as [|v rest']; [done|]. simpl in Hlen.
    destruct (Done.Set_flag name v f) as [f1|] eqn:Hset; [|done].
    destruct (IH rest' f1 f' ltac:(lia) H) as (nvs & Hs & Hall & ->).
    exists ((name, v) :: nvs). rewrite Hs. split; [done|]. split.
    + constructor; [|done]. simpl. apply (done_Set_flag_defined name v f).
      by eexists.
    + rewrite !flag_value_cons. by apply done_Set_flag_value in Hset as ->.
Qed.

Lemma settings_cons_inv (x : string * string) o nvs :
  cons x <$> o = Some nvs → ∃ nvs', o = Some nvs' ∧ nvs = x :: nvs'.
Proof. destruct o; intros H; simplify_eq/=; eauto. Qed.

Lemma ctx_settings_Parse n : ∀ args nvs f,
  length args ≤ n → settings args = Some nvs →
  Forall (λ nv, nv.1 ∈ defined) nvs → is_Some (Ctx.Parse args f).
Proof.
  induction n as [|n IH]; intros [|s rest] nvs f Hlen Hs Hall; simpl in *;
    try lia; try by eexists.
  destruct (parseOne s) as [| | |name [v|]]; try done; try by eexists.
  - apply settings_cons_inv in Hs as (nvs' & Hs & ->).
    apply Forall_cons in Hall as [Hd Hall]. simpl in Hd.
    apply (ctx_Set_flag_defined name v f) in Hd as [f1 ->].
    apply (IH rest nvs'); [lia|done|done].
  - destruct rest as [|v rest']; [done|]. simpl in Hlen.
    apply settings_cons_inv in Hs as (nvs' & Hs & ->).
    apply Forall_cons in Hall as [Hd Hall]. simpl in Hd.
    apply (ctx_Set_flag_defined name v f) in Hd as [f1 ->].
    apply (IH rest' nvs'); [lia|done|done].
Qed.

Lemma done_settings_Parse n : ∀ args nvs f,
  length args ≤ n → settings args = Some nvs →
  Forall (λ nv, nv.1 ∈ defined0) nvs → is_Some (Done.Parse args f).
Proof.
  induction n as [|n IH]; intros [|s rest] nvs f Hlen Hs Hall; simpl in *;
    try lia; try by eexists.
  destruct (parseOne s) as [| | |name [v|]]; try done; try by eexists.
  - apply settings_cons_inv in Hs as (nvs' & Hs & ->).
    apply Forall_cons in Hall as [Hd Hall]. simpl in Hd.
    apply (done_Set_flag_defined name v f) in Hd as [f1 ->].
    apply (IH rest nvs'); [lia|done|done].
  - destruct rest as [|v rest']; [done|]. simpl in Hlen.
    apply settings_cons_inv in Hs as (nvs' & Hs & ->).
    apply Forall_cons in Hall as [Hd Hall]. simpl in Hd.
    apply (done_Set_flag_defined name v f) in Hd as [f1 ->].
    apply (IH rest' nvs'); [lia|done|done].
Qed.

(** Nothing after the first positional argument, or after ["--"], is read. *)
Lemma ctx_Parse_stop n : ∀ args nvs s rest f,
  length args ≤ n → settings args = Some nvs →
  parseOne s = Positional ∨ parseOne s = Terminator →
  Ctx.Parse (args ++ s :: rest) f = Ctx.Parse args f.
Proof.
  induction n as [|n IH]; intros [|a args] nvs s rest f Hlen Hs Hstop;
    simpl in *; try lia; try (by destruct Hstop as [-> | ->]).
  destruct (parseOne a) as [| | |name [v|]]; try done.
  - apply settings_cons_inv in Hs as (nvs' & Hs & ->).
    destruct (Ctx.Set_flag name v f) as [f1|]; [|done].
    apply (IH args nvs'); [lia|done|done].
  - destruct args as [|v args']; [done|]. simpl in *.
    apply settings_cons_inv in Hs as (nvs' & Hs & ->).
    destruct (Ctx.Set_flag name v f) as [f1|]; [|done].
    apply (IH args' nvs'); [lia|done|done].
Qed.

Lemma done_Parse_stop n : ∀ args nvs s rest f,
  length args ≤ n → settings args = Some nvs →
  parseOne s = Positional ∨ parseOne s = Terminator →
  Done.Parse (args ++ s :: rest) f = Done.Parse args f.
Proof.
  induction n as [|n IH]; intros [|a args] nvs s rest f Hlen Hs Hstop;
    simpl in *; try lia; try (by destruct Hstop as [-> | ->]).
  destruct (parseOne a) as [| | |name [v|]]; try done.
  - apply settings_cons_inv in Hs as (nvs' & Hs & ->).
    destruct (Done.Set_flag name v f) as [f1|]; [|done].
    apply (IH args nvs'); [lia|done|done].
  - destruct args as [|v args']; [done|]. simpl in *.
    apply settings_cons_inv in Hs as (nvs' & Hs & ->).
    destruct (Done.Set_flag name v f) as [f1|]; [|done].
    apply (IH args' nvs'); [lia|done|done].
Qed.

Lemma parseOne_defined n : n ∈ defined → parseOne ("-" +:+ n) = Named n None.
Proof. intros H. unfold defined in H. in_list H; reflexivity. Qed.

(** A defined flag left without its value, at the end of a command line that
    is otherwise in order. *)
Lemma ctx_Parse_missing_value n nvs : ∀ f,
  n ∈ defined → Forall (λ nv, nv.1 ∈ defined) nvs →
  Ctx.Parse (command_line nvs ++ ["-" +:+ n]) f = None.
Proof.
  intros f Hn Hall. revert f.
  induction Hall as [|[n' v] nvs Hd Hall IH]; intros f.
  - change (Ctx.Parse ["-" +:+ n] f = None). cbn [Ctx.Parse].
    by rewrite (parseOne_defined _ Hn).
  - simpl in Hd. change (command_line ((n', v) :: nvs) ++ ["-" +:+ n])
      with (("-" +:+ n') :: v :: (command_line nvs ++ ["-" +:+ n])).
    cbn [Ctx.Parse]. rewrite (parseOne_defined _ Hd).
    apply (ctx_Set_flag_defined n' v f) in Hd as [f1 ->]. apply IH.
Qed.

(** X14: [main] gets past its start exactly when the database opens and the
    command line, read as the flag package reads it, is well formed and sets
    only flags that [main] defines: [-db], [-port] and [-user-agent] in the
    context-based revision, [-db] and [-port] in the done-channel revision,
    which therefore refuses [-user-agent].  Each flag takes the value set
    last, and its default when it is not set.  Nothing after the first
    positional argument or after ["--"] is read, and a defined flag left
    without its value at the end of the command line ends the process. *)
Theorem main_starts_on_defined_flags :
  (∀ args ok,
     is_Some (Ctx.main args ok) ↔
     ok = true ∧
     ∃ nvs, settings args = Some nvs ∧ Forall (λ nv, nv.1 ∈ defined) nvs) ∧
  (∀ args nvs f,
     Ctx.Parse args Ctx.defaults = Some f → settings args = Some nvs →
     f = Ctx.Flags (flag_value "db" nvs "./bookmarks.db")
           (flag_value "port" nvs "8000")
           (flag_value "user-agent" nvs "bookmarks-alive-exporter/1.0")) ∧
  (∀ args ok,
     is_Some (Done.main args ok) ↔
     ok = true ∧
     ∃ nvs, settings args = Some nvs ∧ Forall (λ nv, nv.1 ∈ defined0) nvs) ∧
  (∀ args nvs f,
     Done.Parse args Done.defaults = Some f → settings args = Some nvs →
     f = Done.Flags (flag_value "db" nvs "./bookmarks.db")
           (flag_value "port" nvs "8000")) ∧
  (∀ args nvs v ok,
     settings args = Some nvs → ("user-agent", v) ∈ nvs →
     Done.main args ok = None) ∧
  (∀ args nvs s rest ok,
     settings args = Some nvs →
     parseOne s = Positional ∨ parseOne s = Terminator →
     Ctx.main (args ++ s :: rest) ok = Ctx.main args ok ∧
     Done.main (args ++ s :: rest) ok = Done.main args ok) ∧
  (∀ nvs n ok,
     Forall (λ nv, nv.1 ∈ defined) nvs → n ∈ defined →
     settings (command_line nvs) = Some nvs ∧
     Ctx.main (command_line nvs ++ ["-" +:+ n]) ok = None) ∧
  Ctx.main ["-port"] true = None ∧
  Done.main ["-db"; "b.db"; "-port"] true = None ∧
  is_Some (Ctx.main ["-port"; "9100"; "extra"; "-workers"; "50"] true) ∧
  is_Some (Done.main ["--port=9100"; "--"; "-user-agent"; "x"] true).
Proof.
  split_and!.
  - intros args ok. unfold Ctx.main. split.
    + destruct (Ctx.Parse args Ctx.defaults) as [f|] eqn:Hp;
        [|by intros [? ?]].
      destruct ok; [|by intros [? ?]]. intros _. split; [done|].
      destruct (ctx_Parse_settings _ _ _ _ (le_n _) Hp) as (nvs & ? & ? & _).
      eauto.
    + intros [-> (nvs & Hs & Hall)].
      destruct (ctx_settings_Parse _ args nvs Ctx.defaults (le_n _) Hs Hall)
        as [f ->]. by eexists.
  - intros args nvs f Hp Hs.
    destruct (ctx_Parse_settings _ _ _ _ (le_n _) Hp) as (nvs' & ? & _ & ->).
    by simplify_eq.
  - intros args ok. unfold Done.main. split.
    + destruct (Done.Parse args Done.defaults) as [f|] eqn:Hp;
        [|by intros [? ?]].
      destruct ok; [|by intros [? ?]]. intros _. split; [done|].
      destruct (done_Parse_settings _ _ _ _ (le_n _) Hp) as (nvs & ? & ? & _).
      eauto.
    + intros [-> (nvs & Hs & Hall)].
      destruct (done_settings_Parse _ args nvs Done.defaults (le_n _) Hs Hall)
        as [f ->]. by eexists.
  - intros args nvs f Hp Hs.
    destruct (done_Parse_settings _ _ _ _ (le_n _) Hp) as (nvs' & ? & _ & ->).
    by simplify_eq.
  - intros args nvs v ok Hs Hin. unfold Done.main.
    destruct (Done.Parse args Done.defaults) as [f|] eqn:Hp; [|done].
    exfalso.
    destruct (done_Parse_settings _ _ _ _ (le_n _) Hp) as (nvs' & ? & Hall & _).
    simplify_eq.
    pose proof (proj1 (Forall_forall _ _) Hall _ Hin) as Hd.
    unfold defined0 in Hd. simpl in Hd. in_list Hd.
  - intros args nvs s rest ok Hs Hstop. unfold Ctx.main, Done.main.
    by rewrite (ctx_Parse_stop _ args nvs s rest _ (le_n _) Hs Hstop),
      (done_Parse_stop _ args nvs s rest _ (le_n _) Hs Hstop).
  - intros nvs n ok Hall Hn. split.
    + clear Hn. induction Hall as [|[n' v] nvs Hd Hall IH]; [done|].
      simpl in Hd.
      change (command_line ((n', v) :: nvs))
        with (("-" +:+ n') :: v :: command_line nvs).
      cbn [settings]. by rewrite (parseOne_defined _ Hd), IH.
    + unfold Ctx.main. by rewrite ctx_Parse_missing_value.
  - reflexivity.
  - reflexivity.
  - vm_compute. by eexists.
  - vm_compute. by eexists.
Qed.

Lemma main_starts_on_defined_flags_witness :
  Ctx.Flags "/srv/b.db" "8000" "probe/2" =
  Ctx.Flags
    (flag_value "db" [("user-agent", "probe/1"); ("db", "/srv/b.db");
                      ("user-agent", "probe/2")] "./bookmarks.db")
    (flag_value "port" [("user-agent", "probe/1"); ("db", "/srv/b.db");
                        ("user-agent", "probe/2")] "8000")
    (flag_value "user-agent" [("user-agent", "probe/1"); ("db", "/srv/b.db");
                              ("user-agent", "probe/2")]
       "bookmarks-alive-exporter/1.0") ∧
  Done.main ["-db"; "/srv/b.db"; "-user-agent=probe/2"] true = None.
Proof.
  split.
  - apply (proj1 (proj2 main_starts_on_defined_flags)
             ["-user-agent"; "probe/1"; "--db=/srv/b.db";
              "-user-agent=probe/2"]); reflexivity.
  - apply (proj1 (proj2 (proj2 (proj2 (proj2 main_starts_on_defined_flags))))
             _ [("db", "/srv/b.db"); ("user-agent", "probe/2")] "probe/2");
      [reflexivity|by right; left].
Defined.

(** ** A lone scrape of more than 1000 URLs *)

Lemma history_all r tr : (∀ e, e ∈ tr → e.1 = r) → history r tr = tr.*2.
Proof.
  unfold history. induction tr as [|e tr IH]; intros H; [done|].
  rewrite filter_cons, decide_True by (apply H; by left).
  rewrite !fmap_cons. f_equal. apply IH. intros e' He'. apply H. by right.
Qed.

Lemma history0_all r tr : (∀ e, e ∈ tr → e.1 = r) → history0 r tr = tr.*2.
Proof.
  unfold history0. induction tr as [|e tr IH]; intros H; [done|].
  rewrite filter_cons, decide_True by (apply H; by left).
  rewrite !fmap_cons. f_equal. apply IH. intros e' He'. apply H. by right.
Qed.

Lemma ctx_lone_events r ls s0 c :
  Ctx.requests s0 = [] → Forall (lone r) ls →
  Ctx.exec ls (s0, []) = Some c →
  ∀ e, e ∈ c.2 → e.1 = r ∨ e.2 = Ctx.Responded InternalServerError.
Proof.
  intros H0 HL Hex.
  refine (ctx_exec_inv_on (lone r)
    (λ c, ∀ e, e ∈ c.2 → e.1 = r ∨ e.2 = Ctx.Responded InternalServerError)
    _ ls (s0, []) c HL _ Hex).
  2:{ intros e He. simpl in He. in_list He. }
  clear. intros [q|r' a] [s tr] s' es Hl HP Hs e He; simpl in *.
  - simplify_eq. apply elem_of_app in He as [He|He]; [by apply HP|].
    destruct q; simpl in He; in_list He. by right.
  - apply ctx_step_act in Hs as (ρ & ρ' & mc & g & os & Hr & Hrun & -> & ->).
    destruct Hl as [-> _].
    apply elem_of_app in He as [He|He]; [by apply HP|].
    apply list_elem_of_fmap in He as (o & -> & _). by left.
Qed.

Lemma done_lone_events r ls c :
  Forall (lone0 r) ls → Done.exec ls (boot0, []) = Some c →
  ∀ e, e ∈ c.2 → e.1 = r.
Proof.
  intros HL Hex.
  refine (done_exec_inv_on (lone0 r) (λ c, ∀ e, e ∈ c.2 → e.1 = r)
            _ ls (boot0, []) c HL _ Hex).
  2:{ intros e He. simpl in He. in_list He. }
  clear. intros [|r' a] [s tr] s' es Hl HP Hs e He; simpl in *.
  - simplify_eq. rewrite app_nil_r in He. by apply HP.
  - apply done_step_act in Hs as (ρ & ρ' & mc & g & os & Hr & Hrun & -> & ->).
    subst r'.
    apply elem_of_app in He as [He|He]; [by apply HP|].
    by apply list_elem_of_fmap in He as (o & -> & _).
Qed.

(** Nothing but the drain pass of a request receives for it, and the drain
    pass starts after the select. *)
Lemma done_select_first ls c r ρ :
  Done.exec ls (boot0, []) = Some c → Done.requests c.1 !! r = Some ρ →
  Done.hdl ρ = Done.Selecting → drained0 (history0 r c.2) = [].
Proof.
  intros Hex Hr.
  refine (done_history_inv
            (λ h ρ, Done.hdl ρ = Done.Selecting → drained0 h = [])
            _ _ ls c Hex r ρ Hr); [done|].
  clear. intros a ρ mc g ρ' mc' g' os h HI Hrun Hs.
  unfold drained0 in *. rewrite omap_app.
  destruct ρ as [q rs k f uc ws hd]. done_cases Hrun;
    rewrite ?HI by done; try done.
Qed.

Lemma done_finish_step a ρ mc g ρ' mc' g' os :
  Done.run_step a ρ mc g = Some (ρ', mc', g', os) →
  Done.coll ρ' = Done.Finished →
  Done.query ρ' = Done.query ρ ∧
  (Done.coll ρ = Done.Finished ∨
   (Done.hdl ρ = Done.Selecting ∧ Done.coll ρ = Done.Signalling)).
Proof.
  intros H Hf. destruct ρ as [q rs k f uc ws hd].
  done_cases H; simplify_eq; split; try done; by auto.
Qed.

Lemma done_lone_never_finishes r ls : ∀ c ρ,
  Forall (lone0 r) ls → Done.exec ls (boot0, []) = Some c →
  Done.requests c.1 !! r = Some ρ → 1000 < scanned (Done.query ρ) →
  Done.coll ρ ≠ Done.Finished.
Proof.
  induction ls as [|l ls IH] using rev_ind; intros c ρ HL Hex Hr Hbig.
  - simpl in Hex. by simplify_eq.
  - apply Forall_app in HL as [HL Hl]. apply Forall_cons in Hl as [Hl _].
    apply done_exec_snoc in Hex as (c1 & es & Hex1 & Hs & Htr).
    destruct c as [s tr]. simpl in *.
    destruct l as [|r' a]; simpl in Hl.
    + simpl in Hs. simplify_eq. simpl in Hr.
      apply lookup_app_Some in Hr as [Hr|[_ Hr]]; [by eapply IH|].
      apply list_lookup_singleton_Some in Hr as [_ <-]. done.
    + subst r'.
      apply done_step_act in Hs as (ρ1 & ρ' & mc & g & os & Hr1 & Hrun & Hc & ->).
      subst s. simpl in Hr.
      rewrite list_lookup_insert_eq in Hr by by eapply lookup_lt_Some.
      simplify_eq. intros Hf.
      destruct (done_finish_step _ _ _ _ _ _ _ _ Hrun Hf) as [Hq [Hf1|[Hsel Hsig]]].
      * rewrite Hq in Hbig. by eapply (IH c1 ρ1).
      * rewrite Hq in Hbig.
        pose proof (done_join_bound ls c1 r ρ1 Hex1 Hr1 (or_introl Hsig)) as Hb.
        rewrite <- (history0_all r c1.2) in Hb
          by (by apply (done_lone_events r ls)).
        rewrite (done_select_first ls c1 r ρ1 Hex1 Hr1 Hsel) in Hb.
        simpl in Hb. lia.
Qed.

Lemma done_completed_finished ls c r ρ :
  Done.exec ls (boot0, []) = Some c → Done.requests c.1 !! r = Some ρ →
  Done.Completed ∈ history0 r c.2 → Done.coll ρ = Done.Finished.
Proof.
  intros Hex Hr.
  refine (done_history_inv
            (λ h ρ, Done.Completed ∈ h → Done.coll ρ = Done.Finished)
            _ _ ls c Hex r ρ Hr); [intros Hx; in_list Hx|].
  clear. intros a ρ mc g ρ' mc' g' os h HI Hrun Hx.
  apply elem_of_app in Hx as [Hx|Hx].
  - specialize (HI Hx). destruct ρ as [q rs k f uc ws hd]. simpl in HI. subst k.
    done_cases Hrun; done.
  - destruct ρ as [q rs k f uc ws hd]. done_cases Hrun; in_list Hx; done.
Qed.

(** X15: in the done-channel revision, while only one request moves, a run
    over more than 1000 rows that scan never completes: its collector does
    not finish and no completion is logged for it. *)
Theorem lone_big_scrape_never_completes0 args ok s0 ls c r ρ :
  Done.main args ok = Some s0 → Done.exec ls (s0, []) = Some c →
  Forall (lone0 r) ls →
  Done.requests c.1 !! r = Some ρ → 1000 < scanned (Done.query ρ) →
  Done.coll ρ ≠ Done.Finished ∧ ((r, Done.Completed) ∉ c.2).
Proof.
  intros Hm Hex HL Hr Hbig. apply done_main_start in Hm as ->.
  pose proof (done_lone_never_finishes r ls c ρ HL Hex Hr Hbig) as Hnf.
  split; [done|]. intros Hin. apply Hnf.
  apply (done_completed_finished ls c r ρ Hex Hr).
  by apply elem_of_history0.
Qed.

Lemma lone_big_scrape_never_completes0_witness :
  Done.Joining ≠ Done.Finished ∧ ((0, Done.Completed) ∉ (after0 big_lone0).2).
Proof.
  apply (lone_big_scrape_never_completes0 [] true boot0 big_lone0
           (after0 big_lone0) 0
           (Done.Run big_store big_store Done.Joining Done.AtNext (make 100)
              (replicate 20 Done.AtRange) Done.Selecting)).
  - reflexivity.
  - vm_compute. reflexivity.
  - repeat constructor.
  - vm_compute. reflexivity.
  - change (1000 < 1001). lia.
Defined.

Lemma drained_lone r tr :
  (∀ e, e ∈ tr → e.1 = r ∨ e.2 = Ctx.Responded InternalServerError) →
  drained tr.*2 = drained (history r tr).
Proof.
  unfold drained, history. induction tr as [|[r' o] tr IH]; intros H; [done|].
  rewrite filter_cons, fmap_cons. csimpl.
  rewrite IH by (intros e He; apply H; by right).
  destruct (H (r', o) (list_elem_of_here _ _)) as [Hr|Ho]; simpl in *.
  - subst r'. by rewrite decide_True.
  - subst o. by case_decide.
Qed.

Lemma ctx_wait_step ua a ρ mc g ρ' mc' g' os :
  Ctx.hdl ρ = Ctx.Waiting →
  Ctx.run_step ua a ρ mc g = Some (ρ', mc', g', os) → drained os = [].
Proof.
  intros Hw H. destruct ρ as [q rs f uc ws d hd]. simpl in Hw. subst hd.
  ctx_cases H; done.
Qed.

Lemma ctx_wait_first ls s0 c r ρ :
  Ctx.requests s0 = [] → Ctx.exec ls (s0, []) = Some c →
  Ctx.requests c.1 !! r = Some ρ →
  Ctx.hdl ρ = Ctx.Waiting → drained (history r c.2) = [].
Proof.
  intros H0 Hex Hr.
  refine (ctx_history_inv
            (λ h ρ, Ctx.hdl ρ = Ctx.Waiting → drained h = [])
            _ _ ls s0 c H0 Hex r ρ Hr); [by intros [rs|]|].
  clear. intros ua a ρ mc g ρ' mc' g' os h HI Hrun Hs.
  unfold drained in *. rewrite omap_app.
  destruct ρ as [q rs f uc ws d hd]. ctx_cases Hrun;
    rewrite ?HI by done; try done.
Qed.

Lemma lone_no_deadline r ls :
  Forall (lone r) ls → Forall (λ l, l ≠ Ctx.Act r Ctx.Deadline) ls.
Proof.
  intros H. eapply Forall_impl; [exact H|].
  intros [q|r' a]; simpl; [done|]. intros [_ Ha] ?. by simplify_eq.
Qed.

Lemma ctx_lone_never_joins r ls : ∀ s0 c ρ,
  Ctx.requests s0 = [] → Ctx.metricsChan s0 = make 1000 →
  Forall (lone r) ls → Ctx.exec ls (s0, []) = Some c →
  Ctx.requests c.1 !! r = Some ρ → 1000 < scanned (Ctx.query ρ) →
  Ctx.hdl ρ = Ctx.Waiting.
Proof.
  induction ls as [|l ls IH] using rev_ind; intros s0 c ρ H0 Hc HL Hex Hr Hbig.
  - simpl in Hex. simplify_eq. simpl in Hr. by rewrite H0 in Hr.
  - pose proof (lone_no_deadline _ _ HL) as HD.
    pose proof (ctx_lone_events r _ s0 c H0 HL Hex) as Hev.
    pose proof Hex as Hex'. pose proof Hr as Hr'.
    apply Forall_app in HL as [HL Hl]. apply Forall_cons in Hl as [Hl _].
    apply ctx_exec_snoc in Hex as (c1 & es & Hex1 & Hs & Htr).
    destruct c as [s tr]. simpl in Hs, Htr, Hr, Hev.
    destruct l as [q|r' a]; simpl in Hl.
    + simpl in Hs. simplify_eq. simpl in Hr.
      apply lookup_app_Some in Hr as [Hr|[_ Hr]]; [by eapply IH|].
      apply list_lookup_singleton_Some in Hr as [_ <-].
      destruct q as [rs|]; [done|]. unfold scanned in Hbig.
      simpl in Hbig. lia.
    + destruct Hl as [-> Ha].
      apply ctx_step_act in Hs as (ρ1 & ρ' & mc & g & os & Hr1 & Hrun & Hc1 & ->).
      rewrite Hc1 in Hr. simpl in Hr.
      rewrite list_lookup_insert_eq in Hr by by eapply lookup_lt_Some.
      simplify_eq.
      pose proof (ctx_query_fixed _ _ _ _ _ _ _ _ _ Hrun) as Hq.
      assert (Ctx.hdl ρ1 = Ctx.Waiting) as Hw1.
      { eapply (IH s0 c1 ρ1); try done. by rewrite <- Hq. }
      destruct (Ctx.hdl ρ) eqn:Hh; [done|exfalso..].
      all: assert (Ctx.hdl ρ ≠ Ctx.Waiting) as Hnw by (by rewrite Hh).
      all: pose proof (ctx_join_bound _ s0 _ r ρ H0 Hc Hex' HD Hr' Hnw) as Hb.
      all: simpl in Hb; rewrite (drained_lone r _ Hev) in Hb.
      all: rewrite history_app, history_of_run, decide_True in Hb by done.
      all: unfold drained in Hb; rewrite omap_app in Hb.
      all: fold (drained (history r c1.2)) in Hb; fold (drained os) in Hb.
      all: rewrite (ctx_wait_first ls s0 c1 r ρ1 H0 Hex1 Hr1 Hw1) in Hb.
      all: rewrite (ctx_wait_step _ _ _ _ _ _ _ _ _ Hw1 Hrun) in Hb.
      all: simpl in Hb; lia.
Qed.

(** X16: in the context-based revision, while only one request moves and
    its context is not cancelled, a run over more than 1000 rows that scan
    never gets past [wg.Wait()], and the request is not answered. *)
Theorem lone_big_scrape_never_joins args ok s0 ls c r ρ :
  Ctx.main args ok = Some s0 → Ctx.exec ls (s0, []) = Some c →
  Forall (lone r) ls →
  Ctx.requests c.1 !! r = Some ρ → 1000 < scanned (Ctx.query ρ) →
  Ctx.hdl ρ = Ctx.Waiting ∧ ∀ x, (r, Ctx.Responded x) ∉ c.2.
Proof.
  intros Hm Hex HL Hr Hbig. apply ctx_main_start in Hm as (H0 & _ & Hc).
  pose proof (ctx_lone_never_joins r ls s0 c ρ H0 Hc HL Hex Hr Hbig) as Hw.
  split; [done|]. intros x Hin.
  apply elem_of_history in Hin.
  destruct (ctx_reply_recorded ls s0 c r ρ H0 Hex Hr) as [_ HI].
  unfold reply_recorded in HI. rewrite Hw in HI.
  assert (x ∈ responses (history r c.2)) as Hx.
  { unfold responses. apply list_elem_of_omap. by exists (Ctx.Responded x). }
  rewrite HI in Hx. in_list Hx.
Qed.

Lemma lone_big_scrape_never_joins_witness :
  Ctx.Waiting = Ctx.Waiting ∧ ∀ x, (0, Ctx.Responded x) ∉ (after big_lone).2.
Proof.
  apply (lone_big_scrape_never_joins [] true boot big_lone (after big_lone) 0
           (Ctx.Run big_store big_store Ctx.AtNext (make 100)
              (replicate 20 Ctx.AtSelect) false Ctx.Waiting)).
  - reflexivity.
  - vm_compute. reflexivity.
  - repeat constructor.
  - vm_compute. reflexivity.
  - change (1000 < 1001). lia.
Defined.

(** * A run that no other drain pass disturbs *)

Lemma last_applied_elem u v tr :
  last_applied u tr = Some v → applied_in tr u v.
Proof.
  unfold applied_in. induction tr as [|[r o] tr IH]; simpl; [done|].
  destruct (last_applied u tr) as [v'|].
  - intros ?. simplify_eq. destruct (IH eq_refl) as [r' Hr']. exists r'.
    by right.
  - destruct o as [| | | |m|]; try done. case_decide; [|done]. intros ?.
    destruct m as [u' v']. simpl in *. simplify_eq. exists r. by left.
Qed.

Lemma last_applied_is_Some r m tr :
  (r, Ctx.Applied m) ∈ tr → is_Some (last_applied (url m) tr).
Proof.
  induction tr as [|e tr IH]; intros Hin; [in_list Hin|]. simpl.
  apply elem_of_cons in Hin as [<-|Hin].
  - simpl. destruct (last_applied (url m) tr); [by eexists|].
    rewrite decide_True by done. by eexists.
  - destruct (IH Hin) as [v ->]. by eexists.
Qed.

Lemma set_in_app tr es u : set_in tr u → set_in (tr ++ es) u.
Proof.
  unfold set_in. rewrite last_applied_app. intros [v ->].
  destruct (last_applied u es); by eexists.
Qed.

Lemma applied_in_app tr es u v : applied_in tr u v → applied_in (tr ++ es) u v.
Proof. intros [r Hr]. exists r. apply elem_of_app. by left. Qed.

Lemma answered_inert ua a ρ mc g A B :
  answered ρ A B → a ≠ Ctx.Deadline → Ctx.run_step ua a ρ mc g = None.
Proof.
  intros ((body & Hh & _) & Hf & Hall & _) Hne. destruct ρ as [q rs f uc ws d h].
  simpl in *. subst. destruct a as [|fa|i wa|ha]; [done| | |].
  - by destruct fa.
  - simpl. destruct (ws !! i) as [w|] eqn:Hw; [|done].
    rewrite (ctx_all_exited _ _ _ Hall Hw). by destruct wa.
  - by destruct ha.
Qed.

(** Once joined, nothing of the run is left outside [metricsChan], the
    handler and the gauge store. *)
Lemma collecting_joined ρ mc A :
  collecting ρ mc A → Ctx.hdl ρ ≠ Ctx.Waiting →
  Ctx.feed ρ = Ctx.Returned ∧ Ctx.rows ρ = [] ∧ buf (Ctx.urlChan ρ) = [] ∧
  forallb Ctx.is_exited (Ctx.workers ρ) = true.
Proof.
  intros (Hd & Hr & Hcov & H3 & H4 & H5 & H6 & H7 & H8) Hh.
  specialize (H6 Hh). destruct (Ctx.workers ρ) as [|w ws] eqn:Hws; [done|].
  assert (w = Ctx.Exited) as -> by by apply (ctx_all_exited _ 0 _ H6).
  destruct H5 as [Hc Hb]; [by left|]. auto.
Qed.

Lemma collecting_settled ρ mc A u :
  collecting ρ mc A → Ctx.hdl ρ = Ctx.Draining → buf mc = [] →
  Scanned u ∈ Ctx.query ρ → A u.
Proof.
  intros Hc Hh Hb Hu.
  destruct (collecting_joined _ _ _ Hc) as (Hf & Hrs & Hub & Hall);
    [by rewrite Hh|].
  destruct Hc as (_ & _ & Hcov & _).
  specialize (Hcov u Hu). unfold covered in Hcov.
  rewrite Hf, Hrs, Hub, Hb, Hh in Hcov.
  destruct Hcov as [Hc|[Hc|[Hc|[Hc|[[v Hc]|[[v Hc]|[[v Hc]|[[v Hc]|Hc]]]]]]]];
    try done; try (by apply elem_of_nil in Hc).
  - apply list_elem_of_lookup in Hc as [j Hj].
    by apply (ctx_all_exited _ _ _ Hall) in Hj.
  - apply list_elem_of_lookup in Hc as [j Hj].
    by apply (ctx_all_exited _ _ _ Hall) in Hj.
Qed.

Lemma collecting_mono ρ mc mc' more (A A' : string → Prop) :
  collecting ρ mc A → buf mc' = buf mc ++ more → (∀ u, A u → A' u) →
  collecting ρ mc' A'.
Proof.
  intros (Hd & Hr & Hcov & H3 & H4 & H5 & H6 & H7 & H8) Hmc HA.
  unfold collecting. split_and!; try done.
  - intros u Hu. specialize (Hcov u Hu). unfold covered in *.
    rewrite Hmc. set_unfold. split_hyp Hcov; pick.
  - intros Hh u Hu. apply HA. by apply H7.
Qed.

Lemma collecting_feed ua fa ρ mc g ρ' mc' g' os A :
  collecting ρ mc A →
  Ctx.run_step ua (Ctx.Feed fa) ρ mc g = Some (ρ', mc', g', os) →
  collecting ρ' mc' A ∧ os = [].
Proof.
  intros (Hd & Hr & Hcov & H3 & H4 & H5 & H6 & H7 & H8) H.
  destruct ρ as [q rs f [b n cl] ws d h]. simpl in *. subst d.
  unfold collecting, covered in *. simpl in *.
  destruct f, fa; simpl in H; try done.
  - destruct rs as [|[u'|] rs']; simplify_eq; simpl; (split; [|done]);
      (split_and!; [done|done|cov_feed Hcov|solve [chain]..]).
  - unfold send in H. simpl in H. case_decide; [|done]. simplify_eq. simpl.
    split; [|done].
    split_and!; [done|done|cov_feed Hcov|solve [chain]..].
Qed.

Lemma collecting_work ua i wa ρ mc g ρ' mc' g' os A :
  collecting ρ mc A →
  Ctx.run_step ua (Ctx.Work i wa) ρ mc g = Some (ρ', mc', g', os) →
  collecting ρ' mc' A ∧ ∀ m, Ctx.Applied m ∉ os.
Proof.
  intros (Hd & Hr & Hcov & H3 & H4 & H5 & H6 & H7 & H8) H.
  destruct ρ as [q rs f [b n cl] ws d h]. simpl in *. subst d.
  destruct (ws !! i) as [w|] eqn:Hw; [|done].
  destruct (Ctx.urlChecker ua false wa w _ mc) as [[[[w' uc'] mc1] os1]|] eqn:Hu;
    [|done].
  simplify_eq.
  assert (h = Ctx.Waiting) as ->.
  { destruct h; try done; exfalso;
      (assert (w = Ctx.Exited) as ->
         by (eapply ctx_all_exited; [apply H6; done|done]));
      by destruct wa. }
  pose proof (lookup_lt_Some _ _ _ Hw) as Hlt.
  pose proof (list_elem_of_insert ws i w' Hlt) as Hnew.
  assert (∀ x, x ∈ <[i := w']> ws → x = w' ∨ x ∈ ws) as Hin1
    by (intros x; apply elem_of_insert_inv).
  assert (∀ x, x ∈ ws → x = w ∨ x ∈ <[i := w']> ws) as Hin2.
  { intros x Hx. destruct (elem_of_insert_cases ws i x w' Hx) as [Hx'|Hx'];
      [left; congruence|by right]. }
  assert (length (<[i := w']> ws) = workerCount) as Hlen
    by by rewrite length_insert.
  unfold collecting, covered in *. simpl in *.
  revert Hnew Hin1 Hin2 Hlen. generalize (<[i := w']> ws).
  intros ws' Hnew Hin1 Hin2 Hlen.
  unfold Ctx.urlChecker, send, recv in Hu. simpl in Hu.
  destruct mc as [bm nm clm].
  destruct w, wa; simpl in Hu; try done; repeat case_match; simplify_eq;
    simpl in *.
  all: (split; [|intros m0 Hm0; in_list Hm0]).
  all: split_and!; [done|done| |try solve [clear Hin1 Hin2; chain]..].
  all: try (intros u' Hu'; specialize (Hcov u' Hu'); set_unfold).
  all: try (intros He; apply Hin1 in He as [He|He]; [done|]; clear Hin1 Hin2;
            solve [chain]).
  all: destruct Hcov as [Hc|[Hc|[Hc|[Hc|[[v Hc]|Hc]]]]];
    try (apply Hin2 in Hc as [Hc|Hc]); split_hyp Hc; simplify_eq; pick.
Qed.

Lemma collecting_handle ua ha ρ mc g ρ' mc' g' os (A A' : string → Prop) B :
  collecting ρ mc A →
  (∀ u, A u → A' u) →
  (∀ m, Ctx.Applied m ∈ os → A' (url m)) →
  (∀ u, A u → ∃ v, g !! u = Some v ∧ B u v) →
  Ctx.run_step ua (Ctx.Handle ha) ρ mc g = Some (ρ', mc', g', os) →
  undisturbed ρ' mc' A' B.
Proof.
  intros Hcol HA Happ Hserve H.
  pose proof (λ u h1 h2 h3, HA u (collecting_settled ρ mc A u Hcol h1 h2 h3))
    as Hset.
  pose proof (collecting_joined ρ mc A Hcol) as Hjoin.
  destruct Hcol as (Hd & Hr & Hcov & H3 & H4 & H5 & H6 & H7 & H8).
  destruct ρ as [q rs f [b n cl] ws d h]. simpl in *. subst d.
  destruct mc as [bm nm clm].
  unfold undisturbed, collecting, answered, covered in *. simpl in *.
  destruct ha; simpl in H.
  - (* HJoin *)
    destruct h; try done. case_match; [|done]. simplify_eq. left. simpl.
    split_and!; [done|done| |try solve [chain]..].
    intros u Hu. specialize (Hcov u Hu). split_hyp Hcov; simplify_eq; pick.
  - (* HDone *) by destruct h.
  - (* HRecv *)
    destruct h; try done. unfold Ctx.updateMetrics, recv in H. simpl in H.
    repeat case_match; simplify_eq; left; simpl.
    all: split_and!; [done|done| |try solve [chain]..].
    all: try (intros u Hu; specialize (Hcov u Hu); set_unfold; split_hyp Hcov;
              simplify_eq; pick).
  - (* HDefault *)
    destruct h; try done. unfold Ctx.updateMetrics, recv in H. simpl in H.
    repeat case_match; simplify_eq; left; simpl.
    all: split_and!; [done|done| |try solve [chain]..].
    all: try (intros u Hu; specialize (Hcov u Hu); set_unfold; split_hyp Hcov;
              simplify_eq; pick).
  - (* HLabel *)
    destruct h; simpl in H; try done. simplify_eq. left. simpl.
    split_and!; [done|done| |try solve [chain]..].
    intros u Hu. specialize (Hcov u Hu). split_hyp Hcov; simplify_eq; pick.
  - (* HApply *)
    destruct h; simpl in H; try done. simplify_eq. left. simpl.
    split_and!; [done|done| |try solve [chain]..].
    intros u Hu. specialize (Hcov u Hu).
    assert (A' (url m)) as Hm by (apply Happ; by left).
    split_hyp Hcov; simplify_eq; pick.
  - (* HServe *)
    destruct h; simpl in H; try done. simplify_eq. right. simpl.
    destruct Hjoin as (-> & _ & _ & Hall); [done|].
    specialize (H7 eq_refl).
    split_and!; try done; [|by auto].
    eexists. split; [done|]. intros u Hu.
    destruct (Hserve u (H7 u Hu)) as (v & Hv & HB). exists v.
    split; [by apply elem_of_exposition|done].
Qed.

Lemma undisturbed_mono ρ mc mc' more (A A' : string → Prop)
    (B B' : string → Z → Prop) :
  undisturbed ρ mc A B → buf mc' = buf mc ++ more →
  (∀ u, A u → A' u) → (∀ u v, B u v → B' u v) →
  undisturbed ρ mc' A' B'.
Proof.
  intros [Hc|Ha] Hmc HA HB.
  - left. by eapply collecting_mono.
  - right. destruct Ha as ((body & Hh & Hb) & Hf & Hall & Hin).
    unfold answered. split_and!; try done; [|by auto].
    exists body. split; [done|]. intros u Hu.
    destruct (Hb u Hu) as (v & Hv & HBv). exists v. auto.
Qed.

Lemma undisturbed_step ua a ρ mc g ρ' mc' g' os
    (A A' : string → Prop) (B B' : string → Z → Prop) :
  a ≠ Ctx.Deadline → undisturbed ρ mc A B →
  (∀ u, A u → A' u) → (∀ u v, B u v → B' u v) →
  (∀ m, Ctx.Applied m ∈ os → A' (url m)) →
  (∀ u, A u → ∃ v, g !! u = Some v ∧ B' u v) →
  Ctx.run_step ua a ρ mc g = Some (ρ', mc', g', os) →
  undisturbed ρ' mc' A' B'.
Proof.
  intros Hne [Hc|Ha] HA HB Happ Hserve H.
  - destruct a as [|fa|i wa|ha]; [done| | |].
    + left. destruct (collecting_feed _ _ _ _ _ _ _ _ _ _ Hc H) as [Hc' _].
      eapply (collecting_mono _ _ _ []); [done|by rewrite app_nil_r|done].
    + left. destruct (collecting_work _ _ _ _ _ _ _ _ _ _ _ Hc H) as [Hc' _].
      eapply (collecting_mono _ _ _ []); [done|by rewrite app_nil_r|done].
    + by eapply collecting_handle.
  - by rewrite (answered_inert _ _ _ _ _ _ _ Ha Hne) in H.
Qed.

(** What another request does to [metricsChan] when it does not receive
    from it: it appends. *)
Lemma ctx_other_step ua a ρ mc g ρ' mc' g' os :
  a ≠ Ctx.Handle Ctx.HRecv →
  Ctx.run_step ua a ρ mc g = Some (ρ', mc', g', os) →
  ∃ more, buf mc' = buf mc ++ more.
Proof.
  intros Hne H. destruct ρ as [q rs f uc ws d h], mc as [bm nm clm].
  destruct a as [|fa|i wa|ha].
  - ctx_cases H. exists []. by rewrite app_nil_r.
  - ctx_cases H; exists []; by rewrite app_nil_r.
  - ctx_cases H; first [by eexists | exists []; by rewrite app_nil_r].
  - destruct ha; try (by destruct Hne); ctx_cases H;
      exists []; by rewrite ?app_nil_r.
Qed.

Lemma undisturbed_exec r rs ls : ∀ c c',
  Forall (spares r) ls → Ctx.exec ls c = Some c' →
  (∀ u, Ctx.urlStatus c.1 !! u = held (last_applied u c.2) (created u c.1)) →
  (∃ ρ, Ctx.requests c.1 !! r = Some ρ ∧ Ctx.query ρ = rs ∧
        undisturbed ρ (Ctx.metricsChan c.1) (set_in c.2) (applied_in c.2)) →
  ∃ ρ, Ctx.requests c'.1 !! r = Some ρ ∧ Ctx.query ρ = rs ∧
       undisturbed ρ (Ctx.metricsChan c'.1) (set_in c'.2) (applied_in c'.2).
Proof.
  induction ls as [|l ls IH]; intros [s tr] c' Hal Hex Hg Hinv; simpl in *.
  - by simplify_eq.
  - apply Forall_cons in Hal as [Hl Hal].
    destruct (Ctx.step l s) as [[s1 es]|] eqn:Hs; [|done].
    apply (IH _ _ Hal Hex); simpl; [by eapply ctx_gauge_step|].
    clear IH Hex Hal.
    destruct Hinv as (ρ & Hr & Hq & Hu). destruct l as [q|r' a].
    + simpl in Hs. simplify_eq. simpl. exists ρ. split_and!; try done.
      * by rewrite lookup_app_l by by eapply lookup_lt_Some.
      * eapply (undisturbed_mono _ _ _ []); [done|by rewrite app_nil_r| |].
        -- intros u. apply set_in_app.
        -- intros u v. apply applied_in_app.
    + apply ctx_step_act in Hs as (ρ0 & ρ' & mc & g & os & Hr' & Hrun & -> & ->).
      simpl in Hl. simpl. case_decide as Heq.
      * subst r'. simplify_eq. exists ρ'. split_and!.
        -- apply list_lookup_insert_eq. by eapply lookup_lt_Some.
        -- by eapply ctx_query_fixed.
        -- eapply (undisturbed_step _ _ _ _ _ _ _ _ _ (set_in tr) _
                     (applied_in tr)); [done|done| | | | |done].
           ++ intros u. apply set_in_app.
           ++ intros u v. apply applied_in_app.
           ++ intros m Hm. apply (last_applied_is_Some r).
              apply elem_of_app. right. apply list_elem_of_fmap. eauto.
           ++ intros u [v Hv]. exists v. split.
              ** by rewrite Hg, Hv.
              ** apply applied_in_app. by apply last_applied_elem.
      * exists ρ. split_and!; try done.
        -- by rewrite list_lookup_insert_ne.
        -- destruct (ctx_other_step _ _ _ _ _ _ _ _ _ Hl Hrun) as [more Hm].
           eapply undisturbed_mono; [done|done| |].
           ++ intros u. apply set_in_app.
           ++ intros u v. apply applied_in_app.
Qed.

(** *** The results of an undisturbed run fit [metricsChan] *)

Lemma probed_weight_one os :
  sum_list_with (probed_weight (λ _, 1)) os = sum_list_with is_probed os.
Proof. induction os as [|o os IH]; [done|]. simpl. rewrite IH. by destruct o. Qed.

Lemma sent_length os : length (sent os) = sum_list_with is_sent os.
Proof.
  unfold sent. induction os as [|o os IH]; [done|]. csimpl.
  destruct o; simpl; lia.
Qed.

Lemma ctx_waiting_step ua a ρ mc g ρ' mc' g' os :
  Ctx.hdl ρ = Ctx.Waiting → a ≠ Ctx.Deadline →
  Ctx.run_step ua a ρ mc g = Some (ρ', mc', g', os) →
  (Ctx.hdl ρ' = Ctx.Waiting ∧ Ctx.ctxDone ρ' = Ctx.ctxDone ρ) ∨
  (Ctx.hdl ρ' ≠ Ctx.Waiting ∧ forallb Ctx.is_exited (Ctx.workers ρ') = true ∧
   os = [] ∧ mc' = mc).
Proof.
  intros Hw Hne H. destruct ρ as [q rs f uc ws d hd]. simpl in Hw. subst hd.
  destruct a as [|fa|i wa|ha]; [done| | |].
  - ctx_cases H; by left.
  - ctx_cases H; by left.
  - destruct ha; ctx_cases H. by right.
Qed.

Lemma ctx_joined_stays ua a ρ mc g ρ' mc' g' os :
  Ctx.hdl ρ ≠ Ctx.Waiting →
  Ctx.run_step ua a ρ mc g = Some (ρ', mc', g', os) → Ctx.hdl ρ' ≠ Ctx.Waiting.
Proof.
  intros Hw H. destruct ρ as [q rs f uc ws d hd]. simpl in Hw.
  destruct a as [|fa|i wa|ha]; ctx_cases H; done.
Qed.

Lemma ctx_fits_step ua a ρ mc g ρ' mc' g' os b :
  a ≠ Ctx.Deadline → length (buf mc) ≤ 1000 → fits b ρ mc →
  Ctx.run_step ua a ρ mc g = Some (ρ', mc', g', os) → fits b ρ' mc'.
Proof.
  intros Hne Hroom [(Hw & Hd & Ho & Hle)|(Hw & Hle)] H.
  - destruct (ctx_awaiting_step (λ _, 1) _ _ _ _ _ _ _ _ _ Hd H) as [Hq Haw].
    destruct (ctx_results_step _ _ _ _ _ _ _ _ _ H) as (Hres & Hdrop & _).
    pose proof (ctx_fifo_step _ _ _ _ _ _ _ _ _ H) as Hfifo.
    pose proof (ctx_orderly_step _ _ _ _ _ _ _ _ _ Ho Hd H) as Ho'.
    pose proof (ctx_wait_step _ _ _ _ _ _ _ _ _ Hw H) as Hdr.
    apply (f_equal length) in Hfifo.
    rewrite Hdr, !length_app, sent_length in Hfifo. simpl in Hfifo.
    rewrite probed_weight_one in Haw.
    assert (sum_list_with is_dropped os = 0) as Hz.
    { destruct (sum_list_with is_dropped os) eqn:E; [done|].
      rewrite Hdrop in Hd by lia. done. }
    destruct (ctx_waiting_step _ _ _ _ _ _ _ _ _ Hw Hne H)
      as [(Hw' & Hd')|(Hw' & Hex & -> & ->)].
    + left. rewrite Hq. split_and!; [done|congruence|done|lia].
    + right. split; [done|]. rewrite Hq.
      pose proof (ctx_settled (λ _, 1) _ Ho' Hex).
      pose proof (holding_exited _ Hex). simpl in *. lia.
  - right. split; [by eapply ctx_joined_stays|].
    by rewrite (ctx_query_fixed _ _ _ _ _ _ _ _ _ H).
Qed.

Lemma fits_more b ρ mc mc' more :
  fits b ρ mc → buf mc' = buf mc ++ more → fits b ρ mc'.
Proof.
  intros [(Hw & Hd & Ho & Hle)|H] Hmc; [left|by right].
  split_and!; try done. rewrite Hmc, length_app. lia.
Qed.

Lemma ctx_fits_exec r b ls : ∀ c c',
  Forall (spares r) ls → Ctx.exec ls c = Some c' →
  length (buf (Ctx.metricsChan c.1)) ≤ cap (Ctx.metricsChan c.1) →
  cap (Ctx.metricsChan c.1) = 1000 →
  (∃ ρ, Ctx.requests c.1 !! r = Some ρ ∧ fits b ρ (Ctx.metricsChan c.1)) →
  ∃ ρ, Ctx.requests c'.1 !! r = Some ρ ∧ fits b ρ (Ctx.metricsChan c'.1).
Proof.
  induction ls as [|l ls IH]; intros [s tr] c' Hal Hex Hroom Hcap Hinv;
    simpl in *.
  - by simplify_eq.
  - apply Forall_cons in Hal as [Hl Hal].
    destruct (Ctx.step l s) as [[s1 es]|] eqn:Hs; [|done].
    destruct Hinv as (ρ & Hr & Hf). destruct l as [q|r' a].
    + simpl in Hs. simplify_eq. apply (IH _ _ Hal Hex); simpl; try done.
      exists ρ. split; [|done].
      by rewrite lookup_app_l by by eapply lookup_lt_Some.
    + apply ctx_step_act in Hs as (ρ0 & ρ' & mc & g & os & Hr' & Hrun & -> & ->).
      destruct (ctx_chan_shape _ _ _ _ _ _ _ _ _ Hrun) as [Hcap' _].
      pose proof (ctx_chan_room _ _ _ _ _ _ _ _ _ Hrun Hroom) as Hroom'.
      apply (IH _ _ Hal Hex); simpl; [done|congruence|].
      simpl in Hl. case_decide as Heq.
      * subst r'. simplify_eq. exists ρ'. split.
        -- apply list_lookup_insert_eq. by eapply lookup_lt_Some.
        -- eapply ctx_fits_step; [done| |done|done]. lia.
      * exists ρ. split; [by rewrite list_lookup_insert_ne|].
        destruct (ctx_other_step _ _ _ _ _ _ _ _ _ Hl Hrun) as [more Hm].
        by eapply fits_more.
Qed.

Lemma fresh_fits rs mc :
  fits (length (buf mc))
    (Ctx.Run rs rs Ctx.AtNext (make 100)
       (replicate workerCount Ctx.AtSelect) false Ctx.Waiting) mc.
Proof.
  left. unfold orderly, awaiting, holding, scanned. simpl.
  split_and!; try done; try lia.
  intros He. in_list He.
Qed.

Lemma fresh_collecting rs mc A :
  collecting (Ctx.Run rs rs Ctx.AtNext (make 100)
                (replicate workerCount Ctx.AtSelect) false Ctx.Waiting) mc A.
Proof.
  unfold collecting, covered. simpl. split_and!; try done.
  - intros u Hu. by left.
  - intros He. in_list He.
Qed.

Lemma ctx_exec_cons l ls c c' :
  Ctx.exec (l :: ls) c = Some c' →
  ∃ s1 es, Ctx.step l c.1 = Some (s1, es) ∧ Ctx.exec ls (s1, c.2 ++ es) = Some c'.
Proof.
  simpl. destruct (Ctx.step l c.1) as [[s1 es]|]; [|done]. eauto.
Qed.

Lemma ctx_scrape_fresh rs s s1 es :
  Ctx.step (Ctx.Scrape (Some rs)) s = Some (s1, es) →
  Ctx.metricsChan s1 = Ctx.metricsChan s ∧
  Ctx.urlStatus s1 = Ctx.urlStatus s ∧
  Ctx.requests s1 =
    Ctx.requests s ++ [Ctx.Run rs rs Ctx.AtNext (make 100)
                         (replicate workerCount Ctx.AtSelect) false Ctx.Waiting].
Proof. intros H. simpl in H. by simplify_eq. Qed.

(** C1 (as the code has it): take any reachable state of the context-based
    revision, a scrape whose query returns [rs], and then any schedule in
    which the context of that request does not become done and no other
    request's drain pass receives from [metricsChan]; other scrapes may arrive
    and collect meanwhile.  If the request has answered at the end, every URL
    listed in [rs] has an entry in the gauge store and a line in the answer.
    The stored value and the value of the line are each what [checkURL]
    returned, under the configured user agent, at a probe of that URL in the
    schedule: 0, or the status code the probe received; they are 0 or lie in
    100..599 when the responses received carried status codes in that range.
    Such a request is one whose results, with those that were on
    [metricsChan] when it arrived, found room in the 1000 slots of the
    channel. *)
Theorem undisturbed_run_covers_store args ok s0 ls0 c0 rs ls c u :
  Ctx.main args ok = Some s0 →
  Ctx.exec ls0 (s0, []) = Some c0 →
  Ctx.exec (Ctx.Scrape (Some rs) :: ls) c0 = Some c →
  Forall (spares (length (Ctx.requests c0.1))) ls →
  (∃ ρ resp, Ctx.requests c.1 !! length (Ctx.requests c0.1) = Some ρ ∧
             Ctx.hdl ρ = Ctx.Replied resp) →
  Scanned u ∈ rs →
  (∃ v, Ctx.urlStatus c.1 !! u = Some v ∧
        probe_result s0 (ls0 ++ Ctx.Scrape (Some rs) :: ls) u v ∧
        (Forall tame (ls0 ++ ls) → valid_or_zero v)) ∧
  (∃ ρ body v,
     Ctx.requests c.1 !! length (Ctx.requests c0.1) = Some ρ ∧
     Ctx.hdl ρ = Ctx.Replied (MetricsText body) ∧
     Sample Ctx.metric_name u v ∈ body ∧
     probe_result s0 (ls0 ++ Ctx.Scrape (Some rs) :: ls) u v ∧
     (Forall tame (ls0 ++ ls) → valid_or_zero v)) ∧
  scanned rs + length (buf (Ctx.metricsChan c0.1)) ≤ 1000.
Proof.
  intros Hm Hex0 Hex Hal (ρ & resp & Hr & Hh) Hu.
  apply ctx_main_start in Hm as (H0 & Hg0 & Hc0).
  assert (Ctx.exec (ls0 ++ Ctx.Scrape (Some rs) :: ls) (s0, []) = Some c)
    as Hall by (by rewrite ctx_exec_app, Hex0).
  destruct (ctx_sourced _ _ _ H0 Hg0 Hc0 Hall) as (_ & _ & Happ & _).
  pose proof (ctx_gauge_last _ _ _ Hg0 H0 Hall) as Hgc.
  pose proof (ctx_gauge_last _ _ _ Hg0 H0 Hex0) as Hg.
  pose proof (ctx_results_room _ _ _ Hc0 Hex0) as Hroom.
  destruct (ctx_chan_fixed _ _ _ Hc0 Hex0) as [Hcap _].
  assert (∀ v, applied_in c.2 u v →
            probe_result s0 (ls0 ++ Ctx.Scrape (Some rs) :: ls) u v ∧
            (Forall tame (ls0 ++ ls) → valid_or_zero v)) as Hprobe.
  { intros v [r' Hr']. pose proof (Happ r' _ Hr') as Hp. simpl in Hp.
    split; [done|]. intros Ht. eapply probe_result_valid; [|done].
    apply Forall_app in Ht as [Ht0 Ht]. apply Forall_app. split; [done|].
    by constructor. }
  apply ctx_exec_cons in Hex as (s1 & es & Hs & Hex).
  pose proof (ctx_gauge_step _ _ _ _ _ Hg Hs) as Hg1.
  apply ctx_scrape_fresh in Hs as (Hmc1 & _ & Hrs1).
  destruct (ctx_fits_exec _ (length (buf (Ctx.metricsChan c0.1))) _ _ _
              Hal Hex) as (ρf & Hrf & Hfits); simpl.
  { by rewrite Hmc1. }
  { by rewrite Hmc1. }
  { eexists. split; [rewrite Hrs1; by apply list_lookup_middle|].
    rewrite Hmc1. apply fresh_fits. }
  destruct (undisturbed_exec _ rs _ _ _ Hal Hex Hg1) as (ρ' & Hr' & Hq & Hund).
  { simpl. eexists. split; [rewrite Hrs1; by apply list_lookup_middle|].
    split; [done|]. left. apply fresh_collecting. }
  simplify_eq.
  destruct Hund as [(_ & Hno & _)|((body & Hh' & Hbody) & _ & _ & Hcov)];
    [by destruct (Hno resp)|].
  split_and!.
  - destruct (Hcov u Hu) as [v Hv]. exists v.
    split; [by rewrite Hgc, Hv|]. apply Hprobe. by apply last_applied_elem.
  - destruct (Hbody u Hu) as (v & Hv & HB). exists ρ, body, v.
    split; [done|]. split; [done|]. split; [done|]. by apply Hprobe.
  - destruct Hfits as [(Hw & _)|(_ & Hle)]; [congruence|]. done.
Qed.

Lemma undisturbed_run_covers_store_witness :
  ∃ v, Ctx.urlStatus
         (after (timed_out_run ++ Ctx.Scrape (Some [Scanned "b"]) :: beside_b)).1
         !! "b" = Some v ∧
       probe_result boot
         (timed_out_run ++ Ctx.Scrape (Some [Scanned "b"]) :: beside_b) "b" v ∧
       (Forall tame (timed_out_run ++ beside_b) → valid_or_zero v).
Proof.
  refine (proj1 (undisturbed_run_covers_store [] true boot timed_out_run
              (after timed_out_run) [Scanned "b"] beside_b
              (after (timed_out_run
                      ++ Ctx.Scrape (Some [Scanned "b"]) :: beside_b)) "b"
              _ _ _ _ _ _)).
  - reflexivity.
  - vm_compute. reflexivity.
  - vm_compute. reflexivity.
  - vm_compute. repeat (apply Forall_cons; split; [done|]).
    apply Forall_nil. exact I.
  - eexists _, _. split; vm_compute; reflexivity.
  - by left.
Defined.

(** C1 as stated fails when scrapes overlap: no deadline passes, request 0
    completes over the store [["a"]], and the gauge store has no entry for
    ["a"], because the drain pass of request 1 holds the result. *)
Lemma overlapped_run_misses_url :
  ∃ s ρ0 ρ1,
    Ctx.exec overlapping (boot, []) =
      Some (s, [ (0, Ctx.Probed 0 (MetricUpdate "a" 200));
                 (0, Ctx.Sent 0 (MetricUpdate "a" 200));
                 (1, Ctx.Drained (MetricUpdate "a" 200));
                 (0, Ctx.Responded (MetricsText [])) ]) ∧
    Forall (λ l, ∀ r, l ≠ Ctx.Act r Ctx.Deadline) overlapping ∧
    Ctx.requests s = [ρ0; ρ1] ∧
    Ctx.query ρ0 = [Scanned "a"] ∧
    Ctx.hdl ρ0 = Ctx.Replied (MetricsText []) ∧
    Ctx.hdl ρ1 = Ctx.Applying (MetricUpdate "a" 200) ∧
    Ctx.urlStatus s !! "a" = None.
Proof.
  eexists _, _, _. split; [vm_compute; reflexivity|].
  split; [by repeat (apply Forall_cons; split; [done|]); apply Forall_nil|].
  split; [reflexivity|]. done.
Qed.
